(** * sync-stories: user stories <-> GitHub issues

    A shallow embedding of [scripts/sync-stories.py] and the properties its
    specification states about it.

    - Python [str] values are lists of characters.  Characters are the code
      points below 256; the classes [\s], [\w], [\d], [.] of the [re] module
      and [str.lower], [str.strip] are the ones CPython applies on that range.
    - The regular expressions of the script are written in a small syntax
      ([re]) and run by a backtracking matcher ([exec]) with the priorities of
      Python's engine: greedy and lazy repetition of a character class,
      ordered alternation, groups, lookahead and the anchors.
    - Sets and dicts are stdpp's [gset] and [gmap].
    - Subprocesses and files are an explicit world threaded through the
      effectful functions; Python exceptions are a result of their own. *)

From Stdlib Require Import List Ascii String ZArith Lia Bool DecimalString.
From stdpp Require Import gmap strings.
Import ListNotations.

Set Default Proof Using "Type".
Local Open Scope bool_scope.

(** ** Strings *)

Abbreviation str := (list ascii).

(** A literal of the source. *)
Definition lit (s : string) : str := list_ascii_of_string s.

Definition cp (c : ascii) : N := N_of_ascii c.

Definition between (lo hi : N) (c : ascii) : bool :=
  ((lo <=? cp c) && (cp c <=? hi))%N.

Definition chr_eqb (a b : ascii) : bool := Ascii.eqb a b.

Definition nl : ascii := ascii_of_N 10.

(** [\s] and [str.isspace]: TAB..CR, FS..US, space, NEL, NBSP. *)
Definition is_space (c : ascii) : bool :=
  between 9 13 c || between 28 32 c || (cp c =? 133)%N || (cp c =? 160)%N.

(** [\d] on this range: the ASCII digits. *)
Definition is_digit (c : ascii) : bool := between 48 57 c.

(** [\w]: alphanumeric ([isalpha], [isdecimal], [isdigit] or [isnumeric]) or
    the underscore. *)
Definition is_word (c : ascii) : bool :=
  is_digit c || between 65 90 c || (cp c =? 95)%N || between 97 122 c
  || (cp c =? 170)%N || between 178 179 c || (cp c =? 181)%N
  || between 185 186 c || between 188 190 c
  || between 192 214 c || between 216 246 c || between 248 255 c.

(** [.] without [re.DOTALL]. *)
Definition not_nl (c : ascii) : bool := negb (chr_eqb c nl).

(** [.] under [re.DOTALL]. *)
Definition any_chr (_ : ascii) : bool := true.

(** [str.lower], one character.  A character of the model is a code point
    below 256; there lower case is again one character. *)
Definition lower_chr (c : ascii) : ascii :=
  if between 65 90 c || between 192 214 c || between 216 222 c
  then ascii_of_N (cp c + 32) else c.

Definition lower (s : str) : str := map lower_chr s.

Definition str_eqb (a b : str) : bool := bool_decide (a = b).

Fixpoint lstrip (s : str) : str :=
  match s with
  | c :: t => if is_space c then lstrip t else s
  | [] => []
  end.

Definition rstrip (s : str) : str := rev (lstrip (rev s)).

(** [s.strip()] *)
Definition strip (s : str) : str := rstrip (lstrip s).

(** [s.startswith(p)] *)
Fixpoint startswith (p s : str) : bool :=
  match p, s with
  | [], _ => true
  | a :: p', b :: s' => chr_eqb a b && startswith p' s'
  | _ :: _, [] => false
  end.

(** [p in s] for strings. *)
Fixpoint contains (p s : str) : bool :=
  startswith p s || match s with [] => false | _ :: t => contains p t end.

(** [sep.join(parts)] *)
Fixpoint join (sep : str) (parts : list str) : str :=
  match parts with
  | [] => []
  | [p] => p
  | p :: rest => p ++ sep ++ join sep rest
  end.

(** [s.split("\n")]: the lines of [s]; never empty. *)
Fixpoint split_nl_aux (cur : str) (s : str) : list str :=
  match s with
  | [] => [rev cur]
  | c :: t => if chr_eqb c nl then rev cur :: split_nl_aux [] t
              else split_nl_aux (c :: cur) t
  end.

Definition split_nl (s : str) : list str := split_nl_aux [] s.

(** [str(n)] for an [int]. *)
Definition str_of_int (n : Z) : str :=
  list_ascii_of_string (NilZero.string_of_int (Z.to_int n)).

(** Python exceptions the modelled code can let escape. *)
Inductive exn : Type :=
| ValueError
| KeyError.

Inductive result (A : Type) : Type :=
| Ok (a : A)
| Raise (e : exn).
Arguments Ok {A} a.
Arguments Raise {A} e.

(** [sys.int_max_str_digits], CPython's default: [int(s)] refuses a decimal
    string of more digits with [ValueError]. *)
Definition int_max_str_digits : nat := 4300.

Definition digit_val (c : ascii) : Z := Z.of_N (cp c) - 48.

Definition digits_val (s : str) : Z :=
  fold_left (fun acc c => 10 * acc + digit_val c)%Z s 0%Z.

(** [int(s)] for the strings the script passes: the capture of a [\d+]
    group.  Anything that is not a non-empty run of digits is refused here
    (Python accepts a sign, blanks and underscores besides; no call site
    passes them). *)
Definition py_int (s : str) : result Z :=
  if forallb is_digit s && negb (Nat.eqb (length s) 0)
     && (length s <=? int_max_str_digits)
  then Ok (digits_val s) else Raise ValueError.

(** ** Regular expressions *)

Inductive re : Type :=
| Eps
| Chr (p : ascii -> bool)                    (* one character of a class *)
| Seq (a b : re)
| Alt (a b : re)                              (* a|b, a first *)
| Rep (p : ascii -> bool) (lo : nat) (greedy : bool)
                                              (* class{lo,} or class{lo,}? *)
| Grp (n : nat) (a : re)                      (* capturing group n *)
| Ahead (a : re)                              (* (?=a) *)
| Bos                                         (* ^ *)
| Bol                                         (* ^ under re.MULTILINE *)
| Eos                                         (* $ *)
| Eol                                         (* $ under re.MULTILINE *)
| EndZ.                                       (* \Z *)

(** The matcher's position: the character before it, the offset, what is
    left of the subject and the groups captured so far. *)
Record mstate : Type := MState {
  ms_prev : option ascii;
  ms_pos : nat;
  ms_rest : str;
  ms_groups : list (nat * str)
}.

Definition ms_step (c : ascii) (t : str) (st : mstate) : mstate :=
  MState (Some c) (S (ms_pos st)) t (ms_groups st).

Definition ms_capture (n : nat) (st0 st : mstate) : mstate :=
  MState (ms_prev st) (ms_pos st) (ms_rest st)
         ((n, firstn (ms_pos st - ms_pos st0) (ms_rest st0)) :: ms_groups st).

(** class{lo,}: as many characters as possible, then one fewer, ... *)
Fixpoint rep_greedy (p : ascii -> bool) (lo : nat) (k : mstate -> option mstate)
    (cnt : nat) (l : str) (st : mstate) : option mstate :=
  match l with
  | c :: t =>
      if p c
      then match rep_greedy p lo k (S cnt) t (ms_step c t st) with
           | Some r => Some r
           | None => if lo <=? cnt then k st else None
           end
      else if lo <=? cnt then k st else None
  | [] => if lo <=? cnt then k st else None
  end.

(** class{lo,}?: as few characters as possible, then one more, ... *)
Fixpoint rep_lazy (p : ascii -> bool) (lo : nat) (k : mstate -> option mstate)
    (cnt : nat) (l : str) (st : mstate) : option mstate :=
  match (if lo <=? cnt then k st else None) with
  | Some r => Some r
  | None =>
      match l with
      | c :: t => if p c then rep_lazy p lo k (S cnt) t (ms_step c t st) else None
      | [] => None
      end
  end.

Definition at_bol (st : mstate) : bool :=
  match ms_prev st with None => true | Some c => chr_eqb c nl end.

Definition at_eos (st : mstate) : bool :=
  match ms_rest st with
  | [] => true
  | [c] => chr_eqb c nl
  | _ => false
  end.

Definition at_eol (st : mstate) : bool :=
  match ms_rest st with [] => true | c :: _ => chr_eqb c nl end.

Definition at_end (st : mstate) : bool :=
  match ms_rest st with [] => true | _ => false end.

(** [exec r st k]: match [r] at [st], then the rest of the pattern [k];
    the first success in Python's order of preference. *)
Fixpoint exec (r : re) (st : mstate) (k : mstate -> option mstate)
    : option mstate :=
  match r with
  | Eps => k st
  | Chr p =>
      match ms_rest st with
      | c :: t => if p c then k (ms_step c t st) else None
      | [] => None
      end
  | Seq a b => exec a st (fun st' => exec b st' k)
  | Alt a b =>
      match exec a st k with
      | Some r => Some r
      | None => exec b st k
      end
  | Rep p lo true => rep_greedy p lo k 0 (ms_rest st) st
  | Rep p lo false => rep_lazy p lo k 0 (ms_rest st) st
  | Grp n a => exec a st (fun st' => k (ms_capture n st st'))
  | Ahead a => match exec a st Some with Some _ => k st | None => None end
  | Bos => if Nat.eqb (ms_pos st) 0 then k st else None
  | Bol => if at_bol st then k st else None
  | Eos => if at_eos st then k st else None
  | Eol => if at_eol st then k st else None
  | EndZ => if at_end st then k st else None
  end.

(** A literal string as a pattern. *)
Fixpoint Str_ (s : str) : re :=
  match s with
  | [] => Eps
  | c :: t => Seq (Chr (chr_eqb c)) (Str_ t)
  end.

Definition Lit (s : string) : re := Str_ (lit s).

(** Sequence of several patterns. *)
Fixpoint Cat (rs : list re) : re :=
  match rs with
  | [] => Eps
  | [r] => r
  | r :: rest => Seq r (Cat rest)
  end.

(** A match object: [m.start()], [m.end()], [m.group(0)] and the groups. *)
Record rmatch : Type := RMatch {
  m_start : nat;
  m_end : nat;
  m_whole : str;
  m_groups : list (nat * str)
}.

Definition m_len (m : rmatch) : nat := m_end m - m_start m.

Fixpoint assoc_nat (n : nat) (l : list (nat * str)) : option str :=
  match l with
  | [] => None
  | (i, v) :: t => if Nat.eqb i n then Some v else assoc_nat n t
  end.

(** [m.group(n)] for a group that took part in the match. *)
Definition group (n : nat) (m : rmatch) : str :=
  match assoc_nat n (m_groups m) with Some v => v | None => [] end.

(** One attempt at the position [pos] of the subject, [s] being what is left
    of it there. *)
Definition match_at (r : re) (prev : option ascii) (pos : nat) (s : str)
    : option rmatch :=
  match exec r (MState prev pos s []) Some with
  | Some st => Some (RMatch pos (ms_pos st) (firstn (ms_pos st - pos) s)
                            (ms_groups st))
  | None => None
  end.

(** [re.match(r, s)] *)
Definition re_match (r : re) (s : str) : option rmatch := match_at r None 0 s.

Fixpoint search_from (r : re) (prev : option ascii) (pos : nat) (s : str)
    : option rmatch :=
  match match_at r prev pos s with
  | Some m => Some m
  | None =>
      match s with
      | c :: t => search_from r (Some c) (S pos) t
      | [] => None
      end
  end.

(** [re.search(r, s)] *)
Definition re_search (r : re) (s : str) : option rmatch := search_from r None 0 s.

(** The subject cut into the matches [finditer] and [sub] find, left to right
    and without overlap, and the characters between them.  [skip] counts the
    characters of the last match still to pass.  (No pattern of the script
    matches the empty string.) *)
Inductive piece : Type :=
| Plain (c : ascii)
| Hit (m : rmatch).

Fixpoint scan (r : re) (prev : option ascii) (pos skip : nat) (s : str)
    : list piece :=
  match s with
  | [] =>
      match skip with
      | 0 => match match_at r prev pos [] with Some m => [Hit m] | None => [] end
      | S _ => []
      end
  | c :: t =>
      match skip with
      | S n => scan r (Some c) (S pos) n t
      | 0 =>
          match match_at r prev pos s with
          | Some m =>
              Hit m :: (if Nat.eqb (m_len m) 0 then [Plain c] else [])
                    ++ scan r (Some c) (S pos) (m_len m - 1) t
          | None => Plain c :: scan r (Some c) (S pos) 0 t
          end
      end
  end.

Definition pieces (r : re) (s : str) : list piece := scan r None 0 0 s.

(** [r.finditer(s)] *)
Definition finditer (r : re) (s : str) : list rmatch :=
  flat_map (fun p => match p with Hit m => [m] | Plain _ => [] end) (pieces r s).

(** [r.sub(repl, s)], [repl] a function of the match. *)
Definition re_sub (r : re) (repl : rmatch -> str) (s : str) : str :=
  flat_map (fun p => match p with Hit m => repl m | Plain c => [c] end)
           (pieces r s).

(** [re.sub(r, repl, s, count=1)] *)
Definition re_sub1 (r : re) (repl : rmatch -> str) (s : str) : str :=
  match re_search r s with
  | Some m => firstn (m_start m) s ++ repl m ++ skipn (m_end m) s
  | None => s
  end.

(** ** Constants and patterns of the script *)

Definition MAX_RETRIES : nat := 3.
Definition RETRY_BASE_DELAY : nat := 2.

(** [EPIC_LABELS], in the order of the dict. *)
Definition EPIC_LABELS : list (str * str) :=
  [ (lit "epic-1", lit "epic-1-infrastructure");
    (lit "epic-2", lit "epic-2-environments");
    (lit "epic-3", lit "epic-3-database");
    (lit "epic-4", lit "epic-4-observability");
    (lit "epic-5", lit "epic-5-runners");
    (lit "epic-6", lit "epic-6-security") ].

Definition one_of (s : string) (c : ascii) : bool :=
  existsb (chr_eqb c) (lit s).

(** The characters [SAFE_TITLE_PATTERN] leaves alone: [\w\s\-:().,#/]. *)
Definition safe_title_chr (c : ascii) : bool :=
  is_word c || is_space c || one_of "-:().,#/" c.

(** [[^\w\s\-:().,#/]] *)
Definition SAFE_TITLE_PATTERN : re := Chr (fun c => negb (safe_title_chr c)).

(** [(?:\n|$)] *)
Definition nl_or_eos : re := Alt (Chr (chr_eqb nl)) Eos.

(** [- \[(.)\]\s+(.+?)(?=\n|$)] *)
Definition CHECKBOX_PATTERN : re :=
  Cat [Lit "- ["; Grp 1 (Chr not_nl); Lit "]"; Rep is_space 1 true;
       Grp 2 (Rep not_nl 1 false); Ahead nl_or_eos].

(** [- \[[xX]\]\s+(.+?)(?:\n|$)] *)
Definition CHECKBOX_CHECKED_PATTERN : re :=
  Cat [Lit "- ["; Chr (one_of "xX"); Lit "]"; Rep is_space 1 true;
       Grp 1 (Rep not_nl 1 false); nl_or_eos].

(** [- \[ \]\s+(.+?)(?:\n|$)] *)
Definition CHECKBOX_UNCHECKED_PATTERN : re :=
  Cat [Lit "- [ ]"; Rep is_space 1 true; Grp 1 (Rep not_nl 1 false); nl_or_eos].

Definition RATE_LIMIT_PATTERNS : list str :=
  [lit "rate limit"; lit "secondary rate limit"; lit "api rate limit"; lit "429"].

Definition NON_RETRYABLE_ERRORS : list str :=
  [lit "401"; lit "404"; lit "422"; lit "authentication"; lit "unauthorized";
   lit "not found"; lit "invalid"; lit "permission denied"].

(** [## <name>\s*\n\n(.*?)(?=\n##|\Z)] under [re.DOTALL] *)
Definition section_pattern (name : string) : re :=
  Cat [Lit "## "; Lit name; Rep is_space 0 true; Chr (chr_eqb nl);
       Chr (chr_eqb nl); Grp 1 (Rep any_chr 0 false);
       Ahead (Alt (Seq (Chr (chr_eqb nl)) (Lit "##")) EndZ)].

(** [^- \[.\]\s*] *)
Definition item_prefix_pattern : re :=
  Cat [Bos; Lit "- ["; Chr not_nl; Lit "]"; Rep is_space 0 true].

(** [(US-\d+)] *)
Definition story_id_pattern : re := Grp 1 (Seq (Lit "US-") (Rep is_digit 1 true)).

(** [^#\s+(.+?)(?:\s*\n|$)] under [re.MULTILINE] *)
Definition title_pattern : re :=
  Cat [Bol; Lit "#"; Rep is_space 1 true; Grp 1 (Rep not_nl 1 false);
       Alt (Seq (Rep is_space 0 true) (Chr (chr_eqb nl))) Eol].

(** [\*\*Status:\*\*\s*(.+?)(?:\n|$)] *)
Definition status_pattern : re :=
  Cat [Lit "**Status:**"; Rep is_space 0 true; Grp 1 (Rep not_nl 1 false);
       nl_or_eos].

(** [\*\*(\w+)\*\*\s*-\s*(?:Critical|Important|Nice)] *)
Definition priority_pattern : re :=
  Cat [Lit "**"; Grp 1 (Rep is_word 1 true); Lit "**"; Rep is_space 0 true;
       Lit "-"; Rep is_space 0 true;
       Alt (Lit "Critical") (Alt (Lit "Important") (Lit "Nice"))].

(** [^\*\*Story Points:\*\*\s*(\d+)] under [re.MULTILINE] *)
Definition points_pattern : re :=
  Cat [Bol; Lit "**Story Points:**"; Rep is_space 0 true;
       Grp 1 (Rep is_digit 1 true)].

(** [#(\d+)] *)
Definition dep_pattern : re := Seq (Lit "#") (Grp 1 (Rep is_digit 1 true)).

(** [/issues/(\d+)] *)
Definition issue_url_pattern : re :=
  Seq (Lit "/issues/") (Grp 1 (Rep is_digit 1 true)).

(** [\*\*Status:\*\*\s*.+?(?=\n|$)] *)
Definition status_line_pattern : re :=
  Cat [Lit "**Status:**"; Rep is_space 0 true; Rep not_nl 1 false;
       Ahead nl_or_eos].

(** [(^#\s+.+?\n)] under [re.MULTILINE] *)
Definition title_line_pattern : re :=
  Grp 1 (Cat [Bol; Lit "#"; Rep is_space 1 true; Rep not_nl 1 false;
              Chr (chr_eqb nl)]).

(** [github\.com[:/](.+?)/(.+?)(?:\.git)?$] *)
Definition repo_url_pattern : re :=
  Cat [Lit "github.com"; Chr (one_of ":/"); Grp 1 (Rep not_nl 1 false);
       Lit "/"; Grp 2 (Rep not_nl 1 false); Alt (Lit ".git") Eps; Eos].

(** ** Data model *)

(** One [{"text": ..., "checked": ...}] entry of a checkbox section. *)
Record item : Type := Item {
  text : str;
  checked : bool
}.

(** A path, by what the script reads of it. *)
Record Path : Type := MkPath {
  path_str : str;        (* str(p) *)
  stem : str;            (* p.stem *)
  parent_name : str      (* p.parent.name *)
}.

Module UserStory.
Record t : Type := Make {
  id : str;
  title : str;
  status : str;
  priority : str;
  story_points : Z;
  epic : str;
  epic_label : str;
  user_story : str;
  acceptance_criteria : list item;
  tasks : list item;
  dependencies : list Z;
  notes : str;
  implementation_details : str;
  file_path : Path;
  issue_number : option Z
}.
End UserStory.

(** ** Pure functions of the script *)

Definition sanitize_text (text : str) : str :=
  re_sub SAFE_TITLE_PATTERN (fun _ => []) text.

Definition is_retryable_error (stderr : str) : bool :=
  let stderr_lower := lower stderr in
  if existsb (fun pattern => contains pattern stderr_lower) RATE_LIMIT_PATTERNS
  then true
  else if existsb (fun pattern => contains (lower pattern) stderr_lower)
                  NON_RETRYABLE_ERRORS
  then false
  else true.

(** The body of the loop of [parse_checkbox_section], for one line. *)
Definition parse_checkbox_line (line : str) : list item :=
  let line := strip line in
  if startswith (lit "- [") line
  then [ {| text := re_sub item_prefix_pattern (fun _ => []) line;
            checked := startswith (lit "- [x]") line
                       || startswith (lit "- [X]") line |} ]
  else [].

Definition parse_checkbox_section (content : str) (section_name : string)
    : list item :=
  match re_search (section_pattern section_name) content with
  | Some m => flat_map parse_checkbox_line (split_nl (group 1 m))
  | None => []
  end.

(** A free-text section: the stripped capture, or the empty string. *)
Definition text_section (content : str) (section_name : string) : str :=
  match re_search (section_pattern section_name) content with
  | Some m => strip (group 1 m)
  | None => []
  end.

Fixpoint map_result {A B} (f : A -> result B) (l : list A) : result (list B) :=
  match l with
  | [] => Ok []
  | a :: t =>
      match f a with
      | Raise e => Raise e
      | Ok b => match map_result f t with
                | Raise e => Raise e
                | Ok bs => Ok (b :: bs)
                end
      end
  end.

(** The first label of [EPIC_LABELS] whose key occurs in the folder name. *)
Fixpoint epic_label_of (table : list (str * str)) (epic : str) : str :=
  match table with
  | [] => []
  | (key, label) :: rest =>
      if contains key epic then label else epic_label_of rest epic
  end.

(** [parse_user_story] once the file is read: [Ok None] is the skip, [Raise]
    an exception that escapes. *)
Definition parse_story_text (content : str) (file_path : Path)
    : result (option UserStory.t) :=
  let filename := stem file_path in
  match re_match story_id_pattern filename with
  | None => Ok None
  | Some m =>
      let story_id := group 1 m in
      let title :=
        match re_search title_pattern content with
        | Some tm => group 1 tm
        | None => filename
        end in
      let status :=
        match re_search status_pattern content with
        | Some sm => strip (group 1 sm)
        | None => lit "Draft"
        end in
      let priority :=
        match re_search priority_pattern content with
        | Some pm => lower (group 1 pm)
        | None => lit "should"
        end in
      match (match re_search points_pattern content with
             | Some pm => py_int (group 1 pm)
             | None => Ok 0%Z
             end) with
      | Raise e => Raise e
      | Ok story_points =>
          let user_story := text_section content "User Story" in
          let acceptance_criteria :=
            parse_checkbox_section content "Acceptance Criteria" in
          let tasks := parse_checkbox_section content "Tasks" in
          match (match re_search (section_pattern "Dependencies") content with
                 | Some dm =>
                     map_result (fun d => py_int (group 1 d))
                                (finditer dep_pattern (group 1 dm))
                 | None => Ok []
                 end) with
          | Raise e => Raise e
          | Ok dependencies =>
              let notes := text_section content "Notes" in
              let impl_details := text_section content "Implementation Details" in
              let epic := parent_name file_path in
              let epic_label := epic_label_of EPIC_LABELS epic in
              Ok (Some (UserStory.Make story_id title status priority
                          story_points epic epic_label user_story
                          acceptance_criteria tasks dependencies notes
                          impl_details file_path None))
          end
      end
  end.

Definition checkbox_line (it : item) : str :=
  lit "- " ++ (if checked it then lit "[x]" else lit "[ ]") ++ lit " " ++ text it.

Definition nonempty {A} (l : list A) : bool :=
  match l with [] => false | _ :: _ => true end.

Definition build_issue_body (story : UserStory.t) : str :=
  let body_parts :=
    (if nonempty (UserStory.user_story story)
     then [lit "## User Story" ++ [nl]; UserStory.user_story story; []]
     else [])
    ++ (if nonempty (UserStory.acceptance_criteria story)
        then [lit "## Acceptance Criteria" ++ [nl]]
             ++ map checkbox_line (UserStory.acceptance_criteria story) ++ [[]]
        else [])
    ++ (if nonempty (UserStory.tasks story)
        then [lit "## Tasks" ++ [nl]]
             ++ map checkbox_line (UserStory.tasks story) ++ [[]]
        else [])
    ++ (if nonempty (UserStory.implementation_details story)
        then [lit "## Implementation Details" ++ [nl];
              UserStory.implementation_details story; []]
        else [])
    ++ (if nonempty (UserStory.dependencies story)
        then [lit "## Dependencies" ++ [nl]]
             ++ map (fun dep => lit "- #" ++ str_of_int dep)
                    (UserStory.dependencies story) ++ [[]]
        else [])
    ++ (if nonempty (UserStory.notes story)
        then [lit "## Notes" ++ [nl]; UserStory.notes story; []]
        else [])
    ++ [lit "**Story Points:** " ++ str_of_int (UserStory.story_points story)]
  in join [nl] body_parts.

Definition is_done (story : UserStory.t) : bool :=
  str_eqb (lower (UserStory.status story)) (lit "done").

(** [labels] of [create_issue], empty labels filtered out. *)
Definition create_labels (story : UserStory.t) : list str :=
  List.filter nonempty
    ([UserStory.epic_label story;
      lit "priority-" ++ UserStory.priority story;
      lit "user-story"]
     ++ (if is_done story then [lit "done"] else [])).

(** [desired_labels] of [update_issue], empty labels removed. *)
Definition desired_labels (story : UserStory.t) : gset str :=
  filter (fun label : str => label <> [])
    ({[ UserStory.epic_label story;
        lit "priority-" ++ UserStory.priority story;
        lit "user-story" ]}
     ∪ (if is_done story then {[ lit "done" ]} else ∅)).

Definition labels_to_add (story : UserStory.t) (existing_label_names : gset str)
    : gset str :=
  desired_labels story ∖ existing_label_names.

Definition labels_to_remove (story : UserStory.t)
    (existing_label_names : gset str) : gset str :=
  if negb (is_done story) then {[ lit "done" ]} ∩ existing_label_names else ∅.

(** [issue_checked] and [issue_unchecked] of [update_local_doc]. *)
Definition issue_checked (issue_body : str) : gset str :=
  list_to_set (map (fun m => strip (group 1 m))
                   (finditer CHECKBOX_CHECKED_PATTERN issue_body)).

Definition issue_unchecked (issue_body : str) : gset str :=
  list_to_set (map (fun m => strip (group 1 m))
                   (finditer CHECKBOX_UNCHECKED_PATTERN issue_body)).

(** The closure [update_checkbox] of [update_local_doc]. *)
Definition update_checkbox (issue_checked issue_unchecked : gset str)
    (m : rmatch) : str :=
  let text := strip (group 2 m) in
  if bool_decide (text ∈ issue_checked) then lit "- [x] " ++ text
  else if bool_decide (text ∈ issue_unchecked) then lit "- [ ] " ++ text
  else m_whole m.

(** [CHECKBOX_PATTERN.sub(update_checkbox, content)] *)
Definition sync_checkboxes (content issue_body : str) : str :=
  re_sub CHECKBOX_PATTERN
         (update_checkbox (issue_checked issue_body) (issue_unchecked issue_body))
         content.

(** The status update of [update_local_doc]. *)
Definition sync_status (is_done : bool) (content : str) : str :=
  if is_done && negb (contains (lit "**Status:** Done") content)
  then if contains (lit "**Status:**") content
       then re_sub status_line_pattern (fun _ => lit "**Status:** Done") content
       else re_sub1 title_line_pattern
              (fun m => group 1 m ++ [nl] ++ lit "**Status:** Done" ++ [nl])
              content
  else content.

(** ** The world: subprocesses, files and what the run leaves behind *)

(** What one [subprocess.run] does. *)
Inductive outcome : Type :=
| Exited (returncode : Z) (stdout stderr : str)
| TimeoutExpired
| FileNotFoundError.

(** A file: its text ([None]: [read_text] raises) and whether [write_text]
    succeeds. *)
Record file : Type := MkFile {
  f_text : option str;
  f_writable : bool
}.

Inductive level : Type := WARNING | ERROR.

(** What can be observed of a run.  [logger.info] and [logger.debug] lines
    are left out. *)
Inductive event : Type :=
| Spawn (cmd : list str)
| Sleep (seconds : nat)
| Log (lvl : level) (msg : str)
| Wrote (path : str) (new_text : str).

(** [procs n] is the outcome of the [n]-th subprocess of the run. *)
Record world : Type := MkWorld {
  procs : nat -> outcome;
  spawned : nat;
  files : gmap str file;
  trace : list event
}.

(** The JSON of [gh issue list --json number,title,labels,body,state], typed:
    a field may be missing, a field that is there has the type gh gives it. *)
Record issue_json : Type := MkIssue {
  number : option Z;
  title : option str;
  labels : option (list str);      (* the "name" of each label *)
  body : option str
}.

Inductive json_elem : Type :=
| JOther
| JDict (issue : issue_json).

Inductive json : Type :=
| JNotList
| JList (elems : list json_elem).

(** Effectful code: a world in, a value or an exception and a world out. *)
Definition M (A : Type) : Type := world -> result A * world.

Definition ret {A} (a : A) : M A := fun w => (Ok a, w).

Definition bind {A B} (m : M A) (f : A -> M B) : M B :=
  fun w => match m w with
           | (Ok a, w') => f a w'
           | (Raise e, w') => (Raise e, w')
           end.

Definition raise {A} (e : exn) : M A := fun w => (Raise e, w).

(** [try: m  except ValueError: handler] *)
Definition except_ValueError {A} (m : M A) (handler : M A) : M A :=
  fun w => match m w with
           | (Raise ValueError, w') => handler w'
           | r => r
           end.

Definition lift {A} (r : result A) : M A := fun w => (r, w).

#[global] Instance M_ret : MRet M := @ret.
#[global] Instance M_bind : MBind M := fun A B f m => bind m f.

Definition emit (e : event) : M unit :=
  fun w => (Ok tt, MkWorld (procs w) (spawned w) (files w) (trace w ++ [e])).

(** [subprocess.run(cmd, ...)] *)
Definition subprocess_run (cmd : list str) : M outcome :=
  fun w => (Ok (procs w (spawned w)),
            MkWorld (procs w) (S (spawned w)) (files w) (trace w ++ [Spawn cmd])).

Definition sleep (seconds : nat) : M unit := emit (Sleep seconds).
Definition log (lvl : level) (msg : string) : M unit := emit (Log lvl (lit msg)).

(** [p.exists()] *)
Definition path_exists (p : Path) : M bool :=
  fun w => (Ok (bool_decide (is_Some (files w !! path_str p))), w).

(** [p.read_text()]; [None] when it raises one of the errors the script
    catches. *)
Definition read_text (p : Path) : M (option str) :=
  fun w => (Ok (match files w !! path_str p with
                | Some f => f_text f
                | None => None
                end), w).

(** [p.write_text(text)]; [false] when it raises. *)
Definition write_text (p : Path) (new_text : str) : M bool :=
  fun w => match files w !! path_str p with
           | Some f =>
               if f_writable f
               then (Ok true,
                     MkWorld (procs w) (spawned w)
                       (<[path_str p := MkFile (Some new_text) true]> (files w))
                       (trace w ++ [Wrote (path_str p) new_text]))
               else (Ok false, w)
           | None => (Ok false, w)
           end.

(** ** Effectful functions of the script *)

(** The loop of [run_gh_command], over the attempts still to make. *)
Fixpoint gh_attempts (args : list str) (retries : nat) (attempts : list nat)
    (last_error : str) : M (Z * str * str) :=
  match attempts with
  | [] => ret (1%Z, [], last_error)
  | attempt :: rest =>
      o ← subprocess_run (lit "gh" :: args);
      match o with
      | Exited returncode stdout stderr =>
          if (returncode =? 0)%Z then ret (returncode, stdout, stderr)
          else if negb (is_retryable_error stderr)
          then ret (returncode, stdout, stderr)
          else if Nat.eqb attempt (retries - 1)
          then ret (returncode, stdout, stderr)
          else
            log WARNING "Attempt failed, retrying" ;;
            sleep (RETRY_BASE_DELAY ^ attempt) ;;
            gh_attempts args retries rest stderr
      | TimeoutExpired =>
          if Nat.eqb attempt (retries - 1)
          then
            log ERROR "GitHub CLI command timed out after all retries" ;;
            ret (1%Z, [], lit "Command timed out")
          else
            log WARNING "Command timed out, retry" ;;
            sleep (RETRY_BASE_DELAY ^ attempt) ;;
            gh_attempts args retries rest (lit "Command timed out")
      | FileNotFoundError =>
          log ERROR "GitHub CLI (gh) not found. Please install it." ;;
          ret (1%Z, [], lit "gh command not found")
      end
  end.

(** [for attempt in range(retries)] *)
Definition run_gh_command_n (args : list str) (retries : nat)
    : M (Z * str * str) :=
  gh_attempts args retries (seq 0 retries) [].

Definition run_gh_command (args : list str) : M (Z * str * str) :=
  run_gh_command_n args MAX_RETRIES.

Definition get_repo_info : M (str * str) :=
  o ← subprocess_run [lit "git"; lit "remote"; lit "get-url"; lit "origin"];
  match o with
  | Exited _ stdout _ =>
      let url := strip stdout in
      match re_search repo_url_pattern url with
      | Some m => ret (group 1 m, group 2 m)
      | None => raise ValueError
      end
  | TimeoutExpired => raise ValueError
  | FileNotFoundError => raise ValueError
  end.

Definition parse_user_story (file_path : Path) : M (option UserStory.t) :=
  c ← read_text file_path;
  match c with
  | None => log ERROR "Error reading" ;; ret None
  | Some content =>
      match parse_story_text content file_path with
      | Raise e => raise e
      | Ok None => log WARNING "Filename does not match US-XXX pattern" ;; ret None
      | Ok (Some story) => ret (Some story)
      end
  end.

Definition validate_issue_structure (issue : issue_json) : bool :=
  bool_decide (is_Some (number issue)) && bool_decide (is_Some (title issue))
  && bool_decide (is_Some (labels issue)).

(** The loop of [get_existing_issues] that indexes the issues by story id. *)
Fixpoint index_issues (issues : list json_elem) (issue_map : gmap str issue_json)
    : M (gmap str issue_json) :=
  match issues with
  | [] => ret issue_map
  | JOther :: rest =>
      log WARNING "Skipping malformed issue" ;; index_issues rest issue_map
  | JDict issue :: rest =>
      if negb (validate_issue_structure issue)
      then log WARNING "Skipping malformed issue" ;; index_issues rest issue_map
      else
        match re_match story_id_pattern (default [] (title issue)) with
        | Some m => index_issues rest (<[group 1 m := issue]> issue_map)
        | None => index_issues rest issue_map
        end
  end.

Definition slash (owner repo : str) : str := owner ++ lit "/" ++ repo.

(** [issue["number"]] *)
Definition issue_number_of (issue : issue_json) : M Z :=
  match number issue with
  | Some n => ret n
  | None => raise KeyError
  end.

Section Gateway.

(** [json.loads]; [None] when it raises [JSONDecodeError]. *)
Variable json_loads : str -> option json.

Definition get_existing_issues (owner repo : str) : M (gmap str issue_json) :=
  r ← run_gh_command
         [lit "issue"; lit "list"; lit "--repo"; slash owner repo;
          lit "--label"; lit "user-story"; lit "--state"; lit "all";
          lit "--limit"; str_of_int 200; lit "--json";
          lit "number,title,labels,body,state"];
  let '(returncode, stdout, stderr) := r in
  if negb (returncode =? 0)%Z
  then log ERROR "Error fetching issues" ;; ret ∅
  else
    match json_loads stdout with
    | None => log ERROR "Error parsing GitHub response" ;; ret ∅
    | Some JNotList =>
        log ERROR "Unexpected GitHub response format: expected list" ;; ret ∅
    | Some (JList issues) => index_issues issues ∅
    end.

End Gateway.

(** Returns [(success, issue_number)]. *)
Definition create_issue (owner repo : str) (story : UserStory.t) (dry_run : bool)
    : M (bool * option Z) :=
  let labels := create_labels story in
  let body := build_issue_body story in
  let safe_title := sanitize_text (UserStory.title story) in
  if dry_run then ret (true, None)
  else
    r ← run_gh_command
          [lit "issue"; lit "create"; lit "--repo"; slash owner repo;
           lit "--title"; safe_title; lit "--body"; body;
           lit "--label"; join (lit ",") labels];
    let '(returncode, stdout, stderr) := r in
    if negb (returncode =? 0)%Z
    then log ERROR "Error creating issue" ;; ret (false, None)
    else
      match re_search issue_url_pattern stdout with
      | Some m =>
          issue_number ← lift (py_int (group 1 m));
          ret (true, Some issue_number)
      | None => ret (false, None)
      end.

(** Returns the success status. *)
Definition update_issue (owner repo : str) (issue_number : Z)
    (story : UserStory.t) (existing_labels : list str) (dry_run : bool)
    : M bool :=
  let body := build_issue_body story in
  let existing_label_names : gset str := list_to_set existing_labels in
  let to_add := labels_to_add story existing_label_names in
  let to_remove := labels_to_remove story existing_label_names in
  if dry_run then ret true
  else
    let cmd :=
      [lit "issue"; lit "edit"; str_of_int issue_number;
       lit "--repo"; slash owner repo; lit "--body"; body]
      ++ (if nonempty (elements to_add)
          then [lit "--add-label"; join (lit ",") (elements to_add)] else [])
      ++ (if nonempty (elements to_remove)
          then [lit "--remove-label"; join (lit ",") (elements to_remove)]
          else []) in
    r ← run_gh_command cmd;
    let '(returncode, _, stderr) := r in
    if negb (returncode =? 0)%Z
    then log ERROR "Error updating issue" ;; ret false
    else ret true.

(** The text [update_local_doc] wants the file to have. *)
Definition patched_text (content : str) (issue_data : issue_json) : str :=
  let issue_labels : gset str := list_to_set (default [] (labels issue_data)) in
  let is_done := bool_decide (lit "done" ∈ issue_labels) in
  let content := sync_status is_done content in
  let issue_body := default [] (body issue_data) in
  sync_checkboxes content issue_body.

(** Returns [True] if changes were made. *)
Definition update_local_doc (story : UserStory.t) (issue_data : issue_json)
    (dry_run : bool) : M bool :=
  let file_path := UserStory.file_path story in
  e ← path_exists file_path;
  if negb e then log WARNING "File not found" ;; ret false
  else
    c ← read_text file_path;
    match c with
    | None => log ERROR "Error reading" ;; ret false
    | Some original_content =>
        let content := patched_text original_content issue_data in
        if negb (str_eqb content original_content)
        then
          if dry_run then ret true
          else
            ok ← write_text file_path content;
            if (ok : bool) then ret true
            else log ERROR "Error writing" ;; ret false
        else ret false
    end.

(** The loop of [sync_stories] that parses the files. *)
Fixpoint parse_all (story_files : list Path) : M (list UserStory.t) :=
  match story_files with
  | [] => ret []
  | file_path :: rest =>
      story ← parse_user_story file_path;
      stories ← parse_all rest;
      ret (match story with Some s => s :: stories | None => stories end)
  end.

(** One turn of the loop "Sync to GitHub": whether the story's operation
    succeeded. *)
Definition push_story (owner repo : str) (existing_issues : gmap str issue_json)
    (dry_run : bool) (story : UserStory.t) : M bool :=
  match existing_issues !! UserStory.id story with
  | Some issue =>
      n ← issue_number_of issue;
      update_issue owner repo n story (default [] (labels issue)) dry_run
  | None =>
      r ← create_issue owner repo story dry_run;
      ret (fst r)
  end.

(** The loop "Sync to GitHub", [success] being the flag of [sync_stories]. *)
Fixpoint push_loop (owner repo : str) (existing_issues : gmap str issue_json)
    (dry_run : bool) (stories : list UserStory.t) (success : bool) : M bool :=
  match stories with
  | [] => ret success
  | story :: rest =>
      ok ← push_story owner repo existing_issues dry_run story;
      push_loop owner repo existing_issues dry_run rest
                (if negb ok then false else success)
  end.

(** One turn of the loop "Sync from GitHub". *)
Definition pull_story (existing_issues : gmap str issue_json) (dry_run : bool)
    (story : UserStory.t) : M unit :=
  match existing_issues !! UserStory.id story with
  | Some issue => update_local_doc story issue dry_run ;; ret tt
  | None => ret tt
  end.

Fixpoint pull_loop (existing_issues : gmap str issue_json) (dry_run : bool)
    (stories : list UserStory.t) : M unit :=
  match stories with
  | [] => ret tt
  | story :: rest =>
      pull_story existing_issues dry_run story ;;
      pull_loop existing_issues dry_run rest
  end.

Definition direction_in (direction : str) (choices : list string) : bool :=
  existsb (fun c => str_eqb direction (lit c)) choices.

Section Orchestrator.

Variable json_loads : str -> option json.

(** [story_files]: what [sorted(docs_dir.glob("**/US-*.md"))] lists.
    Returns [True] if successful. *)
Definition sync_stories (story_files : list Path) (direction : str)
    (dry_run : bool) : M bool :=
  let success := true in
  except_ValueError
    (r ← get_repo_info; ret (Some r))
    (log ERROR "Failed to get repo info" ;; ret None)
  ≫= fun r =>
  match r with
  | None => ret false
  | Some (owner, repo) =>
      stories ← parse_all story_files;
      if negb (nonempty stories)
      then log WARNING "No valid user stories found to sync" ;; ret true
      else
        existing_issues ← get_existing_issues json_loads owner repo;
        success ←
          (if direction_in direction ["both"; "to-github"]
           then push_loop owner repo existing_issues dry_run stories success
           else ret success);
        (if direction_in direction ["both"; "from-github"]
         then pull_loop existing_issues dry_run stories
         else ret tt) ;;
        ret success
  end.

End Orchestrator.

(** * Properties *)

(** ** Strings *)

Lemma chr_eqb_eq (a b : ascii) : chr_eqb a b = true <-> a = b.
Proof. unfold chr_eqb. apply Ascii.eqb_eq. Qed.

Lemma chr_eqb_refl (a : ascii) : chr_eqb a a = true.
Proof. apply chr_eqb_eq. reflexivity. Qed.

Lemma str_eqb_eq (a b : str) : str_eqb a b = true <-> a = b.
Proof. unfold str_eqb. apply bool_decide_eq_true. Qed.

Lemma startswith_app (p s : str) : startswith p (p ++ s) = true.
Proof. induction p as [|a p IH]; simpl; [reflexivity|]. now rewrite chr_eqb_refl. Qed.

Lemma startswith_spec (p s : str) :
  startswith p s = true <-> exists t, s = p ++ t.
Proof.
  split.
  - revert s. induction p as [|a p IH]; intros s H.
    + now exists s.
    + destruct s as [|b s]; simpl in H; [discriminate|].
      apply andb_true_iff in H as [Hab Hp]. apply chr_eqb_eq in Hab.
      destruct (IH _ Hp) as [t ->]. exists t. now subst.
  - intros [t ->]. apply startswith_app.
Qed.

Lemma startswith_lower (p s : str) :
  startswith p s = true -> startswith (lower p) (lower s) = true.
Proof.
  intros [t ->]%startswith_spec. unfold lower. rewrite map_app.
  apply startswith_app.
Qed.

Lemma contains_lower (p s : str) :
  contains p s = true -> contains (lower p) (lower s) = true.
Proof.
  induction s as [|c s IH]; simpl; intros H.
  - rewrite orb_false_r in *. now apply (startswith_lower p []).
  - apply orb_true_iff in H as [H|H]; apply orb_true_iff.
    + left. now apply (startswith_lower p (c :: s)).
    + right. now apply IH.
Qed.

(** ** The matcher on a single character class *)

Lemma sub_succ_self (n : nat) : S n - n = 1.
Proof. lia. Qed.

Lemma scan_chr_delete (p : ascii -> bool) (s : str) :
  forall prev pos,
    flat_map (fun x => match x with Hit _ => [] | Plain c => [c] end)
             (scan (Chr p) prev pos 0 s)
    = List.filter (fun c => negb (p c)) s.
Proof.
  induction s as [|c t IH]; intros prev pos; [reflexivity|].
  cbn [scan List.filter]. unfold match_at. cbn [exec ms_rest].
  destruct (p c) eqn:Hp; cbn [negb].
  - unfold m_len. cbn [ms_step ms_pos m_end m_start].
    rewrite sub_succ_self. cbn. apply IH.
  - cbn. f_equal. apply IH.
Qed.

Lemma sanitize_text_filter (t : str) :
  sanitize_text t = List.filter safe_title_chr t.
Proof.
  unfold sanitize_text, re_sub, pieces, SAFE_TITLE_PATTERN.
  rewrite scan_chr_delete. apply filter_ext. intros c. apply negb_involutive.
Qed.

Lemma filter_idem {A} (f : A -> bool) (l : list A) :
  List.filter f (List.filter f l) = List.filter f l.
Proof.
  induction l as [|a l IH]; simpl; [reflexivity|].
  destruct (f a) eqn:E; simpl; rewrite ?E, IH; reflexivity.
Qed.

(** C10.  Sanitizing a title twice gives what sanitizing it once gives, and
    the sanitized title is made of characters of the allow-list
    [\w\s\-:().,#/] only. *)
Theorem sanitize_text_idempotent (t : str) :
  sanitize_text (sanitize_text t) = sanitize_text t
  /\ Forall (fun c => safe_title_chr c = true) (sanitize_text t).
Proof.
  rewrite !sanitize_text_filter. split.
  - apply filter_idem.
  - apply List.Forall_forall. intros c Hc. apply filter_In in Hc. tauto.
Qed.

(** ** Error classification *)

Lemma existsb_false {A} (f : A -> bool) (l : list A) :
  (forall x, In x l -> f x = false) -> existsb f l = false.
Proof.
  induction l as [|a l IH]; intros H; simpl; [reflexivity|].
  rewrite (H a) by now left. apply IH. intros x Hx. apply H. now right.
Qed.

Lemma existsb_true {A} (f : A -> bool) (l : list A) (x : A) :
  In x l -> f x = true -> existsb f l = true.
Proof. intros Hx Hf. apply existsb_exists. now exists x. Qed.

Lemma NON_RETRYABLE_ERRORS_lower (p : str) :
  In p NON_RETRYABLE_ERRORS -> lower p = p.
Proof.
  unfold NON_RETRYABLE_ERRORS. simpl.
  intros H. repeat (destruct H as [<-|H]; [reflexivity|]). destruct H.
Qed.

(** C3.  An error whose lowercased text contains a rate-limit substring is
    retryable, whatever else it contains; an error that contains "404" and no
    rate-limit substring is not retryable; an error that matches neither list
    is retryable. *)
Theorem is_retryable_error_classes (stderr : str) :
  ((exists p, In p RATE_LIMIT_PATTERNS /\ contains p (lower stderr) = true) ->
   is_retryable_error stderr = true)
  /\ (contains (lit "404") stderr = true ->
      (forall p, In p RATE_LIMIT_PATTERNS -> contains p (lower stderr) = false) ->
      is_retryable_error stderr = false)
  /\ ((forall p, In p RATE_LIMIT_PATTERNS -> contains p (lower stderr) = false) ->
      (forall p, In p NON_RETRYABLE_ERRORS -> contains p (lower stderr) = false) ->
      is_retryable_error stderr = true).
Proof.
  unfold is_retryable_error. repeat split.
  - intros (p & Hp & Hc).
    now rewrite (existsb_true (fun q => contains q (lower stderr)) _ p Hp Hc).
  - intros H404 Hrate.
    rewrite (existsb_false (fun q => contains q (lower stderr)) _ Hrate).
    rewrite (existsb_true (fun q => contains (lower q) (lower stderr)) _ (lit "404"));
      [reflexivity | simpl; tauto | now apply contains_lower].
  - intros Hrate Hnon.
    rewrite (existsb_false (fun q => contains q (lower stderr)) _ Hrate).
    rewrite existsb_false; [reflexivity|].
    intros p Hp. rewrite (NON_RETRYABLE_ERRORS_lower p Hp). now apply Hnon.
Qed.

Ltac each_of_list H :=
  simpl in H; repeat (destruct H as [<-|H]; [vm_compute; reflexivity|]); destruct H.

Lemma is_retryable_error_classes_witness :
  is_retryable_error (lit "API Rate Limit exceeded: invalid token") = true
  /\ is_retryable_error (lit "HTTP 404") = false
  /\ is_retryable_error (lit "connection reset by peer") = true.
Proof.
  split; [|split].
  - destruct (is_retryable_error_classes
                (lit "API Rate Limit exceeded: invalid token")) as (H & _ & _).
    apply H. exists (lit "rate limit").
    split; [simpl; tauto | vm_compute; reflexivity].
  - destruct (is_retryable_error_classes (lit "HTTP 404")) as (_ & H & _).
    apply H.
    + vm_compute; reflexivity.
    + intros p Hp. each_of_list Hp.
  - destruct (is_retryable_error_classes (lit "connection reset by peer"))
      as (_ & _ & H).
    apply H.
    + intros p Hp. each_of_list Hp.
    + intros p Hp. each_of_list Hp.
Defined.

(** ** Labels of an update *)

Lemma desired_labels_spec (story : UserStory.t) (l : str) :
  l ∈ desired_labels story <->
  l <> [] /\ (l = UserStory.epic_label story
              \/ l = lit "priority-" ++ UserStory.priority story
              \/ l = lit "user-story"
              \/ (l = lit "done" /\ is_done story = true)).
Proof.
  unfold desired_labels.
  rewrite elem_of_filter, !elem_of_union, !elem_of_singleton.
  destruct (is_done story).
  - rewrite elem_of_singleton. intuition auto.
  - rewrite elem_of_empty. intuition (auto; discriminate).
Qed.

Lemma is_done_spec (story : UserStory.t) :
  is_done story = bool_decide (lower (UserStory.status story) = lit "done").
Proof. reflexivity. Qed.

(** C6.  The update adds exactly the desired labels the issue does not have,
    and removes exactly "done" when the issue has it and the story's status
    is not "done" (case-insensitively), nothing otherwise; it never removes
    another label. *)
Theorem update_issue_label_sets (story : UserStory.t) (existing : gset str) :
  (forall l, l ∈ labels_to_add story existing <->
             l ∈ desired_labels story /\ l ∉ existing)
  /\ labels_to_remove story existing
     = (if bool_decide (lower (UserStory.status story) = lit "done")
        then ∅ else {[ lit "done" ]} ∩ existing)
  /\ (forall l, l ∈ labels_to_remove story existing -> l = lit "done").
Proof.
  unfold labels_to_add, labels_to_remove. rewrite is_done_spec.
  split; [|split].
  - intros l. apply elem_of_difference.
  - now destruct (bool_decide _).
  - intros l. destruct (bool_decide _); simpl.
    + now rewrite elem_of_empty.
    + rewrite elem_of_intersection, elem_of_singleton. tauto.
Qed.

(** ** The issue body *)

(** A section as the specification words it: nothing when the field is
    empty; otherwise its header, a blank line, its lines and a blank line. *)
Definition section_block (present : bool) (header : string) (lines : list str)
    : str :=
  if present
  then lit "## " ++ lit header ++ [nl; nl] ++ join [nl] lines ++ [nl; nl]
  else [].

Definition story_points_line (story : UserStory.t) : str :=
  lit "**Story Points:** " ++ str_of_int (UserStory.story_points story).

(** The body as the specification describes it: the sections that are
    present, in the fixed order, then the story-points line. *)
Definition body_by_sections (story : UserStory.t) : str :=
  section_block (nonempty (UserStory.user_story story)) "User Story"
    [UserStory.user_story story]
  ++ section_block (nonempty (UserStory.acceptance_criteria story))
       "Acceptance Criteria"
       (map checkbox_line (UserStory.acceptance_criteria story))
  ++ section_block (nonempty (UserStory.tasks story)) "Tasks"
       (map checkbox_line (UserStory.tasks story))
  ++ section_block (nonempty (UserStory.implementation_details story))
       "Implementation Details" [UserStory.implementation_details story]
  ++ section_block (nonempty (UserStory.dependencies story)) "Dependencies"
       (map (fun dep => lit "- #" ++ str_of_int dep)
            (UserStory.dependencies story))
  ++ section_block (nonempty (UserStory.notes story)) "Notes"
       [UserStory.notes story]
  ++ story_points_line story.

Lemma join_cons (sep a : str) (r : list str) :
  r <> [] -> join sep (a :: r) = a ++ sep ++ join sep r.
Proof. destruct r; [congruence | reflexivity]. Qed.

Lemma join_app (sep : str) (xs ys : list str) :
  xs <> [] -> ys <> [] ->
  join sep (xs ++ ys) = join sep xs ++ sep ++ join sep ys.
Proof.
  intros Hx Hy. induction xs as [|x xs IH]; [congruence|].
  destruct xs as [|x' xs].
  - simpl app. now rewrite join_cons.
  - change ((x :: x' :: xs) ++ ys) with (x :: ((x' :: xs) ++ ys)).
    rewrite join_cons by discriminate. rewrite IH by discriminate.
    rewrite (join_cons sep x (x' :: xs)) by discriminate.
    now rewrite <- !app_assoc.
Qed.

Lemma app_nonnil_r {A} (xs ys : list A) : ys <> [] -> xs ++ ys <> [].
Proof. destruct xs; [easy | discriminate]. Qed.

Lemma join_section (present : bool) (header : string) (lines rest : list str) :
  rest <> [] -> (present = true -> lines <> []) ->
  join [nl] ((if present then (lit "## " ++ lit header ++ [nl]) :: lines ++ [[]]
              else []) ++ rest)
  = section_block present header lines ++ join [nl] rest.
Proof.
  intros Hrest Hlines. unfold section_block. destruct present; [|reflexivity].
  specialize (Hlines eq_refl).
  rewrite <- app_comm_cons, <- (app_assoc lines).
  rewrite join_cons by now apply app_nonnil_r, app_nonnil_r.
  rewrite join_app by (try apply app_nonnil_r; easy).
  change ([[]] ++ rest) with ([] :: rest).
  rewrite (join_cons [nl] [] rest) by easy.
  rewrite <- !app_assoc. reflexivity.
Qed.

Lemma nonempty_map {A B} (f : A -> B) (l : list A) :
  nonempty l = true -> map f l <> [].
Proof. destruct l; [discriminate | discriminate]. Qed.

(** The parts of [build_issue_body], each section as a header, its lines and
    an empty part. *)
Ltac body_parts_by_section story :=
  change [lit "## User Story" ++ [nl]; UserStory.user_story story; []]
    with ((lit "## " ++ lit "User Story" ++ [nl])
            :: [UserStory.user_story story] ++ [[]]);
  change [lit "## Implementation Details" ++ [nl];
          UserStory.implementation_details story; []]
    with ((lit "## " ++ lit "Implementation Details" ++ [nl])
            :: [UserStory.implementation_details story] ++ [[]]);
  change [lit "## Notes" ++ [nl]; UserStory.notes story; []]
    with ((lit "## " ++ lit "Notes" ++ [nl]) :: [UserStory.notes story] ++ [[]]);
  change ([lit "## Acceptance Criteria" ++ [nl]]
          ++ map checkbox_line (UserStory.acceptance_criteria story) ++ [[]])
    with ((lit "## " ++ lit "Acceptance Criteria" ++ [nl])
            :: map checkbox_line (UserStory.acceptance_criteria story) ++ [[]]);
  change ([lit "## Tasks" ++ [nl]]
          ++ map checkbox_line (UserStory.tasks story) ++ [[]])
    with ((lit "## " ++ lit "Tasks" ++ [nl])
            :: map checkbox_line (UserStory.tasks story) ++ [[]]);
  change ([lit "## Dependencies" ++ [nl]]
          ++ map (fun dep => lit "- #" ++ str_of_int dep)
                 (UserStory.dependencies story) ++ [[]])
    with ((lit "## " ++ lit "Dependencies" ++ [nl])
            :: map (fun dep => lit "- #" ++ str_of_int dep)
                   (UserStory.dependencies story) ++ [[]]).

Ltac sections_joined :=
  repeat (rewrite join_section;
          [ f_equal
          | repeat apply app_nonnil_r; discriminate
          | first [ discriminate | apply nonempty_map ] ]).

Lemma build_issue_body_eq (story : UserStory.t) :
  build_issue_body story = body_by_sections story.
Proof.
  unfold build_issue_body, body_by_sections, story_points_line.
  body_parts_by_section story. sections_joined.
Qed.

(** C7.  The body is the concatenation, in the order User Story, Acceptance
    Criteria, Tasks, Implementation Details, Dependencies, Notes, of the
    sections whose field is not empty, each under its header, followed by the
    story-points line, which is always there; an empty field contributes
    nothing. *)
Theorem build_issue_body_sections (story : UserStory.t) :
  build_issue_body story = body_by_sections story
  /\ (forall header lines, section_block false header lines = []).
Proof.
  split; [|reflexivity].
  unfold build_issue_body, body_by_sections, story_points_line.
  body_parts_by_section story.
  repeat (rewrite join_section;
          [ f_equal
          | repeat apply app_nonnil_r; discriminate
          | first [ discriminate | apply nonempty_map ] ]).
Qed.

(** ** The matcher on literals and repetitions *)

(** The state after the characters [u] have been consumed, [r] being left. *)
Fixpoint ms_after (u r : str) (st : mstate) : mstate :=
  match u with
  | [] => MState (ms_prev st) (ms_pos st) r (ms_groups st)
  | c :: u' => ms_after u' r (ms_step c (u' ++ r) st)
  end.

Lemma ms_after_nil (st : mstate) : ms_after [] (ms_rest st) st = st.
Proof. now destruct st. Qed.

Lemma ms_pos_after (u r : str) (st : mstate) :
  ms_pos (ms_after u r st) = ms_pos st + length u.
Proof.
  revert st. induction u as [|c u IH]; intros st; simpl; [lia|].
  rewrite IH. simpl. lia.
Qed.

Lemma ms_rest_after (u r : str) (st : mstate) : ms_rest (ms_after u r st) = r.
Proof. revert st. induction u as [|c u IH]; intros st; simpl; [reflexivity|apply IH]. Qed.

Lemma ms_groups_after (u r : str) (st : mstate) :
  ms_groups (ms_after u r st) = ms_groups st.
Proof. revert st. induction u as [|c u IH]; intros st; simpl; [reflexivity|]. now rewrite IH. Qed.

Lemma ms_after_app (u v r : str) (st : mstate) :
  ms_after (u ++ v) r st = ms_after v r (ms_after u (v ++ r) st).
Proof.
  revert st. induction u as [|c u IH]; intros st; simpl.
  - destruct v; reflexivity.
  - rewrite <- app_assoc. apply IH.
Qed.

Lemma exec_Str (p r : str) (st : mstate) (k : mstate -> option mstate) :
  ms_rest st = p ++ r -> exec (Str_ p) st k = k (ms_after p r st).
Proof.
  revert st. induction p as [|a p IH]; intros st H.
  - simpl in H. rewrite <- H. now rewrite ms_after_nil.
  - cbn [Str_ exec]. rewrite H. cbn [app]. rewrite chr_eqb_refl.
    now rewrite IH by reflexivity.
Qed.

Lemma exec_Str_none (p : str) (st : mstate) (k : mstate -> option mstate) :
  startswith p (ms_rest st) = false -> exec (Str_ p) st k = None.
Proof.
  revert st. induction p as [|a p IH]; intros st H; [discriminate|].
  cbn [Str_ exec]. destruct (ms_rest st) as [|b s] eqn:E; [reflexivity|].
  simpl in H. destruct (chr_eqb a b); [|reflexivity].
  apply IH. exact H.
Qed.

Lemma exec_Chr (p : ascii -> bool) (c : ascii) (t : str) (st : mstate)
    (k : mstate -> option mstate) :
  ms_rest st = c :: t -> p c = true -> exec (Chr p) st k = k (ms_step c t st).
Proof. intros H Hp. cbn [exec]. now rewrite H, Hp. Qed.

(** [r] does not go on with a character of the class [p]. *)
Definition stops (p : ascii -> bool) (r : str) : bool :=
  match r with [] => true | c :: _ => negb (p c) end.

Lemma rep_greedy_longest (p : ascii -> bool) (lo : nat)
    (k : mstate -> option mstate) (x : mstate) (r : str) :
  stops p r = true ->
  forall u cnt st,
    ms_rest st = u ++ r -> forallb p u = true -> lo <= cnt + length u ->
    k (ms_after u r st) = Some x ->
    rep_greedy p lo k cnt (u ++ r) st = Some x.
Proof.
  intros Hr. induction u as [|c u IH]; intros cnt st Hst Hu Hlo Hk.
  - simpl in Hst, Hlo. cbn [app]. subst r. rewrite ms_after_nil in Hk.
    assert ((lo <=? cnt) = true) as Hle by (apply Nat.leb_le; lia).
    destruct (ms_rest st) as [|c r']; cbn [rep_greedy]; rewrite Hle; [exact Hk|].
    simpl in Hr. apply negb_true_iff in Hr. now rewrite Hr.
  - simpl in Hu. apply andb_true_iff in Hu as [Hc Hu].
    cbn [app rep_greedy]. rewrite Hc.
    rewrite (IH (S cnt) (ms_step c (u ++ r) st)); [reflexivity|reflexivity|exact Hu| |exact Hk].
    simpl in Hlo. lia.
Qed.

Lemma rep_lazy_shortest (p : ascii -> bool) (lo : nat)
    (k : mstate -> option mstate) (x : mstate) (r : str) :
  forall u cnt st,
    ms_rest st = u ++ r -> forallb p u = true -> lo <= cnt + length u ->
    (forall u1 u2, u = u1 ++ u2 -> u2 <> [] -> k (ms_after u1 (u2 ++ r) st) = None) ->
    k (ms_after u r st) = Some x ->
    rep_lazy p lo k cnt (u ++ r) st = Some x.
Proof.
  induction u as [|c u IH]; intros cnt st Hst Hu Hlo Hfail Hk.
  - simpl in Hst, Hlo. cbn [app]. subst r. rewrite ms_after_nil in Hk.
    assert ((lo <=? cnt) = true) as Hle by (apply Nat.leb_le; lia).
    destruct (ms_rest st); cbn [rep_lazy]; now rewrite Hle, Hk.
  - simpl in Hu. apply andb_true_iff in Hu as [Hc Hu].
    cbn [app rep_lazy].
    assert (k st = None) as Hk0.
    { specialize (Hfail [] (c :: u) eq_refl).
      rewrite <- Hst, ms_after_nil in Hfail. apply Hfail. discriminate. }
    rewrite Hk0. assert ((if (lo <=? cnt) then None else None) = @None mstate) as ->
      by now destruct (lo <=? cnt).
    rewrite Hc.
    apply IH; [reflexivity|exact Hu|simpl in Hlo; lia| |exact Hk].
    intros u1 u2 -> Hu2. rewrite <- app_assoc.
    apply (Hfail (c :: u1) u2); [reflexivity|exact Hu2].
Qed.

(** ** The checkbox patterns on one line *)

(** What follows the marker in [CHECKBOX_CHECKED_PATTERN] and
    [CHECKBOX_UNCHECKED_PATTERN]: [\s+(.+?)(?:\n|$)]. *)
Definition checkbox_tail : re :=
  Cat [Rep is_space 1 true; Grp 1 (Rep not_nl 1 false); nl_or_eos].

Definition space : ascii := " "%char.

Lemma not_nl_false (c : ascii) : not_nl c = true -> chr_eqb nl c = false.
Proof.
  unfold not_nl. intros H. apply negb_true_iff in H.
  destruct (chr_eqb nl c) eqn:E; [|reflexivity].
  apply chr_eqb_eq in E. subst c. now rewrite chr_eqb_refl in H.
Qed.

Lemma nl_or_eos_inside (c : ascii) (t : str) (st : mstate)
    (k : mstate -> option mstate) :
  ms_rest st = c :: t -> not_nl c = true -> t <> [] ->
  exec nl_or_eos st k = None.
Proof.
  intros Hst Hc Ht. unfold nl_or_eos. cbn [exec]. rewrite Hst.
  rewrite (not_nl_false c Hc). unfold at_eos. rewrite Hst.
  destruct t; [congruence|reflexivity].
Qed.

Lemma checkbox_tail_line (text rest : str) (st : mstate) :
  ms_rest st = space :: text ++ nl :: rest ->
  text <> [] -> stops is_space text = true -> forallb not_nl text = true ->
  exec checkbox_tail st Some
  = Some (MState (Some nl) (ms_pos st + 1 + length text + 1) rest
                 ((1, text) :: ms_groups st)).
Proof.
  intros Hst Hne Hhd Hline. unfold checkbox_tail. cbn [Cat exec]. rewrite Hst.
  apply (rep_greedy_longest is_space 1 _ _ (text ++ nl :: rest) ) with (u := [space]).
  - destruct text; [congruence|exact Hhd].
  - exact Hst.
  - reflexivity.
  - simpl. lia.
  - set (st1 := ms_after [space] (text ++ nl :: rest) st).
    assert (ms_rest st1 = text ++ nl :: rest) as Hst1 by apply ms_rest_after.
    rewrite Hst1.
    apply rep_lazy_shortest.
    + exact Hst1.
    + exact Hline.
    + destruct text; [congruence|simpl; lia].
    + intros u1 u2 -> Hu2. destruct u2 as [|c u2]; [congruence|].
      rewrite forallb_app in Hline. apply andb_true_iff in Hline as [_ Hline].
      simpl in Hline. apply andb_true_iff in Hline as [Hc _].
      apply (nl_or_eos_inside c (u2 ++ nl :: rest)); [|exact Hc|now destruct u2].
      unfold ms_capture. cbn [ms_rest]. apply ms_rest_after.
    + unfold nl_or_eos. cbn [exec]. unfold ms_capture at 1. cbn [ms_rest].
      rewrite ms_rest_after. rewrite chr_eqb_refl. f_equal.
      unfold ms_step, ms_capture. cbn [ms_pos ms_groups ms_rest ms_prev].
      rewrite !ms_pos_after, !ms_groups_after. rewrite Hst1.
      f_equal.
      * subst st1. rewrite ms_pos_after. simpl. lia.
      * f_equal. f_equal.
        replace (ms_pos st1 + length text - ms_pos st1) with (length text) by lia.
        rewrite firstn_app, Nat.sub_diag, firstn_all. simpl. apply app_nil_r.
Qed.

Lemma chr_eqb_sym (a b : ascii) : chr_eqb a b = chr_eqb b a.
Proof.
  destruct (chr_eqb a b) eqn:E.
  - apply chr_eqb_eq in E. subst. symmetry. apply chr_eqb_refl.
  - destruct (chr_eqb b a) eqn:E'; [|reflexivity].
    apply chr_eqb_eq in E'. subst. now rewrite chr_eqb_refl in E.
Qed.

Lemma CHECKBOX_CHECKED_PATTERN_tail :
  CHECKBOX_CHECKED_PATTERN
  = Seq (Lit "- [") (Seq (Chr (one_of "xX")) (Seq (Lit "]") checkbox_tail)).
Proof. reflexivity. Qed.

Lemma CHECKBOX_UNCHECKED_PATTERN_tail :
  CHECKBOX_UNCHECKED_PATTERN = Seq (Lit "- [ ]") checkbox_tail.
Proof. reflexivity. Qed.

(** A match of the checked pattern starts at a marker [- [x]] or [- [X]]. *)
Lemma checked_match_head (prev : option ascii) (pos : nat) (s : str) :
  startswith (lit "- [x]") s || startswith (lit "- [X]") s = false ->
  match_at CHECKBOX_CHECKED_PATTERN prev pos s = None.
Proof.
  intros H. unfold match_at. rewrite CHECKBOX_CHECKED_PATTERN_tail.
  destruct s as [|c1 [|c2 [|c3 [|c4 [|c5 s]]]]]; cbn -[checkbox_tail chr_eqb] in *;
    repeat match goal with
           | |- context [if chr_eqb ?a ?b then _ else _] =>
               destruct (chr_eqb a b) eqn:?; try reflexivity
           end.
  all: try reflexivity.
  all: match goal with
       | |- context [chr_eqb ?c _ || _] =>
           rewrite ?(chr_eqb_sym c) in *;
           destruct (chr_eqb "x" c), (chr_eqb "X" c); cbn in *;
           try reflexivity; discriminate
       end.
Qed.

Lemma unchecked_match_head (prev : option ascii) (pos : nat) (s : str) :
  startswith (lit "- [ ]") s = false ->
  match_at CHECKBOX_UNCHECKED_PATTERN prev pos s = None.
Proof.
  intros H. unfold match_at. rewrite CHECKBOX_UNCHECKED_PATTERN_tail.
  cbn [exec]. unfold Lit. now rewrite exec_Str_none.
Qed.

(** What makes the text of an item survive the round trip through a body
    line: it is not empty, it has no line break, and it does not start with
    white space. *)
Definition line_text (t : str) : bool :=
  nonempty t && stops is_space t && forallb not_nl t.

Lemma line_text_spec (t : str) :
  line_text t = true ->
  t <> [] /\ stops is_space t = true /\ forallb not_nl t = true.
Proof.
  unfold line_text. intros H.
  apply andb_true_iff in H as [H H3]. apply andb_true_iff in H as [H1 H2].
  repeat split; try assumption. now destruct t.
Qed.

Lemma checked_match_line (prev : option ascii) (pos : nat) (t rest : str) :
  line_text t = true ->
  exists m,
    match_at CHECKBOX_CHECKED_PATTERN prev pos (lit "- [x] " ++ t ++ nl :: rest)
    = Some m
    /\ group 1 m = t /\ m_len m = length (lit "- [x] " ++ t) + 1.
Proof.
  intros (Hne & Hsp & Hnl)%line_text_spec.
  unfold match_at. rewrite CHECKBOX_CHECKED_PATTERN_tail.
  cbn -[checkbox_tail].
  rewrite (checkbox_tail_line t rest) by (try reflexivity; assumption).
  eexists. split; [reflexivity|]. unfold group, m_len. cbn. split; [reflexivity|].
  cbn. lia.
Qed.

Lemma unchecked_match_line (prev : option ascii) (pos : nat) (t rest : str) :
  line_text t = true ->
  exists m,
    match_at CHECKBOX_UNCHECKED_PATTERN prev pos (lit "- [ ] " ++ t ++ nl :: rest)
    = Some m
    /\ group 1 m = t /\ m_len m = length (lit "- [ ] " ++ t) + 1.
Proof.
  intros (Hne & Hsp & Hnl)%line_text_spec.
  unfold match_at. rewrite CHECKBOX_UNCHECKED_PATTERN_tail.
  cbn -[checkbox_tail].
  rewrite (checkbox_tail_line t rest) by (try reflexivity; assumption).
  eexists. split; [reflexivity|]. unfold group, m_len. cbn. split; [reflexivity|].
  cbn. lia.
Qed.

(** ** Scanning a text for matches *)

Definition hits (ps : list piece) : list rmatch :=
  flat_map (fun p => match p with Hit m => [m] | Plain _ => [] end) ps.

(** The first groups of the matches found from a position on. *)
Definition caps (r : re) (prev : option ascii) (pos : nat) (s : str) : list str :=
  map (group 1) (hits (scan r prev pos 0 s)).

(** One of the markers [mks] starts [s]. *)
Definition marker_at (mks : list str) (s : str) : bool :=
  existsb (fun mk => startswith mk s) mks.

(** None of the markers [mks] occurs in [s]. *)
Definition free_of (mks : list str) (s : str) : bool :=
  negb (existsb (fun mk => contains mk s) mks).

Definition markers_ok (mks : list str) : bool :=
  forallb (fun mk => nonempty mk && forallb not_nl mk) mks.

(** Scanning [seg ++ rest] finds the groups [l] in [seg] and goes on with
    [rest]. *)
Definition yields (r : re) (seg : str) (l : list str) : Prop :=
  forall prev pos rest, exists prev' pos',
    caps r prev pos (seg ++ rest) = l ++ caps r prev' pos' rest.

Lemma startswith_app_nl (mk l rest : str) :
  forallb not_nl mk = true -> startswith mk l = false ->
  startswith mk (l ++ nl :: rest) = false.
Proof.
  revert l. induction mk as [|a mk IH]; intros l Hmk H; [discriminate|].
  simpl in Hmk. apply andb_true_iff in Hmk as [Ha Hmk].
  destruct l as [|b l]; simpl.
  - unfold not_nl in Ha. apply negb_true_iff in Ha. now rewrite Ha.
  - simpl in H. destruct (chr_eqb a b); [|reflexivity]. now apply IH.
Qed.

Lemma marker_at_app_nl (mks : list str) (l rest : str) :
  markers_ok mks = true ->
  marker_at mks l = false -> marker_at mks (l ++ nl :: rest) = false.
Proof.
  unfold marker_at, markers_ok. induction mks as [|mk ms IH]; [reflexivity|].
  simpl. intros Hmks H. apply andb_true_iff in Hmks as [Hmk Hms].
  apply andb_true_iff in Hmk as [_ Hmk].
  apply orb_false_iff in H as [H1 H2].
  rewrite (startswith_app_nl mk l rest Hmk H1). now apply IH.
Qed.

Lemma marker_at_nil (mks : list str) :
  markers_ok mks = true -> marker_at mks [] = false.
Proof.
  unfold marker_at, markers_ok. induction mks as [|mk ms IH]; [reflexivity|].
  simpl. intros Hmks. apply andb_true_iff in Hmks as [Hmk Hms].
  apply andb_true_iff in Hmk as [Hne _].
  destruct mk; [discriminate|]. simpl. now apply IH.
Qed.

Lemma free_of_cons (mks : list str) (c : ascii) (l : str) :
  free_of mks (c :: l) = true ->
  marker_at mks (c :: l) = false /\ free_of mks l = true.
Proof.
  unfold free_of, marker_at.
  induction mks as [|mk ms IH]; [intros _; split; reflexivity|].
  cbn [existsb contains]. rewrite !negb_true_iff, !orb_false_iff.
  intros [[H1 H2] H3]. rewrite <- negb_true_iff in H3. apply IH in H3 as [H3 H4].
  rewrite negb_true_iff in H4. auto.
Qed.

Section Scanning.

Variable r : re.
Variable mks : list str.
Hypothesis Hhead :
  forall prev pos s, marker_at mks s = false -> match_at r prev pos s = None.
Hypothesis Hmks : markers_ok mks = true.

Lemma yields_nil : yields r [] [].
Proof. intros prev pos rest. now exists prev, pos. Qed.

Lemma yields_app (a b : str) (la lb : list str) :
  yields r a la -> yields r b lb -> yields r (a ++ b) (la ++ lb).
Proof.
  intros Ha Hb prev pos rest.
  destruct (Ha prev pos (b ++ rest)) as (p1 & n1 & E1).
  destruct (Hb p1 n1 rest) as (p2 & n2 & E2).
  exists p2, n2. now rewrite <- !app_assoc, E1, E2.
Qed.

Lemma yields_nl : yields r [nl] [].
Proof using Hhead Hmks.
  intros prev pos rest. exists (Some nl), (S pos).
  unfold caps. cbn [app scan].
  rewrite Hhead; [reflexivity|].
  apply (marker_at_app_nl mks [] rest Hmks), marker_at_nil, Hmks.
Qed.

(** A line in which no marker occurs holds no match. *)
Lemma yields_line (l : str) : free_of mks l = true -> yields r (l ++ [nl]) [].
Proof using Hhead Hmks.
  induction l as [|c l IH]; intros Hfree; [apply yields_nl|].
  apply free_of_cons in Hfree as [Hm Hfree].
  intros prev pos rest.
  destruct (IH Hfree (Some c) (S pos) rest) as (p' & n' & E).
  exists p', n'. rewrite <- E. unfold caps.
  change (((c :: l) ++ [nl]) ++ rest) with (c :: ((l ++ [nl]) ++ rest)).
  cbn [scan]. rewrite Hhead; [reflexivity|].
  change (c :: (l ++ [nl]) ++ rest) with (((c :: l) ++ [nl]) ++ rest).
  rewrite <- app_assoc. now apply marker_at_app_nl.
Qed.

(** Nor does the end of the text, when no marker occurs in it. *)
Lemma caps_end (l : str) (prev : option ascii) (pos : nat) :
  free_of mks l = true -> caps r prev pos l = [].
Proof using Hhead Hmks.
  revert prev pos. induction l as [|c l IH]; intros prev pos Hfree.
  - unfold caps. cbn [scan]. now rewrite Hhead by apply marker_at_nil, Hmks.
  - apply free_of_cons in Hfree as [Hm Hfree].
    unfold caps. cbn [scan]. rewrite Hhead by exact Hm.
    apply (IH (Some c) (S pos) Hfree).
Qed.

Lemma scan_skip (u rest : str) :
  forall prev pos, exists prev' pos',
    scan r prev pos (length u) (u ++ rest) = scan r prev' pos' 0 rest.
Proof.
  induction u as [|c u IH]; intros prev pos.
  - now exists prev, pos.
  - destruct (IH (Some c) (S pos)) as (p' & n' & E). now exists p', n'.
Qed.

(** A segment that is one match. *)
Lemma yields_hit (seg t : str) :
  seg <> [] ->
  (forall prev pos rest, exists m,
      match_at r prev pos (seg ++ rest) = Some m
      /\ group 1 m = t /\ m_len m = length seg) ->
  yields r seg [t].
Proof.
  intros Hne Hm prev pos rest.
  destruct (Hm prev pos rest) as (m & E & Hg & Hlen).
  destruct seg as [|c seg]; [congruence|].
  destruct (scan_skip seg rest (Some c) (S pos)) as (p' & n' & Es).
  exists p', n'. unfold caps. cbn [app scan] in *. rewrite E, Hlen.
  cbn [length Nat.eqb app].
  replace (S (length seg) - 1) with (length seg) by lia.
  rewrite Es. cbn. now rewrite Hg.
Qed.

End Scanning.

(** ** Numbers in a body *)

Definition no_space (s : str) : bool :=
  forallb (fun c => negb (chr_eqb c space)) s.

Lemma string_of_uint_no_space (d : Decimal.uint) :
  no_space (list_ascii_of_string (NilEmpty.string_of_uint d)) = true.
Proof. induction d; simpl; try reflexivity; exact IHd. Qed.

Lemma str_of_int_no_space (n : Z) : no_space (str_of_int n) = true.
Proof.
  unfold str_of_int, NilZero.string_of_int, NilZero.string_of_uint.
  destruct (Z.to_int n) as [d|d]; destruct d; try reflexivity;
    simpl; apply string_of_uint_no_space.
Qed.

Definition checked_markers : list str := [lit "- [x]"; lit "- [X]"].
Definition unchecked_markers : list str := [lit "- [ ]"].

(** The three markers of a checkbox line. *)
Definition checkbox_markers : list str := checked_markers ++ unchecked_markers.

Lemma no_space_free (s : str) :
  no_space s = true -> free_of checkbox_markers s = true.
Proof.
  unfold free_of, checkbox_markers, checked_markers, unchecked_markers.
  induction s as [|c s IH]; intros H; [reflexivity|].
  simpl in H. apply andb_true_iff in H as [Hc H].
  specialize (IH H). apply negb_true_iff in IH.
  cbn [app existsb] in *. apply negb_true_iff.
  repeat (apply orb_false_iff in IH as [? IH]).
  cbn [contains]. rewrite ?H0, ?H1, ?H2. rewrite !orb_false_r.
  destruct s as [|d s]; cbn -[chr_eqb].
  - now rewrite !andb_false_r.
  - simpl in H. apply andb_true_iff in H as [Hd _]. apply negb_true_iff in Hd.
    rewrite (chr_eqb_sym _ d). unfold space in Hd. rewrite Hd.
    now rewrite !andb_false_r.
Qed.

(** ** The round trip of the checkboxes *)

Definition trimmed (t : str) : bool := str_eqb (strip t) t.

(** An item whose text comes back from a body line as it went in. *)
Definition clean_item (it : item) : bool :=
  nonempty (text it) && trimmed (text it) && forallb not_nl (text it)
  && free_of checkbox_markers (text it).

(** The texts of the items whose state is [want], in order. *)
Definition texts_where (want : bool) (items : list item) : list str :=
  map text (List.filter (fun it => Bool.eqb (checked it) want) items).

Definition story_items (story : UserStory.t) : list item :=
  UserStory.acceptance_criteria story ++ UserStory.tasks story.

(** The stories the round trip is stated for: the free-text sections hold no
    checkbox marker, and every item is clean. *)
Definition roundtrip_ready (story : UserStory.t) : bool :=
  free_of checkbox_markers (UserStory.user_story story)
  && free_of checkbox_markers (UserStory.implementation_details story)
  && free_of checkbox_markers (UserStory.notes story)
  && forallb clean_item (story_items story).

Lemma lstrip_length (s : str) : length (lstrip s) <= length s.
Proof.
  induction s as [|c s IH]; simpl; [lia|].
  destruct (is_space c); simpl; lia.
Qed.

Lemma rstrip_length (s : str) : length (rstrip s) <= length s.
Proof.
  unfold rstrip. rewrite length_rev.
  etransitivity; [apply lstrip_length|]. now rewrite length_rev.
Qed.

Lemma trimmed_stops (t : str) : trimmed t = true -> stops is_space t = true.
Proof.
  unfold trimmed. intros H%str_eqb_eq. destruct t as [|c t]; [reflexivity|].
  simpl. destruct (is_space c) eqn:E; [|reflexivity]. exfalso.
  assert (length (strip (c :: t)) <= length t) as Hlen.
  { unfold strip. etransitivity; [apply rstrip_length|].
    simpl. rewrite E. apply lstrip_length. }
  rewrite H in Hlen. simpl in Hlen. lia.
Qed.

Lemma clean_item_spec (it : item) :
  clean_item it = true ->
  line_text (text it) = true /\ strip (text it) = text it
  /\ free_of checkbox_markers (text it) = true.
Proof.
  unfold clean_item, line_text. intros H.
  apply andb_true_iff in H as [H H4]. apply andb_true_iff in H as [H H3].
  apply andb_true_iff in H as [H1 H2].
  rewrite H1, H3, (trimmed_stops _ H2). repeat split; [|exact H4].
  now apply str_eqb_eq.
Qed.

Lemma join_lines (lines : list str) :
  lines <> [] ->
  join [nl] lines ++ [nl] = concat (map (fun l => l ++ [nl]) lines).
Proof.
  induction lines as [|l lines IH]; [congruence|]. intros _.
  destruct lines as [|l' lines].
  - simpl. now rewrite app_nil_r.
  - rewrite join_cons by discriminate.
    change (concat (map (fun l => l ++ [nl]) (l :: l' :: lines)))
      with ((l ++ [nl]) ++ concat (map (fun l => l ++ [nl]) (l' :: lines))).
    rewrite <- IH by discriminate. now rewrite <- !app_assoc.
Qed.

Lemma section_block_lines (header : string) (lines : list str) :
  lines <> [] ->
  section_block true header lines
  = ((lit "## " ++ lit header) ++ [nl]) ++ [nl]
    ++ concat (map (fun l => l ++ [nl]) lines) ++ [nl].
Proof.
  intros H. unfold section_block. rewrite <- join_lines by exact H.
  now rewrite <- !app_assoc.
Qed.

Lemma yields_eq (r : re) (seg seg' : str) (l l' : list str) :
  yields r seg l -> seg = seg' -> l = l' -> yields r seg' l'.
Proof. now intros H <- <-. Qed.

Section RoundTrip.

Variable r : re.
Variable mks : list str.
Variable want : bool.
Hypothesis Hhead :
  forall prev pos s, marker_at mks s = false -> match_at r prev pos s = None.
Hypothesis Hmks : markers_ok mks = true.
Hypothesis Hsub :
  forall s, free_of checkbox_markers s = true -> free_of mks s = true.
Hypothesis Hline :
  forall t prev pos rest,
    line_text t = true ->
    exists m,
      match_at r prev pos (checkbox_line (Item t want) ++ nl :: rest) = Some m
      /\ group 1 m = t
      /\ m_len m = length (checkbox_line (Item t want)) + 1.
Hypothesis Hother :
  forall t, free_of mks t = true ->
            free_of mks (checkbox_line (Item t (negb want))) = true.
Hypothesis Hheader :
  forall header, In header ["User Story"; "Acceptance Criteria"; "Tasks";
                            "Implementation Details"; "Dependencies"; "Notes"]%string ->
                 free_of mks (lit "## " ++ lit header) = true.
Hypothesis Hfixed :
  forall s, free_of mks s = true ->
            free_of mks (lit "- #" ++ s) = true
            /\ free_of mks (lit "**Story Points:** " ++ s) = true.

Lemma yields_item (it : item) :
  clean_item it = true ->
  yields r (checkbox_line it ++ [nl]) (texts_where want [it]).
Proof using Hhead Hmks Hsub Hline Hother.
  intros (Hl & _ & Hfree)%clean_item_spec. destruct it as [t c].
  unfold texts_where. cbn [List.filter checked text map] in *.
  destruct (Bool.eqb c want) eqn:E.
  - apply eqb_prop in E. subst c. apply yields_hit.
    + now destruct (checkbox_line (Item t want) ++ [nl]) eqn:E; [destruct (checkbox_line _)|].
    + intros prev pos rest. rewrite <- app_assoc.
      destruct (Hline t prev pos rest Hl) as (m & Hm & Hg & Hlen).
      exists m. repeat split; try assumption.
      rewrite Hlen, length_app. reflexivity.
  - assert (c = negb want) as -> by (destruct c, want; simpl in *; congruence).
    apply (yields_line r mks Hhead Hmks). apply Hother, Hsub, Hfree.
Qed.

Lemma yields_items (items : list item) :
  forallb clean_item items = true ->
  yields r (concat (map (fun l => l ++ [nl]) (map checkbox_line items)))
         (texts_where want items).
Proof using Hhead Hmks Hsub Hline Hother.
  induction items as [|it items IH]; intros H; [apply yields_nil|].
  simpl in H. apply andb_true_iff in H as [Hit H].
  eapply yields_eq; [apply (yields_app r _ _ _ _ (yields_item it Hit) (IH H))|..].
  - reflexivity.
  - unfold texts_where. simpl. now destruct (Bool.eqb (checked it) want).
Qed.

(** A section that is present yields what its lines yield. *)
Lemma yields_block (present : bool) (header : string) (lines : list str)
    (l : list str) :
  free_of mks (lit "## " ++ lit header) = true ->
  (present = true -> lines <> []) ->
  (present = true -> yields r (concat (map (fun l => l ++ [nl]) lines)) l) ->
  yields r (section_block present header lines) (if present then l else []).
Proof using Hhead Hmks.
  intros Hh Hne Hy. destruct present; [|apply yields_nil].
  rewrite section_block_lines by now apply Hne.
  eapply yields_eq.
  - apply yields_app; [apply (yields_line r mks Hhead Hmks _ Hh)|].
    apply yields_app; [apply (yields_nl r mks Hhead Hmks)|].
    apply yields_app; [now apply Hy|apply (yields_nl r mks Hhead Hmks)].
  - reflexivity.
  - simpl. apply app_nil_r.
Qed.

Lemma yields_text_block (header : string) (txt : str) :
  free_of mks (lit "## " ++ lit header) = true ->
  free_of checkbox_markers txt = true ->
  yields r (section_block (nonempty txt) header [txt]) [].
Proof using Hhead Hmks Hsub.
  intros Hh Ht.
  eapply yields_eq;
    [apply (yields_block (nonempty txt) header [txt] [] Hh)|reflexivity|now destruct (nonempty txt)].
  - discriminate.
  - intros _. simpl. rewrite app_nil_r.
    apply (yields_line r mks Hhead Hmks). now apply Hsub.
Qed.

Lemma yields_item_block (header : string) (items : list item) :
  free_of mks (lit "## " ++ lit header) = true ->
  forallb clean_item items = true ->
  yields r (section_block (nonempty items) header (map checkbox_line items))
         (texts_where want items).
Proof using Hhead Hmks Hsub Hline Hother.
  intros Hh Hi.
  eapply yields_eq;
    [apply (yields_block (nonempty items) header (map checkbox_line items)
              (texts_where want items) Hh)
    |reflexivity|now destruct items].
  - now destruct items.
  - intros _. now apply yields_items.
Qed.

Lemma yields_deps (deps : list Z) :
  yields r (concat (map (fun l => l ++ [nl])
                        (map (fun dep => lit "- #" ++ str_of_int dep) deps))) [].
Proof using Hhead Hmks Hsub Hfixed.
  induction deps as [|d deps IH]; [apply yields_nil|].
  assert (yields r ((lit "- #" ++ str_of_int d) ++ [nl]) []) as Hd.
  { apply (yields_line r mks Hhead Hmks).
    apply Hfixed, Hsub, no_space_free, str_of_int_no_space. }
  exact (yields_app r _ _ [] [] Hd IH).
Qed.

Lemma yields_dep_block (deps : list Z) :
  free_of mks (lit "## " ++ lit "Dependencies") = true ->
  yields r (section_block (nonempty deps) "Dependencies"
              (map (fun dep => lit "- #" ++ str_of_int dep) deps)) [].
Proof using Hhead Hmks Hsub Hfixed.
  intros Hh.
  eapply yields_eq;
    [apply (yields_block (nonempty deps) "Dependencies"
              (map (fun dep => lit "- #" ++ str_of_int dep) deps) [] Hh)
    |reflexivity|now destruct (nonempty deps)].
  - now destruct deps.
  - intros _. apply yields_deps.
Qed.

Lemma texts_where_app (a b : list item) :
  texts_where want (a ++ b) = texts_where want a ++ texts_where want b.
Proof. unfold texts_where. now rewrite List.filter_app, map_app. Qed.

(** All the matches in a body, for a story that is ready. *)
Lemma caps_body (story : UserStory.t) :
  roundtrip_ready story = true ->
  caps r None 0 (body_by_sections story) = texts_where want (story_items story).
Proof using All.
  unfold roundtrip_ready, story_items. intros H.
  apply andb_true_iff in H as [H Hitems].
  apply andb_true_iff in H as [H Hnotes].
  apply andb_true_iff in H as [Hus Himpl].
  rewrite forallb_app in Hitems. apply andb_true_iff in Hitems as [Hac Htasks].
  unfold body_by_sections.
  assert (forall h, In h ["User Story"; "Acceptance Criteria"; "Tasks";
                          "Implementation Details"; "Dependencies"; "Notes"]%string ->
                    free_of mks (lit "## " ++ lit h) = true) as Hh by exact Hheader.
  pose proof (yields_text_block "User Story" _ (Hh "User Story"%string ltac:(simpl; tauto)) Hus) as Y1.
  pose proof (yields_item_block "Acceptance Criteria" _ (Hh "Acceptance Criteria"%string ltac:(simpl; tauto)) Hac) as Y2.
  pose proof (yields_item_block "Tasks" _ (Hh "Tasks"%string ltac:(simpl; tauto)) Htasks) as Y3.
  pose proof (yields_text_block "Implementation Details" _
                (Hh "Implementation Details"%string ltac:(simpl; tauto)) Himpl)
    as Y4.
  pose proof (yields_dep_block (UserStory.dependencies story)
                (Hh "Dependencies"%string ltac:(simpl; tauto))) as Y5.
  pose proof (yields_text_block "Notes" _ (Hh "Notes"%string ltac:(simpl; tauto)) Hnotes) as Y6.
  pose proof (yields_app r _ _ _ _ Y1
               (yields_app r _ _ _ _ Y2
                 (yields_app r _ _ _ _ Y3
                   (yields_app r _ _ _ _ Y4
                     (yields_app r _ _ _ _ Y5 Y6))))) as Y.
  destruct (Y None 0 (story_points_line story)) as (p' & n' & E).
  rewrite <- !app_assoc in E. rewrite E.
  rewrite (caps_end r mks Hhead Hmks).
  - cbn [app]. rewrite !app_nil_r. symmetry. apply texts_where_app.
  - apply Hfixed, Hsub, no_space_free, str_of_int_no_space.
Qed.

End RoundTrip.

Lemma free_of_app (a b : list str) (s : str) :
  free_of (a ++ b) s = true -> free_of a s = true /\ free_of b s = true.
Proof.
  unfold free_of. rewrite existsb_app, negb_orb. apply andb_true_iff.
Qed.

Lemma free_of_cons_intro (mks : list str) (c : ascii) (l : str) :
  marker_at mks (c :: l) = false -> free_of mks l = true ->
  free_of mks (c :: l) = true.
Proof.
  unfold free_of, marker_at. rewrite !negb_true_iff.
  induction mks as [|mk ms IH]; [reflexivity|].
  cbn [existsb contains]. rewrite !orb_false_iff.
  intros [H1 H2] [H3 H4]. auto.
Qed.

Lemma free_of_prefix (mks : list str) (p s : str) :
  (forall a b, p = a ++ b -> b <> [] -> marker_at mks (b ++ s) = false) ->
  free_of mks s = true -> free_of mks (p ++ s) = true.
Proof.
  intros H Hs. induction p as [|c p IH]; [exact Hs|].
  cbn [app]. apply free_of_cons_intro.
  - apply (H [] (c :: p)); [reflexivity|discriminate].
  - apply IH. intros a b -> Hb. apply (H (c :: a) b); [reflexivity|exact Hb].
Qed.

Ltac prefix_free :=
  apply free_of_prefix;
  [ intros a b E Hb;
    repeat (destruct a as [|? a];
            [ cbn [app] in E; subst b; reflexivity
            | cbn [app] in E; injection E as <- E ]);
    destruct a; [|discriminate E]; cbn [app] in E; subst b; congruence
  | assumption ].

Lemma checked_round_trip (story : UserStory.t) :
  roundtrip_ready story = true ->
  caps CHECKBOX_CHECKED_PATTERN None 0 (body_by_sections story)
  = texts_where true (story_items story).
Proof.
  apply (caps_body CHECKBOX_CHECKED_PATTERN checked_markers true).
  - intros prev pos s H. apply checked_match_head.
    unfold marker_at, checked_markers in H. cbn [existsb] in H.
    now rewrite orb_false_r in H.
  - reflexivity.
  - intros s H. now apply free_of_app in H.
  - intros t prev pos rest H. apply (checked_match_line prev pos t rest H).
  - intros t H. change (checkbox_line (Item t (negb true))) with (lit "- [ ] " ++ t).
    prefix_free.
  - intros h Hh. simpl in Hh.
    repeat (destruct Hh as [<-|Hh]; [reflexivity|]). destruct Hh.
  - intros s H. split; prefix_free.
Qed.

Lemma unchecked_round_trip (story : UserStory.t) :
  roundtrip_ready story = true ->
  caps CHECKBOX_UNCHECKED_PATTERN None 0 (body_by_sections story)
  = texts_where false (story_items story).
Proof.
  apply (caps_body CHECKBOX_UNCHECKED_PATTERN unchecked_markers false).
  - intros prev pos s H. apply unchecked_match_head.
    unfold marker_at, unchecked_markers in H. cbn [existsb] in H.
    now rewrite orb_false_r in H.
  - reflexivity.
  - intros s H. now apply free_of_app in H.
  - intros t prev pos rest H. apply (unchecked_match_line prev pos t rest H).
  - intros t H. change (checkbox_line (Item t (negb false))) with (lit "- [x] " ++ t).
    prefix_free.
  - intros h Hh. simpl in Hh.
    repeat (destruct Hh as [<-|Hh]; [reflexivity|]). destruct Hh.
  - intros s H. split; prefix_free.
Qed.

Lemma texts_where_trimmed (want : bool) (items : list item) :
  forallb clean_item items = true ->
  map strip (texts_where want items) = texts_where want items.
Proof.
  unfold texts_where. induction items as [|it items IH]; [reflexivity|].
  simpl. intros H. apply andb_true_iff in H as [Hit H].
  destruct (Bool.eqb (checked it) want); simpl; rewrite (IH H); [|reflexivity].
  apply clean_item_spec in Hit as (_ & -> & _). reflexivity.
Qed.

Definition checked_texts (story : UserStory.t) : gset str :=
  list_to_set (texts_where true (story_items story)).

Definition unchecked_texts (story : UserStory.t) : gset str :=
  list_to_set (texts_where false (story_items story)).

Lemma finditer_caps (r : re) (s : str) :
  map (fun m => strip (group 1 m)) (finditer r s) = map strip (caps r None 0 s).
Proof. unfold caps, finditer, pieces, hits. now rewrite map_map. Qed.

(** C1 (amended).  For a story whose free-text sections hold no checkbox
    marker and whose items have a text that is not empty, is trimmed, has no
    line break and holds no checkbox marker, the checked and unchecked texts
    extracted from the body built from the story are exactly the texts of its
    checked and of its unchecked acceptance criteria and tasks. *)
Theorem checkbox_round_trip (story : UserStory.t) :
  roundtrip_ready story = true ->
  issue_checked (build_issue_body story) = checked_texts story
  /\ issue_unchecked (build_issue_body story) = unchecked_texts story.
Proof.
  intros H. unfold issue_checked, issue_unchecked, checked_texts, unchecked_texts.
  rewrite !finditer_caps, build_issue_body_eq.
  rewrite (checked_round_trip story H), (unchecked_round_trip story H).
  assert (forallb clean_item (story_items story) = true) as Hc.
  { unfold roundtrip_ready in H. now apply andb_true_iff in H as [_ H]. }
  now rewrite !texts_where_trimmed.
Qed.

(** A text given by its lines. *)
Definition unlines (ls : list string) : str := join [nl] (map lit ls).

(** A story with two clean items. *)
Definition story_vpc : UserStory.t :=
  UserStory.Make (lit "US-001") (lit "Setup Infra") (lit "Draft") (lit "should")
    3 (lit "epic-1") (lit "epic-1-infrastructure")
    (lit "As an operator I want a VPC.")
    [Item (lit "Create VPC") true] [Item (lit "Write docs") false] [7%Z]
    (lit "See - [the wiki](https://example.org).") []
    (MkPath (lit "docs/epic-1/US-001-setup.md") (lit "US-001-setup") (lit "epic-1"))
    None.

Lemma checkbox_round_trip_witness :
  roundtrip_ready story_vpc = true
  /\ issue_checked (build_issue_body story_vpc) = checked_texts story_vpc
  /\ issue_unchecked (build_issue_body story_vpc) = unchecked_texts story_vpc.
Proof.
  split; [vm_compute; reflexivity|].
  apply (checkbox_round_trip story_vpc). vm_compute. reflexivity.
Defined.

(** A story whose "User Story" text is itself a checkbox line, as the parser
    reads it from a file. *)
Definition story_checkbox_in_text : UserStory.t :=
  UserStory.Make (lit "US-002") (lit "Notes") (lit "Draft") (lit "should")
    0 (lit "epic-1") (lit "epic-1-infrastructure")
    (lit "- [x] foo") [] [] [] [] []
    (MkPath (lit "docs/epic-1/US-002-notes.md") (lit "US-002-notes") (lit "epic-1"))
    None.

Example story_checkbox_in_text_parsed :
  parse_story_text
    (unlines ["# Notes"; ""; "## User Story"; ""; "- [x] foo"; ""])
    (MkPath (lit "docs/epic-1/US-002-notes.md") (lit "US-002-notes") (lit "epic-1"))
  = Ok (Some story_checkbox_in_text).
Proof. vm_compute. reflexivity. Qed.

(** C1 as stated fails: the body of a story without items can hold a checked
    text, taken from a free-text section. *)
Lemma checkbox_round_trip_counterexample :
  checked_texts story_checkbox_in_text = ∅
  /\ issue_checked (build_issue_body story_checkbox_in_text) = {[ lit "foo" ]}
  /\ issue_checked (build_issue_body story_checkbox_in_text)
     <> checked_texts story_checkbox_in_text.
Proof.
  assert (issue_checked (build_issue_body story_checkbox_in_text)
          = {[ lit "foo" ]}) as E by (vm_compute; reflexivity).
  split; [reflexivity|]. split; [exact E|].
  intros H. rewrite E in H.
  assert (lit "foo" ∈ checked_texts story_checkbox_in_text) as Hin
    by (rewrite <- H; now apply elem_of_singleton).
  now apply elem_of_empty in Hin.
Qed.

(** ** Checked wins over unchecked *)

(** An issue body that lists "a" both checked and unchecked. *)
Definition body_both_states : str := unlines ["- [x] a"; "- [ ] a"].

(** A local file with a checkbox that has no text, then the checkbox of "a". *)
Definition text_bare_then_a : str := unlines ["- [ ]"; "- [ ] a"].

(** The whole reconciliation on the line of "a" alone: checked wins. *)
Example sync_checkboxes_both_states :
  sync_checkboxes (lit "- [ ] a") body_both_states = lit "- [x] a".
Proof. vm_compute. reflexivity. Qed.

(** C9 fails on the code: "a" is a checked and an unchecked item of the
    issue, and the line "- [ ] a" of the local file is left unchecked when
    the line before it is a checkbox without text.  The match that starts on
    that line runs [\s+] over the line break and takes "- [ ] a" as its
    text, which is no item of the issue; the line of "a" is never looked at.
    With the two lines in the other order, the line of "a" is checked. *)
Lemma sync_checkboxes_precedence_lost :
  lit "a" ∈ issue_checked body_both_states
  /\ lit "a" ∈ issue_unchecked body_both_states
  /\ option_map (group 2) (re_search CHECKBOX_PATTERN text_bare_then_a)
     = Some (lit "- [ ] a")
  /\ sync_checkboxes text_bare_then_a body_both_states = text_bare_then_a
  /\ sync_checkboxes (unlines ["- [ ] a"; "- [ ]"]) body_both_states
     = unlines ["- [x] a"; "- [ ]"].
Proof.
  split; [apply (proj1 (bool_decide_eq_true _)); vm_compute; reflexivity|].
  split; [apply (proj1 (bool_decide_eq_true _)); vm_compute; reflexivity|].
  repeat split; vm_compute; reflexivity.
Qed.

(** ** The command runner *)

(** A failure the runner retries: a non-zero exit whose stderr is classified
    retryable, or a timeout. *)
Definition retryable_failure (o : outcome) : bool :=
  match o with
  | Exited returncode _ stderr =>
      negb (returncode =? 0)%Z && is_retryable_error stderr
  | TimeoutExpired => true
  | FileNotFoundError => false
  end.

(** What the runner returns for the outcome it stops at. *)
Definition reported (o : outcome) : Z * str * str :=
  match o with
  | Exited returncode stdout stderr => (returncode, stdout, stderr)
  | TimeoutExpired => (1%Z, [], lit "Command timed out")
  | FileNotFoundError => (1%Z, [], lit "gh command not found")
  end.

(** The outcome of the [i]-th subprocess from [w] on. *)
Definition nth_outcome (w : world) (i : nat) : outcome := procs w (spawned w + i).

(** The first [i] subprocesses from [w] on fail in a retryable way. *)
Definition all_retryable (w : world) (i : nat) : Prop :=
  forall j, j < i -> retryable_failure (nth_outcome w j) = true.

(** The subprocesses and sleeps of a trace. *)
Definition effects (t : list event) : list event :=
  List.filter (fun e => match e with Log _ _ => false | _ => true end) t.

(** [i] failed attempts from the attempt [a] on, each followed by its sleep. *)
Fixpoint backoff (cmd : list str) (a i : nat) : list event :=
  match i with
  | 0 => []
  | S i' => Spawn cmd :: Sleep (RETRY_BASE_DELAY ^ a) :: backoff cmd (S a) i'
  end.

Definition result_of {A} (m : M A) (w : world) : result A := fst (m w).
Definition world_after {A} (m : M A) (w : world) : world := snd (m w).

Ltac run_M :=
  unfold mbind, M_bind, bind, mret, M_ret, ret, subprocess_run, log, sleep, emit,
    raise, lift in *; cbn [fst snd procs spawned files trace] in *.

Lemma effects_app (a b : list event) : effects (a ++ b) = effects a ++ effects b.
Proof. apply List.filter_app. Qed.

Lemma all_retryable_shift (w w1 : world) (i : nat) :
  procs w1 = procs w -> spawned w1 = S (spawned w) ->
  all_retryable w (S i) -> all_retryable w1 i.
Proof.
  intros Hp Hs H j Hj. unfold nth_outcome. rewrite Hp, Hs.
  specialize (H (S j) ltac:(lia)). unfold nth_outcome in H.
  now replace (S (spawned w) + j) with (spawned w + S j) by lia.
Qed.

Lemma seq_attempts (a retries : nat) :
  a < retries -> seq a (retries - a) = a :: seq (S a) (retries - S a).
Proof.
  intros H. replace (retries - a) with (S (retries - S a)) by lia. reflexivity.
Qed.

(** The attempts that fail and are retried. *)
Lemma gh_attempts_retried (args : list str) (retries : nat) :
  forall i a last_error w,
    a + i < retries -> all_retryable w i ->
    exists last_error' w',
      gh_attempts args retries (seq a (retries - a)) last_error w
      = gh_attempts args retries (seq (a + i) (retries - (a + i))) last_error' w'
      /\ procs w' = procs w /\ spawned w' = spawned w + i
      /\ files w' = files w
      /\ effects (trace w')
         = effects (trace w) ++ backoff (lit "gh" :: args) a i.
Proof.
  induction i as [|i IH]; intros a le w Ha Hall.
  - exists le, w. rewrite !Nat.add_0_r, app_nil_r. auto.
  - rewrite (seq_attempts a retries) by lia. cbn [gh_attempts].
    pose proof (Hall 0 ltac:(lia)) as H0. unfold nth_outcome in H0.
    rewrite Nat.add_0_r in H0.
    assert (Nat.eqb a (retries - 1) = false) as Hlast by (apply Nat.eqb_neq; lia).
    run_M. destruct (procs w (spawned w)) as [rc out err| |] eqn:Ho;
      cbn [retryable_failure] in H0; [| |discriminate].
    + apply andb_true_iff in H0 as [Hrc Hre]. apply negb_true_iff in Hrc.
      rewrite Hrc, Hre, Hlast. cbn [negb]. run_M.
      match goal with
      | |- context [gh_attempts _ _ _ ?e ?w1] =>
          destruct (IH (S a) e w1 ltac:(lia)
                      (all_retryable_shift w w1 i eq_refl eq_refl Hall))
            as (le' & w' & E & Hp & Hs & Hf & Ht)
      end.
      exists le', w'. rewrite E. replace (S a + i) with (a + S i) by lia.
      cbn [procs spawned files trace] in *. repeat split; try assumption; [lia|].
      rewrite Ht, !effects_app, <- !app_assoc. reflexivity.
    + rewrite Hlast. run_M.
      match goal with
      | |- context [gh_attempts _ _ _ ?e ?w1] =>
          destruct (IH (S a) e w1 ltac:(lia)
                      (all_retryable_shift w w1 i eq_refl eq_refl Hall))
            as (le' & w' & E & Hp & Hs & Hf & Ht)
      end.
      exists le', w'. rewrite E. replace (S a + i) with (a + S i) by lia.
      cbn [procs spawned files trace] in *. repeat split; try assumption; [lia|].
      rewrite Ht, !effects_app, <- !app_assoc. reflexivity.
Qed.

Definition spawns (evs : list event) : nat :=
  length (List.filter (fun e => match e with Spawn _ => true | _ => false end) evs).

Lemma spawns_app (a b : list event) : spawns (a ++ b) = spawns a + spawns b.
Proof. unfold spawns. now rewrite List.filter_app, length_app. Qed.

(** What any run of the loop leaves: it only adds events, one [Spawn] per
    subprocess, at most one per attempt, and it returns. *)
Lemma world_eq (w : world) (n : nat) (evs : list event) p s f t :
  p = procs w -> s = spawned w + n -> f = files w -> t = trace w ++ evs ->
  MkWorld p s f t = MkWorld (procs w) (spawned w + n) (files w) (trace w ++ evs).
Proof. now intros -> -> -> ->. Qed.

(** What any run of the loop leaves: it only adds events, one [Spawn] per
    subprocess, at most one per attempt, and it returns. *)
Lemma gh_attempts_frame (args : list str) (retries : nat) :
  forall attempts last_error w,
    exists v evs,
      gh_attempts args retries attempts last_error w
      = (Ok v, MkWorld (procs w) (spawned w + spawns evs) (files w)
                       (trace w ++ evs))
      /\ spawns evs <= length attempts
      /\ (attempts <> [] -> exists more, evs = Spawn (lit "gh" :: args) :: more).
Proof.
  induction attempts as [|a rest IH]; intros le w.
  - exists (1%Z, [], le), []. cbn [gh_attempts]. run_M.
    rewrite app_nil_r, Nat.add_0_r. destruct w. cbn. repeat split; [lia|congruence].
  - cbn [gh_attempts]. run_M.
    destruct (procs w (spawned w)) as [rc out err| |] eqn:Ho;
      [destruct (rc =? 0)%Z eqn:Hrc;
        [|destruct (is_retryable_error err) eqn:Hre; cbn [negb];
          [destruct (Nat.eqb a (retries - 1)) eqn:Hlast|]]
      |destruct (Nat.eqb a (retries - 1)) eqn:Hlast|]; run_M;
      try match goal with
        | |- context [gh_attempts _ _ _ ?e ?w1] =>
            destruct (IH e w1) as (v & evs & E & Hn & _); rewrite E;
            cbn [procs spawned files trace]
        end.
    all: eexists _, _; split;
      [ f_equal; apply world_eq;
        [ reflexivity | | reflexivity | rewrite <- ?app_assoc; reflexivity ]
      | ].
    all: try (split; [|intros _; now eexists]).
    all: unfold spawns in *; cbn; lia.
Qed.

(** The attempt [a] ends the loop on the outcome [o]. *)
Definition stops_at (retries a : nat) (o : outcome) : bool :=
  match o with
  | Exited returncode _ stderr =>
      (returncode =? 0)%Z || negb (is_retryable_error stderr)
      || Nat.eqb a (retries - 1)
  | TimeoutExpired => Nat.eqb a (retries - 1)
  | FileNotFoundError => true
  end.

Lemma gh_attempts_stop (args : list str) (retries a : nat) (rest : list nat)
    (last_error : str) (w : world) :
  stops_at retries a (procs w (spawned w)) = true ->
  result_of (gh_attempts args retries (a :: rest) last_error) w
  = Ok (reported (procs w (spawned w)))
  /\ spawned (world_after (gh_attempts args retries (a :: rest) last_error) w)
     = S (spawned w).
Proof.
  unfold result_of, world_after. cbn [gh_attempts]. run_M.
  destruct (procs w (spawned w)) as [rc out err| |]; cbn [stops_at reported].
  - destruct (rc =? 0)%Z; [now intros _|].
    destruct (is_retryable_error err); cbn [negb orb]; [|now intros _].
    now intros ->.
  - now intros ->.
  - now intros _.
Qed.

Lemma run_gh_command_n_reaches (args : list str) (retries i : nat) (w : world) :
  i < retries -> all_retryable w i ->
  exists last_error w1,
    run_gh_command_n args retries w
    = gh_attempts args retries (i :: seq (S i) (retries - S i)) last_error w1
    /\ procs w1 = procs w /\ spawned w1 = spawned w + i
    /\ effects (trace w1) = effects (trace w) ++ backoff (lit "gh" :: args) 0 i.
Proof.
  intros Hi Hall.
  destruct (gh_attempts_retried args retries i 0 [] w ltac:(lia) Hall)
    as (le & w1 & E & Hp & Hs & _ & Ht).
  exists le, w1. unfold run_gh_command_n.
  rewrite Nat.sub_0_r in E. rewrite E. cbn [Nat.add].
  now rewrite (seq_attempts i retries Hi).
Qed.

Lemma run_gh_command_n_stops (args : list str) (retries i : nat) (w : world) :
  i < retries -> all_retryable w i ->
  stops_at retries i (nth_outcome w i) = true ->
  result_of (run_gh_command_n args retries) w = Ok (reported (nth_outcome w i))
  /\ spawned (world_after (run_gh_command_n args retries) w) = spawned w + S i.
Proof.
  intros Hi Hall Hstop.
  destruct (run_gh_command_n_reaches args retries i w Hi Hall)
    as (le & w1 & E & Hp & Hs & _).
  unfold result_of, world_after, nth_outcome in *. rewrite E.
  rewrite <- Hp, <- Hs in Hstop |- *.
  destruct (gh_attempts_stop args retries i (seq (S i) (retries - S i)) le w1
              Hstop) as [H1 H2].
  unfold result_of, world_after in *. rewrite H1, H2. split; [reflexivity|lia].
Qed.

(** C4.  The runner starts at most [retries] subprocesses; a zero exit is
    returned at once; a retryable failure of an attempt that is not the last
    is followed by a sleep of [RETRY_BASE_DELAY ^ attempt] seconds and then by
    the next attempt; when every attempt failed in a retryable way the failure
    of the last attempt is returned; a missing executable is returned at once
    as a failure that is not retryable. *)
Theorem run_gh_command_contract (args : list str) (retries : nat) (w : world) :
  let cmd := lit "gh" :: args in
  let res := result_of (run_gh_command_n args retries) w in
  let w' := world_after (run_gh_command_n args retries) w in
  (spawned w' <= spawned w + retries
   /\ exists evs, trace w' = trace w ++ evs
                  /\ spawns evs = spawned w' - spawned w)
  /\ (forall i stdout stderr,
        i < retries -> all_retryable w i ->
        nth_outcome w i = Exited 0 stdout stderr ->
        res = Ok (0%Z, stdout, stderr) /\ spawned w' = spawned w + S i)
  /\ (forall i,
        S i < retries -> all_retryable w (S i) ->
        exists later,
          effects (trace w')
          = effects (trace w) ++ backoff cmd 0 (S i) ++ Spawn cmd :: later)
  /\ (0 < retries -> all_retryable w retries ->
      res = Ok (reported (nth_outcome w (retries - 1)))
      /\ spawned w' = spawned w + retries)
  /\ (forall i,
        i < retries -> all_retryable w i ->
        nth_outcome w i = FileNotFoundError ->
        res = Ok (1%Z, [], lit "gh command not found")
        /\ spawned w' = spawned w + S i
        /\ is_retryable_error (lit "gh command not found") = false).
Proof.
  intros cmd res w'. subst cmd res w'.
  split; [|split; [|split; [|split]]].
  - unfold world_after, run_gh_command_n.
    destruct (gh_attempts_frame args retries (seq 0 retries) [] w)
      as (v & evs & E & Hn & _).
    rewrite E. cbn [snd spawned trace]. rewrite length_seq in Hn.
    split; [lia|]. exists evs. split; [reflexivity|lia].
  - intros i out err Hi Hall Ho.
    destruct (run_gh_command_n_stops args retries i w Hi Hall) as [H1 H2].
    + now rewrite Ho.
    + now rewrite Ho in H1.
  - intros i Hi Hall.
    destruct (run_gh_command_n_reaches args retries (S i) w Hi Hall)
      as (le & w1 & E & Hp & Hs & Ht).
    destruct (gh_attempts_frame args retries
                (S i :: seq (S (S i)) (retries - S (S i))) le w1)
      as (v & evs & E' & _ & Hev).
    destruct (Hev ltac:(discriminate)) as (more & ->).
    exists (effects more). unfold world_after. rewrite E, E'. cbn [snd trace].
    rewrite effects_app, Ht, <- app_assoc. reflexivity.
  - intros Hpos Hall.
    assert (retries - 1 < retries) as Hlt by lia.
    assert (all_retryable w (retries - 1)) as Hall'
      by (intros j Hj; apply Hall; lia).
    replace (spawned w + retries) with (spawned w + S (retries - 1)) by lia.
    apply (run_gh_command_n_stops args retries (retries - 1) w Hlt Hall').
    specialize (Hall (retries - 1) Hlt).
    destruct (nth_outcome w (retries - 1)); cbn in *;
      rewrite ?Nat.eqb_refl, ?orb_true_r; congruence.
  - intros i Hi Hall Ho.
    destruct (run_gh_command_n_stops args retries i w Hi Hall) as [H1 H2].
    + now rewrite Ho.
    + rewrite Ho in H1. repeat split; [exact H1|exact H2].
Qed.

(** A world in which gh is rate limited, then times out, then succeeds. *)
Definition world_flaky_gh : world :=
  MkWorld (fun n => match n with
                    | 0 => Exited 1 [] (lit "API rate limit exceeded")
                    | 1 => TimeoutExpired
                    | _ => Exited 0 (lit "ok") []
                    end)
          0 ∅ [].

Lemma run_gh_command_contract_witness :
  all_retryable world_flaky_gh 2
  /\ nth_outcome world_flaky_gh 2 = Exited 0 (lit "ok") []
  /\ result_of (run_gh_command_n [lit "issue"; lit "list"] 3) world_flaky_gh
     = Ok (0%Z, lit "ok", [])
  /\ spawned (world_after (run_gh_command_n [lit "issue"; lit "list"] 3)
                          world_flaky_gh) = 3.
Proof.
  assert (all_retryable world_flaky_gh 2) as Hall.
  { intros j Hj. destruct j as [|[|j]]; [reflexivity|reflexivity|lia]. }
  split; [exact Hall|]. split; [reflexivity|].
  destruct (run_gh_command_contract [lit "issue"; lit "list"] 3 world_flaky_gh)
    as (_ & Hok & _).
  apply (Hok 2 (lit "ok") []); [lia|exact Hall|reflexivity].
Defined.

(** The events of that run. *)
Example run_gh_command_flaky_trace :
  effects (trace (world_after (run_gh_command_n [lit "issue"; lit "list"] 3)
                              world_flaky_gh))
  = [Spawn [lit "gh"; lit "issue"; lit "list"]; Sleep 1;
     Spawn [lit "gh"; lit "issue"; lit "list"]; Sleep 2;
     Spawn [lit "gh"; lit "issue"; lit "list"]].
Proof. vm_compute. reflexivity. Qed.

(** ** The run-level result *)

(** An operation carried out on every element in turn, whatever it returned
    for the earlier ones; the run stops only on an exception. *)
Fixpoint for_each {A B} (f : A -> M B) (l : list A) : M (list B) :=
  match l with
  | [] => ret []
  | a :: t => b ← f a; bs ← for_each f t; ret (b :: bs)
  end.

Lemma push_loop_for_each (owner repo : str) (existing : gmap str issue_json)
    (dry_run : bool) (stories : list UserStory.t) :
  forall success w,
    push_loop owner repo existing dry_run stories success w
    = (oks ← for_each (push_story owner repo existing dry_run) stories;
       ret (success && forallb id oks)) w.
Proof.
  induction stories as [|s stories IH]; intros success w.
  - cbn [push_loop for_each]. run_M. now rewrite andb_true_r.
  - cbn [push_loop for_each]. run_M.
    destruct (push_story owner repo existing dry_run s w) as [[ok|e] w1];
      [|reflexivity].
    rewrite IH. run_M.
    destruct (for_each (push_story owner repo existing dry_run) stories w1)
      as [[oks|e] w2]; [|reflexivity].
    cbn [forallb id]. now destruct ok, success.
Qed.

Lemma pull_loop_for_each (existing : gmap str issue_json) (dry_run : bool)
    (stories : list UserStory.t) :
  forall w,
    pull_loop existing dry_run stories w
    = (for_each (pull_story existing dry_run) stories ;; ret tt) w.
Proof.
  induction stories as [|s stories IH]; intros w.
  - reflexivity.
  - cbn [pull_loop for_each]. run_M.
    destruct (pull_story existing dry_run s w) as [[[]|e] w1]; [|reflexivity].
    rewrite IH. run_M.
    now destruct (for_each (pull_story existing dry_run) stories w1) as [[us|e] w2].
Qed.

Lemma for_each_length {A B} (f : A -> M B) (l : list A) :
  forall w bs w', for_each f l w = (Ok bs, w') -> length bs = length l.
Proof.
  induction l as [|a l IH]; intros w bs w' H.
  - cbn in H. run_M. now injection H as <- _.
  - cbn [for_each] in H. run_M.
    destruct (f a w) as [[b|e] w1]; [|discriminate].
    destruct (for_each f l w1) as [[bs'|e] w2] eqn:E; [|discriminate].
    injection H as <- _. simpl. f_equal. apply (IH _ _ _ E).
Qed.

Lemma forallb_id_false (oks : list bool) :
  forallb id oks = false <-> In false oks.
Proof.
  induction oks as [|[] oks IH]; simpl.
  - split; [discriminate|tauto].
  - rewrite IH. split; [tauto|]. now intros [|].
  - split; [tauto|reflexivity].
Qed.

(** The stories the loop "Sync to GitHub" goes through, and those the loop
    "Sync from GitHub" goes through. *)
Definition pushed (direction : str) (stories : list UserStory.t)
    : list UserStory.t :=
  if direction_in direction ["both"; "to-github"]%string then stories else [].

Definition pulled (direction : str) (stories : list UserStory.t)
    : list UserStory.t :=
  if direction_in direction ["both"; "from-github"]%string then stories else [].

Lemma sync_stories_stages (json_loads : str -> option json)
    (story_files : list Path) (direction : str) (dry_run : bool) (w : world)
    (owner repo : str) (stories : list UserStory.t)
    (existing : gmap str issue_json) (oks : list bool) (us : list unit)
    (w1 w2 w3 w4 w5 : world) :
  get_repo_info w = (Ok (owner, repo), w1) ->
  parse_all story_files w1 = (Ok stories, w2) ->
  stories <> [] ->
  get_existing_issues json_loads owner repo w2 = (Ok existing, w3) ->
  for_each (push_story owner repo existing dry_run) (pushed direction stories) w3
  = (Ok oks, w4) ->
  for_each (pull_story existing dry_run) (pulled direction stories) w4
  = (Ok us, w5) ->
  sync_stories json_loads story_files direction dry_run w
  = (Ok (forallb id oks), w5).
Proof.
  intros Hrepo Hparse Hne Hex Hpush Hpull.
  unfold sync_stories, except_ValueError. run_M. rewrite Hrepo. run_M.
  rewrite Hparse. destruct stories as [|s stories]; [congruence|].
  cbn [nonempty negb]. rewrite Hex.
  unfold pushed, pulled in *.
  destruct (direction_in direction ["both"; "to-github"]%string).
  - rewrite push_loop_for_each. run_M. rewrite Hpush. cbn [andb].
    destruct (direction_in direction ["both"; "from-github"]%string).
    + rewrite pull_loop_for_each. run_M. now rewrite Hpull.
    + cbn in Hpull. run_M. now injection Hpull as _ <-.
  - cbn in Hpush. run_M. injection Hpush as <- <-. cbn [forallb].
    destruct (direction_in direction ["both"; "from-github"]%string).
    + rewrite pull_loop_for_each. run_M. now rewrite Hpull.
    + cbn in Hpull. run_M. now injection Hpull as _ <-.
Qed.

(** C5 (amended).  A run that cannot resolve the repository fails and a run
    that finds no story succeeds.  Otherwise the operation of every story is
    carried out, whatever the earlier ones returned, and the result of the
    run is failure exactly when one of the outbound operations (create or
    update) failed; what the inbound patches return does not enter the
    result. *)
Theorem sync_stories_result (json_loads : str -> option json)
    (story_files : list Path) (direction : str) (dry_run : bool) (w : world) :
  (forall w1,
      get_repo_info w = (Raise ValueError, w1) ->
      result_of (sync_stories json_loads story_files direction dry_run) w
      = Ok false)
  /\ (forall owner repo w1 w2,
         get_repo_info w = (Ok (owner, repo), w1) ->
         parse_all story_files w1 = (Ok [], w2) ->
         result_of (sync_stories json_loads story_files direction dry_run) w
         = Ok true)
  /\ (forall owner repo stories existing oks us w1 w2 w3 w4 w5,
         get_repo_info w = (Ok (owner, repo), w1) ->
         parse_all story_files w1 = (Ok stories, w2) ->
         stories <> [] ->
         get_existing_issues json_loads owner repo w2 = (Ok existing, w3) ->
         for_each (push_story owner repo existing dry_run)
                  (pushed direction stories) w3 = (Ok oks, w4) ->
         for_each (pull_story existing dry_run)
                  (pulled direction stories) w4 = (Ok us, w5) ->
         exists success,
           sync_stories json_loads story_files direction dry_run w
           = (Ok success, w5)
           /\ (success = false <-> In false oks)
           /\ length oks = length (pushed direction stories)
           /\ length us = length (pulled direction stories)).
Proof.
  split; [|split].
  - intros w1 Hrepo. unfold result_of, sync_stories, except_ValueError.
    run_M. rewrite Hrepo. now run_M.
  - intros owner repo w1 w2 Hrepo Hparse.
    unfold result_of, sync_stories, except_ValueError.
    run_M. rewrite Hrepo. run_M. rewrite Hparse. now run_M.
  - intros owner repo stories existing oks us w1 w2 w3 w4 w5
      Hrepo Hparse Hne Hex Hpush Hpull.
    exists (forallb id oks). split; [|split; [|split]].
    + now apply (sync_stories_stages json_loads story_files direction dry_run w
                   owner repo stories existing oks us w1 w2 w3 w4 w5).
    + apply forallb_id_false.
    + apply (for_each_length _ _ _ _ _ Hpush).
    + apply (for_each_length _ _ _ _ _ Hpull).
Qed.

(** *** A run on one story *)

Definition path_setup : Path :=
  MkPath (lit "docs/user-stories/epic-1/US-001-setup.md") (lit "US-001-setup")
         (lit "epic-1").

Definition text_setup : str :=
  unlines ["# Setup Infra"; ""; "**Status:** Draft"; "";
           "## Acceptance Criteria"; ""; "- [x] Create VPC"; ""].

Definition story_setup : UserStory.t :=
  UserStory.Make (lit "US-001") (lit "Setup Infra") (lit "Draft") (lit "should")
    0 (lit "epic-1") (lit "epic-1-infrastructure") []
    [Item (lit "Create VPC") true] [] [] [] [] path_setup None.

(** The issue of that story on GitHub: done, its criterion unchecked. *)
Definition issue_setup : issue_json :=
  MkIssue (Some 7%Z) (Some (lit "US-001: Setup Infra"))
          (Some [lit "user-story"; lit "done"]) (Some (lit "- [ ] Create VPC")).

(** A decoder for the one response of the example. *)
Definition json_of_example (_ : str) : option json :=
  Some (JList [JDict issue_setup]).

Definition git_remote : outcome :=
  Exited 0 (lit "git@github.com:koder-cat/k8s-ephemeral-environments.git" ++ [nl]) [].

(** git answers, gh lists the issue, the story file cannot be written. *)
Definition world_read_only : world :=
  MkWorld (fun n => match n with
                    | 0 => git_remote
                    | _ => Exited 0 (lit "[issue 7]") []
                    end)
          0 {[ path_str path_setup := MkFile (Some text_setup) false ]} [].

Definition run_read_only : M bool :=
  sync_stories json_of_example [path_setup] (lit "from-github") false.

(** C5 as stated fails: the inbound patch of the story fails (the file needs
    a change and cannot be written, an error is logged, the file is left as
    it was) and the run still succeeds. *)
Lemma sync_stories_result_counterexample :
  patched_text text_setup issue_setup <> text_setup
  /\ result_of run_read_only world_read_only = Ok true
  /\ In (Log ERROR (lit "Error writing"))
        (trace (world_after run_read_only world_read_only))
  /\ files (world_after run_read_only world_read_only) !! path_str path_setup
     = Some (MkFile (Some text_setup) false).
Proof.
  split; [|split; [|split]].
  - intros H. apply (f_equal (@length ascii)) in H. vm_compute in H. discriminate.
  - vm_compute. reflexivity.
  - vm_compute. tauto.
  - vm_compute. reflexivity.
Qed.

(** git answers, gh lists the issue, the edit of the issue is refused with a
    404; the story file can be written. *)
Definition world_edit_refused : world :=
  MkWorld (fun n => match n with
                    | 0 => git_remote
                    | 1 => Exited 0 (lit "[issue 7]") []
                    | _ => Exited 1 [] (lit "HTTP 404: Not Found")
                    end)
          0 {[ path_str path_setup := MkFile (Some text_setup) true ]} [].

Definition run_edit_refused : M bool :=
  sync_stories json_of_example [path_setup] (lit "both") false.

Lemma sync_stories_result_witness :
  result_of run_edit_refused world_edit_refused = Ok false
  /\ In (Wrote (path_str path_setup) (patched_text text_setup issue_setup))
        (trace (world_after run_edit_refused world_edit_refused)).
Proof.
  set (owner := lit "koder-cat").
  set (repo := lit "k8s-ephemeral-environments").
  set (existing := ({[ lit "US-001" := issue_setup ]} : gmap str issue_json)).
  set (w1 := world_after get_repo_info world_edit_refused).
  set (w2 := world_after (parse_all [path_setup]) w1).
  set (w3 := world_after (get_existing_issues json_of_example owner repo) w2).
  set (w4 := world_after (for_each (push_story owner repo existing false)
                                   [story_setup]) w3).
  set (w5 := world_after (for_each (pull_story existing false) [story_setup]) w4).
  destruct (sync_stories_result json_of_example [path_setup] (lit "both") false
              world_edit_refused) as (_ & _ & H).
  destruct (H owner repo [story_setup] existing [false] [tt] w1 w2 w3 w4 w5)
    as (success & E & Hiff & _); try (vm_compute; reflexivity); [discriminate|].
  assert (success = false) as -> by (apply Hiff; simpl; tauto).
  unfold run_edit_refused, result_of, world_after. rewrite E. cbn [fst snd].
  split; [reflexivity|]. vm_compute. tauto.
Defined.

(** ** Reconciliation and line breaks *)

(** C2 fails on the code: [\s+] runs over the line break after a checkbox
    that has no text, so the match of the first line takes the second line as
    its text, and the second line, whose text is a checked item of the
    issue, is left unchecked.  With the two lines in the other order it is
    checked. *)
Lemma sync_checkboxes_line_swallowed :
  issue_checked (lit "- [x] foo") = {[ lit "foo" ]}
  /\ sync_checkboxes (unlines ["- [ ] "; "- [ ] foo"]) (lit "- [x] foo")
     = unlines ["- [ ] "; "- [ ] foo"]
  /\ sync_checkboxes (unlines ["- [ ] foo"; "- [ ] "]) (lit "- [x] foo")
     = unlines ["- [x] foo"; "- [ ] "].
Proof. repeat split; vm_compute; reflexivity. Qed.

(** The match that does it. *)
Example checkbox_match_over_lines :
  option_map (group 2)
    (re_search CHECKBOX_PATTERN (unlines ["- [ ] "; "- [ ] foo"]))
  = Some (lit "- [ ] foo").
Proof. vm_compute. reflexivity. Qed.

(** ** Parsing and long numbers *)

(** A file whose story points have 4301 digits. *)
Definition text_long_points : str :=
  lit "**Story Points:** " ++ repeat "1"%char 4301.

(** C8 fails on the code: [int()] refuses the digits with [ValueError], which
    nothing in [parse_user_story] catches. *)
Lemma parse_story_text_raises :
  re_match story_id_pattern (stem path_setup) <> None
  /\ parse_story_text text_long_points path_setup = Raise ValueError.
Proof. split; [discriminate|]. vm_compute. reflexivity. Qed.

(** With one digit less the story is parsed. *)
Example parse_story_text_4300_digits :
  exists story,
    parse_story_text (lit "**Story Points:** " ++ repeat "1"%char 4300) path_setup
    = Ok (Some story).
Proof. eexists. vm_compute. reflexivity. Qed.

(** ** What a capture of a repeated class holds *)

Lemma ms_after_here (st : mstate) (l : str) :
  ms_rest st = l -> ms_after [] l st = st.
Proof. intros <-. apply ms_after_nil. Qed.

Lemma rep_greedy_inv (p : ascii -> bool) (lo : nat)
    (k : mstate -> option mstate) (x : mstate) :
  forall l cnt st,
    ms_rest st = l ->
    rep_greedy p lo k cnt l st = Some x ->
    exists u r, l = u ++ r /\ forallb p u = true /\ lo <= cnt + length u
                /\ k (ms_after u r st) = Some x.
Proof.
  induction l as [|c t IH]; intros cnt st Hst H.
  - cbn [rep_greedy] in H. destruct (lo <=? cnt) eqn:Hlo; [|discriminate].
    apply Nat.leb_le in Hlo. exists [], [].
    assert (ms_after [] [] st = st) as -> by now apply ms_after_here.
    repeat split; [simpl; lia|exact H].
  - cbn [rep_greedy] in H.
    assert ((if lo <=? cnt then k st else None) = Some x ->
            exists u r, c :: t = u ++ r /\ forallb p u = true
                        /\ lo <= cnt + length u /\ k (ms_after u r st) = Some x)
      as Hhere.
    { destruct (lo <=? cnt) eqn:Hlo; [|discriminate]. intros Hk.
      apply Nat.leb_le in Hlo. exists [], (c :: t).
      assert (ms_after [] (c :: t) st = st) as ->
        by now apply ms_after_here.
      repeat split; [simpl; lia|exact Hk]. }
    destruct (p c) eqn:Hp; [|now apply Hhere].
    destruct (rep_greedy p lo k (S cnt) t (ms_step c t st)) as [y|] eqn:E;
      [|now apply Hhere].
    injection H as ->.
    destruct (IH (S cnt) (ms_step c t st) eq_refl E) as (u & r & -> & Hu & Hlo & Hk).
    exists (c :: u), r. cbn [forallb length]. rewrite Hp, Hu.
    repeat split; [lia|exact Hk].
Qed.

Lemma rep_lazy_inv (p : ascii -> bool) (lo : nat)
    (k : mstate -> option mstate) (x : mstate) :
  forall l cnt st,
    ms_rest st = l ->
    rep_lazy p lo k cnt l st = Some x ->
    exists u r, l = u ++ r /\ forallb p u = true /\ lo <= cnt + length u
                /\ k (ms_after u r st) = Some x.
Proof.
  induction l as [|c t IH]; intros cnt st Hst H.
  - cbn [rep_lazy] in H. destruct (lo <=? cnt) eqn:Hlo.
    + apply Nat.leb_le in Hlo. destruct (k st) as [y|] eqn:Hk; [|discriminate].
      exists [], [].
      assert (ms_after [] [] st = st) as -> by now apply ms_after_here.
      repeat split; [simpl; lia|congruence].
    + discriminate.
  - cbn [rep_lazy] in H.
    destruct (if lo <=? cnt then k st else None) as [y|] eqn:Hhere.
    + destruct (lo <=? cnt) eqn:Hlo; [|discriminate]. apply Nat.leb_le in Hlo.
      exists [], (c :: t).
      assert (ms_after [] (c :: t) st = st) as ->
        by now apply ms_after_here.
      repeat split; [simpl; lia|congruence].
    + destruct (p c) eqn:Hp; [|discriminate].
      destruct (IH (S cnt) (ms_step c t st) eq_refl H)
        as (u & r & -> & Hu & Hlo & Hk).
      exists (c :: u), r. cbn [forallb length]. rewrite Hp, Hu.
      repeat split; [lia|exact Hk].
Qed.

(** A match goes through its continuation. *)
Lemma exec_continues (r : re) :
  forall st k x, exec r st k = Some x -> exists st1, k st1 = Some x.
Proof.
  induction r as [|p|a IHa b IHb|a IHa b IHb|p lo g|n a IHa|a IHa| | | | |];
    intros st k x H; cbn [exec] in H.
  - now exists st.
  - destruct (ms_rest st) as [|c t]; [discriminate|].
    destruct (p c); [|discriminate]. eexists; eassumption.
  - apply IHa in H as (st1 & H). now apply IHb in H.
  - destruct (exec a st k) as [y|] eqn:E.
    + injection H as ->. now apply IHa in E.
    + now apply IHb in H.
  - destruct g.
    + apply (rep_greedy_inv p lo k x _ 0 st eq_refl) in H as (u & r & _ & _ & _ & H).
      eexists; eassumption.
    + apply (rep_lazy_inv p lo k x _ 0 st eq_refl) in H as (u & r & _ & _ & _ & H).
      eexists; eassumption.
  - apply IHa in H as (st1 & H). eexists; eassumption.
  - destruct (exec a st Some); [|discriminate]. now exists st.
  - destruct (Nat.eqb (ms_pos st) 0); [|discriminate]. now exists st.
  - destruct (at_bol st); [|discriminate]. now exists st.
  - destruct (at_eos st); [|discriminate]. now exists st.
  - destruct (at_eol st); [|discriminate]. now exists st.
  - destruct (at_end st); [|discriminate]. now exists st.
Qed.

Lemma seq_continues (a b : re) (st : mstate) (k : mstate -> option mstate)
    (x : mstate) :
  exec (Seq a b) st k = Some x -> exists st1, exec b st1 k = Some x.
Proof.
  change (exec (Seq a b) st k) with (exec a st (fun st' => exec b st' k)).
  intros H. now apply exec_continues in H.
Qed.

(** A pattern that ends with the group [(p{lo,})] captures characters of the
    class [p], at least [lo] of them. *)
Lemma final_group_capture (n lo : nat) (p : ascii -> bool) (g : bool)
    (st x : mstate) :
  exec (Grp n (Rep p lo g)) st Some = Some x ->
  exists u, assoc_nat n (ms_groups x) = Some u
            /\ forallb p u = true /\ lo <= length u.
Proof.
  cbn [exec]. intros H.
  assert (exists u r, ms_rest st = u ++ r /\ forallb p u = true
                      /\ lo <= 0 + length u
                      /\ Some (ms_capture n st (ms_after u r st)) = Some x)
    as (u & r & Hst & Hu & Hlo & Hx).
  { destruct g.
    - now apply (rep_greedy_inv p lo _ x _ 0 st eq_refl) in H.
    - now apply (rep_lazy_inv p lo _ x _ 0 st eq_refl) in H. }
  injection Hx as <-. exists u. unfold ms_capture. cbn [ms_groups assoc_nat].
  rewrite Nat.eqb_refl, ms_pos_after, Hst.
  replace (ms_pos st + length u - ms_pos st) with (length u) by lia.
  rewrite firstn_app, Nat.sub_diag, firstn_all. cbn [firstn].
  rewrite app_nil_r. auto.
Qed.

Definition digit_run (s : str) : Prop :=
  forallb is_digit s = true /\ 1 <= length s.

Lemma points_match_digits (prev : option ascii) (pos : nat) (s : str) (m : rmatch) :
  match_at points_pattern prev pos s = Some m -> digit_run (group 1 m).
Proof.
  unfold match_at. destruct (exec _ _ _) as [x|] eqn:E; [|discriminate].
  intros [= <-]. unfold points_pattern in E. cbn [Cat] in E.
  apply seq_continues in E as (st1 & E).
  apply seq_continues in E as (st2 & E).
  apply seq_continues in E as (st3 & E).
  apply (final_group_capture 1 1 is_digit true) in E as (u & Hg & Hu & Hlen).
  unfold group. cbn [m_groups]. rewrite Hg. now split.
Qed.

Lemma dep_match_digits (prev : option ascii) (pos : nat) (s : str) (m : rmatch) :
  match_at dep_pattern prev pos s = Some m -> digit_run (group 1 m).
Proof.
  unfold match_at. destruct (exec _ _ _) as [x|] eqn:E; [|discriminate].
  intros [= <-]. unfold dep_pattern in E.
  apply seq_continues in E as (st1 & E).
  apply (final_group_capture 1 1 is_digit true) in E as (u & Hg & Hu & Hlen).
  unfold group. cbn [m_groups]. rewrite Hg. now split.
Qed.

Lemma search_from_match (r : re) (s : str) :
  forall prev pos m,
    search_from r prev pos s = Some m ->
    exists prev' pos' s', match_at r prev' pos' s' = Some m.
Proof.
  induction s as [|c t IH]; intros prev pos m H; cbn [search_from] in H.
  - destruct (match_at r prev pos []) eqn:E; [|discriminate].
    injection H as ->. eexists _, _, _; eassumption.
  - destruct (match_at r prev pos (c :: t)) eqn:E.
    + injection H as ->. eexists _, _, _; eassumption.
    + now apply IH in H.
Qed.

Lemma scan_hit_match (r : re) (s : str) :
  forall prev pos skip m,
    In (Hit m) (scan r prev pos skip s) ->
    exists prev' pos' s', match_at r prev' pos' s' = Some m.
Proof.
  induction s as [|c t IH]; intros prev pos skip m H; cbn [scan] in H.
  - destruct skip; [|destruct H].
    destruct (match_at r prev pos []) eqn:E; [|destruct H].
    destruct H as [[= <-]|[]]. eexists _, _, _; eassumption.
  - destruct skip as [|n]; [|now apply IH in H].
    destruct (match_at r prev pos (c :: t)) as [m'|] eqn:E.
    + destruct H as [[= <-]|H]; [eexists _, _, _; eassumption|].
      apply in_app_or in H as [H|H]; [|now apply IH in H].
      destruct (Nat.eqb (m_len m') 0); [|destruct H].
      destruct H as [H|[]]. discriminate.
    + destruct H as [H|H]; [discriminate|now apply IH in H].
Qed.

Lemma finditer_match (r : re) (s : str) (m : rmatch) :
  In m (finditer r s) ->
  exists prev' pos' s', match_at r prev' pos' s' = Some m.
Proof.
  unfold finditer, pieces. intros H. apply in_flat_map in H as (p & Hp & H).
  destruct p as [c|m']; [destruct H|]. destruct H as [<-|[]].
  now apply scan_hit_match in Hp.
Qed.

Lemma py_int_digit_run (s : str) :
  digit_run s -> length s <= int_max_str_digits -> py_int s = Ok (digits_val s).
Proof.
  intros [Hd Hlen] Hmax. unfold py_int. rewrite Hd.
  apply Nat.leb_le in Hmax. rewrite Hmax.
  destruct s; [simpl in Hlen; lia|reflexivity].
Qed.

(** ** Parsing is total up to long numbers *)

(** The numbers of a file have at most as many digits as [int()] accepts. *)
Definition numbers_within_limit (content : str) : Prop :=
  (forall pm, re_search points_pattern content = Some pm ->
              length (group 1 pm) <= int_max_str_digits)
  /\ (forall dm d,
         re_search (section_pattern "Dependencies") content = Some dm ->
         In d (finditer dep_pattern (group 1 dm)) ->
         length (group 1 d) <= int_max_str_digits).

Lemma map_result_ok {A B} (f : A -> result B) (l : list A) :
  (forall a, In a l -> exists b, f a = Ok b) -> exists bs, map_result f l = Ok bs.
Proof.
  induction l as [|a l IH]; intros H; [now exists []|].
  destruct (H a (or_introl eq_refl)) as (b & Hb).
  destruct IH as (bs & Hbs); [intros a' Ha'; apply H; now right|].
  exists (b :: bs). cbn [map_result]. now rewrite Hb, Hbs.
Qed.

Lemma map_result_raises {A B} (f : A -> result B) (l : list A) (e : exn) :
  map_result f l = Raise e -> exists a, In a l /\ f a = Raise e.
Proof.
  induction l as [|a l IH]; [discriminate|]. cbn [map_result].
  destruct (f a) as [b|e'] eqn:E.
  - destruct (map_result f l) as [bs|e'']; [discriminate|].
    intros [= ->]. destruct (IH eq_refl) as (a' & Ha' & Hf).
    exists a'. split; [now right|exact Hf].
  - intros [= ->]. exists a. split; [now left|exact E].
Qed.

Lemma py_int_raises (s : str) (e : exn) : py_int s = Raise e -> e = ValueError.
Proof. unfold py_int. destruct (_ && _); [discriminate|congruence]. Qed.

Lemma points_value (content : str) :
  (forall pm, re_search points_pattern content = Some pm ->
              length (group 1 pm) <= int_max_str_digits) ->
  exists n,
    match re_search points_pattern content with
    | Some pm => py_int (group 1 pm)
    | None => Ok 0%Z
    end = Ok n
    /\ (re_search points_pattern content = None -> n = 0%Z).
Proof.
  intros H. destruct (re_search points_pattern content) as [pm|] eqn:E.
  - exists (digits_val (group 1 pm)). split; [|discriminate].
    apply py_int_digit_run; [|now apply H].
    unfold re_search in E. apply search_from_match in E as (p' & n' & s' & E).
    now apply points_match_digits in E.
  - now exists 0%Z.
Qed.

Lemma dependencies_value (content : str) :
  (forall dm d,
      re_search (section_pattern "Dependencies") content = Some dm ->
      In d (finditer dep_pattern (group 1 dm)) ->
      length (group 1 d) <= int_max_str_digits) ->
  exists deps,
    match re_search (section_pattern "Dependencies") content with
    | Some dm =>
        map_result (fun d => py_int (group 1 d)) (finditer dep_pattern (group 1 dm))
    | None => Ok []
    end = Ok deps
    /\ (re_search (section_pattern "Dependencies") content = None -> deps = []).
Proof.
  intros H. destruct (re_search (section_pattern "Dependencies") content)
    as [dm|] eqn:E.
  - destruct (map_result_ok (fun d => py_int (group 1 d))
                (finditer dep_pattern (group 1 dm))) as (deps & Hd).
    + intros d Hin. exists (digits_val (group 1 d)).
      apply py_int_digit_run; [|now apply (H dm)].
      apply finditer_match in Hin as (p' & n' & s' & Hm).
      now apply dep_match_digits in Hm.
    + exists deps. split; [exact Hd|discriminate].
  - now exists [].
Qed.

(** X1.  Parsing skips a file whose name does not start with a story id; it
    returns a story for every other file whose numbers [int()] accepts, each
    field whose pattern does not match taking its default; and the only
    exception it can raise is the [ValueError] of [int()]. *)
Theorem parse_story_text_total (content : str) (file_path : Path) :
  (re_match story_id_pattern (stem file_path) = None ->
   parse_story_text content file_path = Ok None)
  /\ (forall m,
         re_match story_id_pattern (stem file_path) = Some m ->
         numbers_within_limit content ->
         exists story,
           parse_story_text content file_path = Ok (Some story)
           /\ UserStory.id story = group 1 m
           /\ (re_search title_pattern content = None ->
               UserStory.title story = stem file_path)
           /\ (re_search status_pattern content = None ->
               UserStory.status story = lit "Draft")
           /\ (re_search priority_pattern content = None ->
               UserStory.priority story = lit "should")
           /\ (re_search points_pattern content = None ->
               UserStory.story_points story = 0%Z)
           /\ (re_search (section_pattern "User Story") content = None ->
               UserStory.user_story story = [])
           /\ (re_search (section_pattern "Acceptance Criteria") content = None ->
               UserStory.acceptance_criteria story = [])
           /\ (re_search (section_pattern "Tasks") content = None ->
               UserStory.tasks story = [])
           /\ (re_search (section_pattern "Dependencies") content = None ->
               UserStory.dependencies story = [])
           /\ (re_search (section_pattern "Notes") content = None ->
               UserStory.notes story = [])
           /\ (re_search (section_pattern "Implementation Details") content = None ->
               UserStory.implementation_details story = []))
  /\ (forall e, parse_story_text content file_path = Raise e -> e = ValueError).
Proof.
  split; [|split].
  - intros H. unfold parse_story_text. now rewrite H.
  - intros m Hm [Hpoints Hdeps]. unfold parse_story_text. rewrite Hm.
    destruct (points_value content Hpoints) as (n & -> & Hn).
    destruct (dependencies_value content Hdeps) as (deps & -> & Hd).
    eexists. split; [reflexivity|].
    cbn [UserStory.id UserStory.title UserStory.status UserStory.priority
         UserStory.story_points UserStory.user_story
         UserStory.acceptance_criteria UserStory.tasks UserStory.dependencies
         UserStory.notes UserStory.implementation_details].
    unfold text_section, parse_checkbox_section.
    repeat split; try assumption; try reflexivity;
      intros E; rewrite E; reflexivity.
  - intros e. unfold parse_story_text.
    destruct (re_match story_id_pattern (stem file_path)); [|discriminate].
    destruct (re_search points_pattern content) as [pm|].
    + destruct (py_int (group 1 pm)) as [n|e'] eqn:E.
      * destruct (re_search (section_pattern "Dependencies") content) as [dm|];
          [|discriminate].
        destruct (map_result _ _) as [deps|e'] eqn:E'; [discriminate|].
        intros [= ->]. apply map_result_raises in E' as (d & _ & E').
        now apply py_int_raises in E'.
      * intros [= ->]. now apply py_int_raises in E.
    + destruct (re_search (section_pattern "Dependencies") content) as [dm|];
        [|discriminate].
      destruct (map_result _ _) as [deps|e'] eqn:E'; [discriminate|].
      intros [= ->]. apply map_result_raises in E' as (d & _ & E').
      now apply py_int_raises in E'.
Qed.

Lemma parse_story_text_total_witness :
  numbers_within_limit text_setup
  /\ exists story, parse_story_text text_setup path_setup = Ok (Some story)
                   /\ UserStory.priority story = lit "should"
                   /\ UserStory.story_points story = 0%Z.
Proof.
  assert (numbers_within_limit text_setup) as Hnum.
  { split.
    - intros pm H. vm_compute in H. discriminate.
    - intros dm d H. vm_compute in H. discriminate. }
  split; [exact Hnum|].
  destruct (parse_story_text_total text_setup path_setup) as (_ & H & _).
  destruct (re_match story_id_pattern (stem path_setup)) as [m|] eqn:Hm;
    [|vm_compute in Hm; discriminate].
  destruct (H m eq_refl Hnum)
    as (story & E & _ & _ & _ & Hprio & Hpts & _).
  exists story. repeat split; [exact E|apply Hprio|apply Hpts];
    vm_compute; reflexivity.
Defined.


(** ** Reconciliation line by line *)

(** What follows the state character in [CHECKBOX_PATTERN]:
    [\s+(.+?)(?=\n|$)]. *)
Definition checkbox_rest : re :=
  Cat [Rep is_space 1 true; Grp 2 (Rep not_nl 1 false); Ahead nl_or_eos].

Lemma CHECKBOX_PATTERN_rest :
  CHECKBOX_PATTERN
  = Seq (Lit "- [") (Seq (Grp 1 (Chr not_nl)) (Seq (Lit "]") checkbox_rest)).
Proof. reflexivity. Qed.

(** The text ends here or goes on with a line break. *)
Definition line_end (tail : str) : bool :=
  match tail with [] => true | c :: _ => chr_eqb c nl end.

Lemma nl_or_eos_at_line_end (tail : str) (st : mstate) :
  ms_rest st = tail -> line_end tail = true ->
  exists st', exec nl_or_eos st Some = Some st'.
Proof.
  intros Hst Ht. unfold nl_or_eos. cbn [exec]. rewrite Hst.
  destruct tail as [|c tail].
  - unfold at_eos. rewrite Hst. now eexists.
  - simpl in Ht. rewrite chr_eqb_sym, Ht. now eexists.
Qed.

Lemma nl_or_eos_not_here (c : ascii) (t : str) (st : mstate)
    (k : mstate -> option mstate) :
  ms_rest st = c :: t -> not_nl c = true -> exec nl_or_eos st k = None.
Proof.
  intros Hst Hc. unfold nl_or_eos. cbn [exec]. rewrite Hst.
  rewrite (not_nl_false c Hc). unfold at_eos. rewrite Hst.
  unfold not_nl in Hc. apply negb_true_iff in Hc. rewrite Hc.
  now destruct t.
Qed.

Lemma checkbox_rest_line (ws t tail : str) (st : mstate) :
  ms_rest st = ws ++ t ++ tail ->
  ws <> [] -> forallb is_space ws = true ->
  line_text t = true -> line_end tail = true ->
  exists st',
    exec checkbox_rest st Some = Some st'
    /\ ms_pos st' = ms_pos st + length ws + length t
    /\ ms_groups st' = (2, t) :: ms_groups st.
Proof.
  intros Hst Hws Hsp (Hne & Hhd & Hline)%line_text_spec Hend.
  set (st1 := ms_after ws (t ++ tail) st).
  set (st2 := ms_capture 2 st1 (ms_after t tail st1)).
  assert (ms_rest st1 = t ++ tail) as Hst1 by apply ms_rest_after.
  exists st2. split; [|split].
  - unfold checkbox_rest. cbn [Cat exec]. rewrite Hst.
    apply (rep_greedy_longest is_space 1 _ _ (t ++ tail)).
    + destruct t; [congruence|exact Hhd].
    + exact Hst.
    + exact Hsp.
    + destruct ws; [congruence|simpl; lia].
    + fold st1. rewrite Hst1. apply rep_lazy_shortest.
      * exact Hst1.
      * exact Hline.
      * destruct t; [congruence|simpl; lia].
      * intros u1 u2 -> Hu2. destruct u2 as [|c u2]; [congruence|].
        rewrite forallb_app in Hline. apply andb_true_iff in Hline as [_ Hline].
        simpl in Hline. apply andb_true_iff in Hline as [Hc Hu].
        rewrite (nl_or_eos_not_here c (u2 ++ tail)); [reflexivity| |exact Hc].
        unfold ms_capture. cbn [ms_rest]. apply ms_rest_after.
      * fold st2.
        destruct (nl_or_eos_at_line_end tail st2) as (st' & ->); [|exact Hend|reflexivity].
        unfold st2, ms_capture. cbn [ms_rest]. apply ms_rest_after.
  - unfold st2, ms_capture. cbn [ms_pos]. rewrite ms_pos_after. unfold st1.
    rewrite ms_pos_after. lia.
  - unfold st2, ms_capture. cbn [ms_groups]. rewrite !ms_groups_after, ms_pos_after.
    rewrite Hst1. replace (ms_pos st1 + length t - ms_pos st1) with (length t) by lia.
    rewrite firstn_app, Nat.sub_diag, firstn_all. cbn [firstn]. rewrite app_nil_r.
    unfold st1. now rewrite ms_groups_after.
Qed.

(** [lstrip] cuts a text into its leading white space and the rest. *)
Lemma lstrip_span (w : str) :
  exists ws, w = ws ++ lstrip w /\ forallb is_space ws = true
             /\ stops is_space (lstrip w) = true.
Proof.
  induction w as [|c w (ws & E & Hws & Hst)].
  - now exists [].
  - cbn [lstrip]. destruct (is_space c) eqn:Hc.
    + exists (c :: ws). cbn [app forallb]. rewrite Hc, Hws. now rewrite <- E.
    + exists []. cbn [app forallb stops]. now rewrite Hc.
Qed.

Lemma forallb_lstrip (p : ascii -> bool) (w : str) :
  forallb p w = true -> forallb p (lstrip w) = true.
Proof.
  induction w as [|c w IH]; [easy|]. cbn [lstrip forallb].
  intros [Hc Hw]%andb_true_iff. destruct (is_space c); [now apply IH|].
  cbn [forallb]. now rewrite Hc, Hw.
Qed.

(** The checkbox that starts the text [s] of a line: its state character
    and its text. *)
Definition line_match (s : str) : option (ascii * str) :=
  match s with
  | a :: b :: c :: d :: e :: w =>
      if chr_eqb "-" a && chr_eqb " " b && chr_eqb "[" c && chr_eqb "]" e
         && negb (stops is_space w) && nonempty (lstrip w)
      then Some (d, lstrip w) else None
  | _ => None
  end.

(** A marker with nothing but white space up to the end of the line. *)
Definition dangling_here (s : str) : bool :=
  match s with
  | a :: b :: c :: d :: e :: w =>
      chr_eqb "-" a && chr_eqb " " b && chr_eqb "[" c && chr_eqb "]" e
      && forallb is_space w
  | _ => false
  end.

Fixpoint dangling (s : str) : bool :=
  match s with
  | [] => false
  | _ :: t => dangling_here s || dangling t
  end.

(** A line the reconciliation reads on its own: no line break in it, and no
    marker left dangling at its end. *)
Definition settled (l : str) : bool := forallb not_nl l && negb (dangling l).

Definition match_of_line (pos : nat) (s : str) (ct : ascii * str) : rmatch :=
  RMatch pos (pos + length s) s [(2, snd ct); (1, [fst ct])].

Lemma firstn_length_app {A} (s tail : list A) (n : nat) :
  firstn (n + length s - n) (s ++ tail) = s.
Proof.
  replace (n + length s - n) with (length s) by lia.
  rewrite firstn_app, Nat.sub_diag, firstn_all. cbn [firstn]. apply app_nil_r.
Qed.

Lemma RMatch_eq (p e1 e2 : nat) (w1 w2 : str) (g1 g2 : list (nat * str)) :
  e1 = e2 -> w1 = w2 -> g1 = g2 -> RMatch p e1 w1 g1 = RMatch p e2 w2 g2.
Proof. now intros -> -> ->. Qed.

(** One attempt of [CHECKBOX_PATTERN] inside a line. *)
Lemma checkbox_match_in_line (prev : option ascii) (pos : nat) (s tail : str) :
  forallb not_nl s = true -> dangling_here s = false -> line_end tail = true ->
  match_at CHECKBOX_PATTERN prev pos (s ++ tail)
  = option_map (match_of_line pos s) (line_match s).
Proof.
  intros Hnl Hd Hend. unfold match_at. rewrite CHECKBOX_PATTERN_rest.
  assert (forall c t, tail = c :: t -> c = nl) as Htail.
  { intros c t ->. simpl in Hend. now apply chr_eqb_eq in Hend. }
  destruct s as [|a [|b [|c [|d [|e w]]]]]; cbn [line_match option_map].
  6: { cbn [forallb] in Hnl.
       apply andb_true_iff in Hnl as [_ Hnl]. apply andb_true_iff in Hnl as [_ Hnl].
       apply andb_true_iff in Hnl as [_ Hnl]. apply andb_true_iff in Hnl as [Hdnl Hnl].
       apply andb_true_iff in Hnl as [_ Hw].
       cbn [dangling_here] in Hd.
       destruct (chr_eqb "-" a) eqn:Ea;
         [|cbn -[checkbox_rest chr_eqb]; now rewrite Ea].
       destruct (chr_eqb " " b) eqn:Eb;
         [|cbn -[checkbox_rest chr_eqb]; now rewrite Ea, Eb].
       destruct (chr_eqb "[" c) eqn:Ec;
         [|cbn -[checkbox_rest chr_eqb]; now rewrite Ea, Eb, Ec].
       destruct (chr_eqb "]" e) eqn:Ee;
         [|cbn -[checkbox_rest chr_eqb]; rewrite Ea, Eb, Ec, Hdnl; cbn -[checkbox_rest chr_eqb];
           now rewrite Ee].
       cbn [andb] in Hd |- *.
       cbn -[checkbox_rest chr_eqb]. rewrite Ea, Eb, Ec, Hdnl.
       cbn -[checkbox_rest chr_eqb]. rewrite Ee.
       destruct (lstrip_span w) as (ws & Ew & Hws & Hstop).
       destruct (stops is_space w) eqn:Hw0.
       - (* no white space after the bracket *)
         cbn [negb andb]. destruct w as [|c0 w].
         + discriminate Hd.
         + simpl in Hw0. apply negb_true_iff in Hw0.
           unfold checkbox_rest. cbn [Cat exec ms_rest ms_step app rep_greedy].
           now rewrite Hw0.
       - cbn [negb andb]. destruct (lstrip w) as [|c1 t] eqn:Et.
         + (* white space only: the marker would dangle *)
           rewrite app_nil_r in Ew. subst ws. rewrite Hws in Hd. discriminate.
         + cbn [nonempty option_map].
           assert (ws <> []) as Hne.
           { intros ->. cbn [app] in Ew. rewrite Ew in Hw0.
             now rewrite Hstop in Hw0. }
           assert (line_text (c1 :: t) = true) as Hlt.
           { unfold line_text. cbn [nonempty andb]. rewrite Hstop.
             rewrite <- Et. now rewrite (forallb_lstrip not_nl w Hw). }
           match goal with
           | |- context [exec checkbox_rest ?st Some] =>
               destruct (checkbox_rest_line ws (c1 :: t) tail st)
                 as (st' & -> & Hpos & Hg)
           end; try assumption.
           { cbn [ms_step ms_rest]. rewrite Ew at 1. now rewrite <- app_assoc. }
           rewrite Hpos, Hg. unfold match_of_line, ms_capture.
           cbn [ms_step ms_pos ms_groups ms_rest fst snd].
           assert (length (a :: b :: c :: d :: e :: w)
                   = 5 + length ws + length (c1 :: t)) as Hlen.
           { cbn [length]. rewrite Ew at 1. rewrite length_app. cbn [length]. lia. }
           f_equal. apply RMatch_eq.
           * rewrite Hlen. lia.
           * replace (S (S (S (S (S pos)))) + length ws + length (c1 :: t) - pos)
               with (pos + length (a :: b :: c :: d :: e :: w) - pos) by (rewrite Hlen; lia).
             apply (firstn_length_app (a :: b :: c :: d :: e :: w) tail pos).
           * replace (S (S (S (S pos))) - S (S (S pos))) with 1 by lia. reflexivity. }
  all: cbn -[checkbox_rest chr_eqb]; repeat match goal with
       | |- context [if chr_eqb ?x ?y then _ else _] =>
           destruct (chr_eqb x y) eqn:?; try reflexivity
       | |- context [if not_nl ?x then _ else _] =>
           destruct (not_nl x) eqn:?; try reflexivity
       end.
  all: destruct tail as [|c0 t0]; [reflexivity|];
    rewrite (Htail c0 t0 eq_refl); reflexivity.
Qed.

(** The text [sub] puts together from the pieces. *)
Definition render (f : rmatch -> str) (ps : list piece) : str :=
  flat_map (fun p => match p with Hit m => f m | Plain c => [c] end) ps.

(** A replacement that reads the text and the groups of a match, not where
    it stands. *)
Definition reads_text (f : rmatch -> str) : Prop :=
  forall m1 m2, m_whole m1 = m_whole m2 -> m_groups m1 = m_groups m2 -> f m1 = f m2.

(** What the reconciliation makes of one line, read on its own. *)
Fixpoint line_render (f : rmatch -> str) (s : str) : str :=
  match s with
  | [] => []
  | c :: t =>
      match line_match s with
      | Some ct => f (match_of_line 0 s ct)
      | None => c :: line_render f t
      end
  end.

Lemma settled_cons (c : ascii) (t : str) :
  settled (c :: t) = true ->
  forallb not_nl (c :: t) = true /\ dangling_here (c :: t) = false
  /\ settled t = true.
Proof.
  unfold settled. cbn [forallb dangling].
  intros [[Hc Ht]%andb_true_iff [Hd Hdt]%negb_true_iff%orb_false_iff]%andb_true_iff.
  rewrite Hc, Ht, Hd, Hdt. auto.
Qed.

Lemma checkbox_no_match_at_end (prev : option ascii) (pos : nat) (tail : str) :
  line_end tail = true -> match_at CHECKBOX_PATTERN prev pos tail = None.
Proof. intros H. now apply (checkbox_match_in_line prev pos [] tail). Qed.

Lemma render_hit (f : rmatch -> str) (m : rmatch) (ps : list piece) :
  render f (Hit m :: ps) = f m ++ render f ps.
Proof. reflexivity. Qed.

Lemma render_plain (f : rmatch -> str) (c : ascii) (ps : list piece) :
  render f (Plain c :: ps) = c :: render f ps.
Proof. reflexivity. Qed.

Lemma match_of_line_len (pos : nat) (s : str) (ct : ascii * str) :
  m_len (match_of_line pos s ct) = length s.
Proof. unfold m_len, match_of_line. cbn [m_end m_start]. lia. Qed.

Section Lines.

Variable f : rmatch -> str.
Hypothesis Hf : reads_text f.

Lemma render_line_in_text (rest : str) :
  forall s prev pos,
    settled s = true ->
    exists prev' pos',
      render f (scan CHECKBOX_PATTERN prev pos 0 (s ++ nl :: rest))
      = line_render f s
        ++ nl :: render f (scan CHECKBOX_PATTERN prev' pos' 0 rest).
Proof using Hf.
  assert (line_end (nl :: rest) = true) as Hend by apply chr_eqb_refl.
  assert (forall prev pos, exists prev' pos',
             render f (scan CHECKBOX_PATTERN prev pos 0 (nl :: rest))
             = nl :: render f (scan CHECKBOX_PATTERN prev' pos' 0 rest)) as Hnl.
  { intros prev pos. exists (Some nl), (S pos). cbn [scan].
    now rewrite (checkbox_no_match_at_end prev pos (nl :: rest) Hend). }
  induction s as [|c t IH]; intros prev pos Hs; [apply Hnl|].
  apply settled_cons in Hs as (Hline & Hd & Ht).
  change ((c :: t) ++ nl :: rest) with (c :: (t ++ nl :: rest)).
  cbn [scan line_render].
  change (c :: t ++ nl :: rest) with ((c :: t) ++ nl :: rest).
  rewrite (checkbox_match_in_line prev pos (c :: t) (nl :: rest) Hline Hd Hend).
  destruct (line_match (c :: t)) as [ct|]; cbn [option_map].
  - rewrite !match_of_line_len. cbn [length Nat.eqb app Nat.sub].
    rewrite Nat.sub_0_r.
    destruct (scan_skip CHECKBOX_PATTERN t (nl :: rest) (Some c) (S pos))
      as (p1 & n1 & ->).
    destruct (Hnl p1 n1) as (p2 & n2 & E). exists p2, n2.
    rewrite render_hit, E. f_equal. now apply Hf.
  - destruct (IH (Some c) (S pos) Ht) as (p' & n' & E). exists p', n'.
    rewrite render_plain, E. reflexivity.
Qed.

Lemma render_line_alone :
  forall s prev pos,
    settled s = true ->
    render f (scan CHECKBOX_PATTERN prev pos 0 s) = line_render f s.
Proof using Hf.
  induction s as [|c t IH]; intros prev pos Hs.
  - cbn [scan]. now rewrite (checkbox_no_match_at_end prev pos [] eq_refl).
  - apply settled_cons in Hs as (Hline & Hd & Ht).
    cbn [scan line_render].
    pose proof (checkbox_match_in_line prev pos (c :: t) [] Hline Hd eq_refl) as E.
    rewrite app_nil_r in E. rewrite E.
    destruct (line_match (c :: t)) as [ct|]; cbn [option_map].
    + rewrite !match_of_line_len. cbn [length Nat.eqb app Nat.sub].
      rewrite Nat.sub_0_r.
      destruct (scan_skip CHECKBOX_PATTERN t [] (Some c) (S pos))
        as (p1 & n1 & Es).
      rewrite app_nil_r in Es. rewrite Es. cbn [scan].
      rewrite (checkbox_no_match_at_end p1 n1 [] eq_refl).
      rewrite render_hit. cbn [render flat_map]. rewrite app_nil_r. now apply Hf.
    + rewrite render_plain. now rewrite IH.
Qed.

Lemma render_lines (lines : list str) :
  forallb settled lines = true ->
  forall prev pos,
    render f (scan CHECKBOX_PATTERN prev pos 0 (join [nl] lines))
    = join [nl] (map (line_render f) lines).
Proof using Hf.
  induction lines as [|l lines IH]; intros Hs prev pos.
  - cbn [join map scan]. now rewrite (checkbox_no_match_at_end prev pos [] eq_refl).
  - cbn [forallb] in Hs. apply andb_true_iff in Hs as [Hl Hs].
    destruct lines as [|l' lines].
    + cbn [join map]. now apply render_line_alone.
    + rewrite (join_cons [nl] l (l' :: lines)) by discriminate.
      change (map (line_render f) (l :: l' :: lines))
        with (line_render f l :: line_render f l' :: map (line_render f) lines).
      rewrite (join_cons [nl] (line_render f l)) by discriminate.
      destruct (render_line_in_text (join [nl] (l' :: lines)) l prev pos Hl)
        as (p' & n' & E).
      change ([nl] ++ join [nl] (l' :: lines)) with (nl :: join [nl] (l' :: lines)).
      rewrite E, (IH Hs p' n'). reflexivity.
Qed.

End Lines.

Lemma update_checkbox_reads_text (ck un : gset str) :
  reads_text (update_checkbox ck un).
Proof.
  intros m1 m2 Hw Hg. unfold update_checkbox, group. now rewrite Hw, Hg.
Qed.

Lemma sync_checkboxes_settled_line (l body : str) :
  settled l = true ->
  sync_checkboxes l body
  = line_render (update_checkbox (issue_checked body) (issue_unchecked body)) l.
Proof.
  intros Hl. unfold sync_checkboxes, re_sub, pieces.
  apply (render_line_alone _ (update_checkbox_reads_text _ _) l None 0 Hl).
Qed.

(** X2.  The reconciliation of a text whose lines are settled is the
    reconciliation of each of its lines. *)
Theorem sync_checkboxes_by_line (lines : list str) (body : str) :
  forallb settled lines = true ->
  sync_checkboxes (join [nl] lines) body
  = join [nl] (map (fun l => sync_checkboxes l body) lines).
Proof.
  intros Hs.
  rewrite (map_ext_in (fun l => sync_checkboxes l body)
             (line_render (update_checkbox (issue_checked body)
                                           (issue_unchecked body)))).
  - unfold sync_checkboxes, re_sub, pieces.
    apply (render_lines _ (update_checkbox_reads_text _ _) lines Hs).
  - intros l Hin. apply sync_checkboxes_settled_line.
    rewrite forallb_forall in Hs. now apply Hs.
Qed.

(** X3.  A checkbox line whose text the issue carries checked is rewritten
    checked, whatever else the issue says of that text. *)
Theorem sync_checkboxes_checked_line (d : ascii) (w body : str) :
  settled (lit "- [" ++ d :: "]"%char :: w) = true ->
  line_match (lit "- [" ++ d :: "]"%char :: w) = Some (d, lstrip w) ->
  strip (lstrip w) ∈ issue_checked body ->
  sync_checkboxes (lit "- [" ++ d :: "]"%char :: w) body
  = lit "- [x] " ++ strip (lstrip w).
Proof.
  intros Hs Hm Hin. rewrite (sync_checkboxes_settled_line _ _ Hs).
  change (lit "- [" ++ d :: "]"%char :: w)
    with ("-"%char :: " "%char :: "["%char :: d :: "]"%char :: w) in *.
  cbn [line_render]. rewrite Hm.
  unfold update_checkbox, match_of_line, group. cbn [m_groups assoc_nat Nat.eqb snd].
  now rewrite (bool_decide_eq_true_2 _ Hin).
Qed.

Definition lines_tasks : list str :=
  [lit "### Tasks"; lit "- [ ] write tests"; lit "  - [x] update docs";
   lit "- [ ] deploy"].

Definition body_tasks : str :=
  unlines ["- [x] write tests"%string; "- [ ] update docs"%string].

Lemma sync_checkboxes_by_line_witness :
  forallb settled lines_tasks = true
  /\ sync_checkboxes (join [nl] lines_tasks) body_tasks
     = join [nl] (map (fun l => sync_checkboxes l body_tasks) lines_tasks).
Proof.
  split; [reflexivity|]. apply (sync_checkboxes_by_line lines_tasks body_tasks).
  reflexivity.
Defined.

Lemma sync_checkboxes_tasks :
  sync_checkboxes (join [nl] lines_tasks) body_tasks
  = unlines ["### Tasks"%string; "- [x] write tests"%string;
             "  - [ ] update docs"%string; "- [ ] deploy"%string].
Proof. vm_compute. reflexivity. Qed.

Lemma sync_checkboxes_checked_line_witness :
  sync_checkboxes (lit "- [ ]   write tests  ")
                  (unlines ["- [ ] write tests"%string; "- [x] write tests"%string])
  = lit "- [x] write tests".
Proof.
  apply (sync_checkboxes_checked_line " " (lit "   write tests  ")
           (unlines ["- [ ] write tests"%string; "- [x] write tests"%string])).
  - reflexivity.
  - reflexivity.
  - apply (proj1 (bool_decide_eq_true _)). vm_compute. reflexivity.
Defined.

(** ** The patch of the local file *)

(** The case in which the file is left as it is. *)
Ltac unchanged :=
  exists false; split; [reflexivity|]; split; [reflexivity|];
  split; [reflexivity|]; split; [discriminate|reflexivity].



(** ** Dry runs *)

(** The commands that only read: [git remote get-url origin] and
    [gh issue list]. *)
Definition read_command (cmd : list str) : bool :=
  match cmd with
  | prog :: a :: b :: _ =>
      (str_eqb prog (lit "git") && str_eqb a (lit "remote")
       && str_eqb b (lit "get-url"))
      || (str_eqb prog (lit "gh") && str_eqb a (lit "issue")
          && str_eqb b (lit "list"))
  | _ => false
  end.

(** An event that changes neither a file nor the repository's issues. *)
Definition harmless (e : event) : bool :=
  match e with
  | Spawn cmd => read_command cmd
  | Wrote _ _ => false
  | Sleep _ | Log _ _ => true
  end.

(** A computation that leaves the files as they are and adds only harmless
    events to the trace. *)
Definition quiet {A} (m : M A) : Prop :=
  forall w,
    files (world_after m w) = files w
    /\ exists evs, trace (world_after m w) = trace w ++ evs
                   /\ forallb harmless evs = true.

Create HintDb quiet.

Lemma quiet_ret {A} (a : A) : quiet (mret a).
Proof. intros w. split; [reflexivity|]. exists []. now rewrite app_nil_r. Qed.

Lemma quiet_raise {A} (e : exn) : quiet (@raise A e).
Proof. intros w. split; [reflexivity|]. exists []. now rewrite app_nil_r. Qed.

Lemma quiet_lift {A} (r : result A) : quiet (lift r).
Proof. intros w. split; [reflexivity|]. exists []. now rewrite app_nil_r. Qed.

Lemma quiet_bind {A B} (m : M A) (f : A -> M B) :
  quiet m -> (forall a, quiet (f a)) -> quiet (m ≫= f).
Proof.
  intros Hm Hf w. destruct (Hm w) as (Hfiles & evs & Htr & Hev).
  unfold world_after in *. unfold mbind, M_bind, bind.
  destruct (m w) as [[a|e] w1]; cbn [snd] in *.
  - destruct (Hf a w1) as (Hfiles' & evs' & Htr' & Hev').
    unfold world_after in *.
    split; [now rewrite Hfiles'|]. exists (evs ++ evs').
    rewrite Htr', Htr, app_assoc, forallb_app, Hev, Hev'. now split.
  - split; [exact Hfiles|]. now exists evs.
Qed.

Lemma quiet_except {A} (m handler : M A) :
  quiet m -> quiet handler -> quiet (except_ValueError m handler).
Proof.
  intros Hm Hh w. destruct (Hm w) as (Hfiles & evs & Htr & Hev).
  unfold world_after in *. unfold except_ValueError.
  destruct (m w) as [[a|[|]] w1]; cbn [snd] in *;
    try (split; [exact Hfiles|]; now exists evs).
  destruct (Hh w1) as (Hfiles' & evs' & Htr' & Hev').
  unfold world_after in *.
  split; [now rewrite Hfiles'|]. exists (evs ++ evs').
  rewrite Htr', Htr, app_assoc, forallb_app, Hev, Hev'. now split.
Qed.

Lemma quiet_emit (e : event) : harmless e = true -> quiet (emit e).
Proof.
  intros He w. split; [reflexivity|]. exists [e]. cbn. now rewrite He.
Qed.

Lemma quiet_log (lvl : level) (msg : string) : quiet (log lvl msg).
Proof. now apply quiet_emit. Qed.

Lemma quiet_sleep (seconds : nat) : quiet (sleep seconds).
Proof. now apply quiet_emit. Qed.

Lemma quiet_subprocess_run (cmd : list str) :
  read_command cmd = true -> quiet (subprocess_run cmd).
Proof.
  intros Hc w. split; [reflexivity|]. exists [Spawn cmd]. cbn. now rewrite Hc.
Qed.

Lemma quiet_read_text (p : Path) : quiet (read_text p).
Proof. intros w. split; [reflexivity|]. exists []. now rewrite app_nil_r. Qed.

Lemma quiet_path_exists (p : Path) : quiet (path_exists p).
Proof. intros w. split; [reflexivity|]. exists []. now rewrite app_nil_r. Qed.

#[export] Hint Resolve quiet_ret quiet_raise quiet_lift quiet_log quiet_sleep
  quiet_read_text quiet_path_exists : quiet.

(** One step through a computation: a bind, or a case of the code. *)
Ltac quiet_step :=
  lazymatch goal with
  | |- quiet (mbind _ _) => apply quiet_bind; [|intros ?]
  | |- quiet (except_ValueError _ _) => apply quiet_except
  | |- quiet (if ?b then _ else _) => destruct b
  | |- quiet (match ?x with _ => _ end) => destruct x
  | |- quiet _ => solve [auto with quiet]
  end.

Ltac quiet_steps := repeat quiet_step.

Lemma quiet_gh_attempts (args : list str) (retries : nat) (attempts : list nat) :
  read_command (lit "gh" :: args) = true ->
  forall last_error, quiet (gh_attempts args retries attempts last_error).
Proof.
  intros Hc. induction attempts as [|attempt rest IH]; intros last_error;
    cbn [gh_attempts]; [auto with quiet|].
  apply quiet_bind; [now apply quiet_subprocess_run|].
  intros [returncode stdout stderr| |]; quiet_steps.
Qed.

Lemma quiet_run_gh_command (args : list str) :
  read_command (lit "gh" :: args) = true -> quiet (run_gh_command args).
Proof. intros Hc. now apply quiet_gh_attempts. Qed.

Lemma quiet_get_repo_info : quiet get_repo_info.
Proof.
  unfold get_repo_info. apply quiet_bind; [now apply quiet_subprocess_run|].
  intros o. quiet_steps.
Qed.

Lemma quiet_parse_user_story (file_path : Path) :
  quiet (parse_user_story file_path).
Proof. unfold parse_user_story. quiet_steps. Qed.

Lemma quiet_parse_all (story_files : list Path) : quiet (parse_all story_files).
Proof.
  induction story_files as [|file_path rest IH]; cbn [parse_all];
    [auto with quiet|].
  apply quiet_bind; [apply quiet_parse_user_story|]. intros story.
  apply quiet_bind; [exact IH|]. auto with quiet.
Qed.

Lemma quiet_index_issues (issues : list json_elem) :
  forall issue_map, quiet (index_issues issues issue_map).
Proof.
  induction issues as [|j rest IH]; intros issue_map;
    [apply quiet_ret|destruct j; cbn [index_issues]; quiet_steps].
Qed.

#[export] Hint Resolve quiet_get_repo_info quiet_parse_user_story quiet_parse_all
  quiet_index_issues : quiet.

Lemma quiet_get_existing_issues (json_loads : str -> option json)
    (owner repo : str) :
  quiet (get_existing_issues json_loads owner repo).
Proof.
  unfold get_existing_issues.
  apply quiet_bind; [now apply quiet_run_gh_command|].
  intros [[returncode stdout] stderr]. quiet_steps.
Qed.

Lemma quiet_create_issue (owner repo : str) (story : UserStory.t) :
  quiet (create_issue owner repo story true).
Proof. unfold create_issue. auto with quiet. Qed.

Lemma quiet_update_issue (owner repo : str) (issue_number : Z)
    (story : UserStory.t) (existing_labels : list str) :
  quiet (update_issue owner repo issue_number story existing_labels true).
Proof. unfold update_issue. auto with quiet. Qed.

Lemma quiet_update_local_doc (story : UserStory.t) (issue_data : issue_json) :
  quiet (update_local_doc story issue_data true).
Proof. unfold update_local_doc. quiet_steps. Qed.

#[export] Hint Resolve quiet_get_existing_issues quiet_create_issue
  quiet_update_issue quiet_update_local_doc : quiet.

Lemma quiet_push_loop (owner repo : str) (existing_issues : gmap str issue_json)
    (stories : list UserStory.t) :
  forall success, quiet (push_loop owner repo existing_issues true stories success).
Proof.
  induction stories as [|story rest IH]; intros success; cbn [push_loop];
    [auto with quiet|].
  apply quiet_bind; [|intros ok; apply IH].
  unfold push_story, issue_number_of. quiet_steps.
Qed.

Lemma quiet_pull_loop (existing_issues : gmap str issue_json)
    (stories : list UserStory.t) :
  quiet (pull_loop existing_issues true stories).
Proof.
  induction stories as [|story rest IH]; cbn [pull_loop]; [auto with quiet|].
  apply quiet_bind; [|intros _; exact IH].
  unfold pull_story. quiet_steps.
Qed.

#[export] Hint Resolve quiet_push_loop quiet_pull_loop : quiet.

(** X5.  A dry run changes no file, and the only commands it runs are
    [git remote get-url origin] and [gh issue list]. *)
Theorem sync_stories_dry_run (json_loads : str -> option json)
    (story_files : list Path) (direction : str) (w : world) :
  files (world_after (sync_stories json_loads story_files direction true) w)
  = files w
  /\ exists evs,
       trace (world_after (sync_stories json_loads story_files direction true) w)
       = trace w ++ evs
       /\ forall e, In e evs ->
            match e with
            | Spawn cmd => read_command cmd = true
            | Wrote _ _ => False
            | Sleep _ | Log _ _ => True
            end.
Proof.
  assert (quiet (sync_stories json_loads story_files direction true)) as H.
  { unfold sync_stories. quiet_steps. }
  destruct (H w) as (Hfiles & evs & Htr & Hev).
  split; [exact Hfiles|]. exists evs. split; [exact Htr|].
  intros e Hin. rewrite forallb_forall in Hev. specialize (Hev e Hin).
  destruct e; cbn [harmless] in Hev; [exact Hev|exact I|exact I|discriminate].
Qed.

(** ** The labels of a new issue and of its update *)

Lemma nonempty_spec {A} (l : list A) : nonempty l = true <-> l <> [].
Proof. destruct l; simpl; split; congruence. Qed.

(** [create_issue] and [update_issue] want the same labels. *)
Lemma create_labels_desired (story : UserStory.t) :
  list_to_set (create_labels story) =@{gset str} desired_labels story.
Proof.
  apply set_eq. intros l.
  rewrite elem_of_list_to_set, desired_labels_spec, list_elem_of_In.
  unfold create_labels. rewrite List.filter_In, nonempty_spec, in_app_iff.
  cbn [In]. destruct (is_done story); cbn [In]; intuition (auto; discriminate).
Qed.

Lemma done_is_no_priority (p : str) : lit "done" <> lit "priority-" ++ p.
Proof. discriminate. Qed.

(** X6.  An issue that carries the labels [create_issue] gives it is one the
    update of the same story leaves its labels: nothing to add, nothing to
    remove, and the command [update_issue] runs has the body and no label
    option. *)
Theorem update_after_create (owner repo : str) (issue_number : Z)
    (story : UserStory.t) (w : world) :
  UserStory.epic_label story <> lit "done" ->
  labels_to_add story (list_to_set (create_labels story)) = ∅
  /\ labels_to_remove story (list_to_set (create_labels story)) = ∅
  /\ exists later,
       trace (world_after
                (update_issue owner repo issue_number story
                              (create_labels story) false) w)
       = trace w
         ++ Spawn [lit "gh"; lit "issue"; lit "edit"; str_of_int issue_number;
                   lit "--repo"; slash owner repo;
                   lit "--body"; build_issue_body story] :: later.
Proof.
  intros Hepic.
  assert (labels_to_add story (list_to_set (create_labels story)) = ∅) as Hadd.
  { unfold labels_to_add. rewrite create_labels_desired.
    apply set_eq. intros l. rewrite elem_of_difference, elem_of_empty. tauto. }
  assert (labels_to_remove story (list_to_set (create_labels story)) = ∅) as Hrm.
  { unfold labels_to_remove. destruct (is_done story) eqn:Hd; [reflexivity|].
    cbn [negb]. rewrite create_labels_desired.
    apply set_eq. intros l.
    rewrite elem_of_intersection, elem_of_singleton, desired_labels_spec,
      elem_of_empty, Hd.
    split; [|tauto]. intros [-> [_ [H|[H|[H|[_ H]]]]]];
      [congruence|discriminate|discriminate|discriminate]. }
  split; [exact Hadd|]. split; [exact Hrm|].
  unfold world_after, update_issue. rewrite Hadd, Hrm, elements_empty.
  cbn [nonempty app]. unfold run_gh_command, run_gh_command_n.
  run_M.
  destruct (gh_attempts_frame
              [lit "issue"; lit "edit"; str_of_int issue_number;
               lit "--repo"; slash owner repo; lit "--body";
               build_issue_body story]
              MAX_RETRIES (seq 0 MAX_RETRIES) [] w)
    as ([[rc out] err] & evs & E & _ & Hfirst).
  destruct (Hfirst ltac:(discriminate)) as (more & ->).
  rewrite E. destruct (negb (rc =? 0)%Z); run_M.
  - eexists. rewrite <- app_assoc. reflexivity.
  - now eexists.
Qed.

Definition story_plain : UserStory.t :=
  UserStory.Make (lit "US-007") (lit "US-007: Library") (lit "Done")
    (lit "must") 3 (lit "epic-2-environments") (lit "epic-2-environments")
    [] [] [] [] [] [] (MkPath (lit "docs/US-007-library.md") (lit "US-007-library")
                              (lit "epic-2-environments")) None.

Lemma update_after_create_witness :
  create_labels story_plain
  = [lit "epic-2-environments"; lit "priority-must"; lit "user-story"; lit "done"]
  /\ labels_to_add story_plain (list_to_set (create_labels story_plain)) = ∅
  /\ labels_to_remove story_plain (list_to_set (create_labels story_plain)) = ∅.
Proof.
  split; [reflexivity|].
  destruct (update_after_create [] [] 7 story_plain
              (MkWorld (fun _ => FileNotFoundError) 0 ∅ []))
    as (Ha & Hr & _); [discriminate|].
  split; [exact Ha|exact Hr].
Defined.

(** ** The issues of the repository, by story id *)

(** The key under which the loop of [get_existing_issues] files an element
    of the response, if it files it. *)
Definition story_id_of (e : json_elem) : option str :=
  match e with
  | JOther => None
  | JDict issue =>
      if validate_issue_structure issue
      then option_map (group 1)
             (re_match story_id_pattern (default [] (title issue)))
      else None
  end.

Lemma validate_issue_structure_spec (issue : issue_json) :
  validate_issue_structure issue = true <->
  is_Some (number issue) /\ is_Some (title issue) /\ is_Some (labels issue).
Proof.
  unfold validate_issue_structure.
  rewrite !andb_true_iff, !bool_decide_eq_true. tauto.
Qed.

(** The dict after one turn of the loop. *)
Definition file_issue (issue_map : gmap str issue_json) (e : json_elem)
    : gmap str issue_json :=
  match e with
  | JOther => issue_map
  | JDict issue =>
      match story_id_of e with
      | Some id => <[id := issue]> issue_map
      | None => issue_map
      end
  end.

Lemma index_issues_cons (e : json_elem) (rest : list json_elem)
    (issue_map : gmap str issue_json) (w : world) :
  exists w',
    index_issues (e :: rest) issue_map w
    = index_issues rest (file_issue issue_map e) w'
    /\ procs w' = procs w /\ spawned w' = spawned w /\ files w' = files w
    /\ exists evs, trace w' = trace w ++ evs
                   /\ forall ev, In ev evs -> exists msg, ev = Log WARNING msg.
Proof.
  destruct e as [|issue]; cbn [index_issues story_id_of file_issue].
  - eexists. run_M. split; [reflexivity|]. cbn. repeat split.
    eexists. split; [reflexivity|]. intros ev [<-|[]]. now eexists.
  - destruct (validate_issue_structure issue); cbn [negb].
    + exists w. split.
      * now destruct (re_match story_id_pattern (default [] (title issue))).
      * repeat split. exists []. rewrite app_nil_r. split; [reflexivity|].
        intros ev [].
    + eexists. run_M. split; [reflexivity|]. cbn. repeat split.
      eexists. split; [reflexivity|]. intros ev [<-|[]]. now eexists.
Qed.

(** The loop returns; what it files is what the response lists, each issue
    under the story id of its title, a later issue taking the place of an
    earlier one of the same id. *)
Lemma index_issues_entries (issues : list json_elem) :
  forall issue_map w,
    exists m w',
      index_issues issues issue_map w = (Ok m, w')
      /\ procs w' = procs w /\ spawned w' = spawned w /\ files w' = files w
      /\ (forall id issue,
            m !! id = Some issue ->
            (issue_map !! id = Some issue
             /\ forall e, In e issues -> story_id_of e <> Some id)
            \/ (In (JDict issue) issues
                /\ story_id_of (JDict issue) = Some id))
      /\ (forall before issue after id,
            issues = before ++ JDict issue :: after ->
            story_id_of (JDict issue) = Some id ->
            (forall e, In e after -> story_id_of e <> Some id) ->
            m !! id = Some issue)
      /\ (forall id, (forall e, In e issues -> story_id_of e <> Some id) ->
                     m !! id = issue_map !! id).
Proof.
  induction issues as [|e rest IH]; intros issue_map w.
  - exists issue_map, w. split; [reflexivity|]. repeat split.
    + intros id issue H. left. split; [exact H|]. intros e [].
    + intros [|? ?] ? ? ? ?; discriminate.
  - destruct (index_issues_cons e rest issue_map w)
      as (w1 & E & Hp & Hs & Hf & _).
    rewrite E.
    set (acc := file_issue issue_map e) in *.
    destruct (IH acc w1) as (m & w' & E' & Hp' & Hs' & Hf' & Hin & Hlast & Hnone).
    exists m, w'. split; [exact E'|].
    split; [congruence|]. split; [congruence|]. split; [congruence|].
    assert (forall id, story_id_of e <> Some id -> acc !! id = issue_map !! id)
      as Hacc.
    { intros id Hne. subst acc. unfold file_issue.
      destruct e as [|issue]; [reflexivity|].
      destruct (story_id_of (JDict issue)) as [id'|]; [|reflexivity].
      apply lookup_insert_ne. congruence. }
    assert (forall id issue, e = JDict issue -> story_id_of e = Some id ->
                             acc !! id = Some issue) as Hacc'.
    { intros id issue -> Hid. subst acc. unfold file_issue. rewrite Hid.
      apply lookup_insert_eq. }
    split; [|split].
    + intros id issue Hm. destruct (Hin id issue Hm) as [[Ha Hr]|[Hi Hid]].
      * destruct (decide (story_id_of e = Some id)) as [He|He].
        -- right. destruct e as [|issue']; [discriminate|].
           rewrite (Hacc' id issue' eq_refl He) in Ha. injection Ha as ->.
           split; [now left|exact He].
        -- left. rewrite (Hacc id He) in Ha. split; [exact Ha|].
           intros e' [<-|He']; [exact He|now apply Hr].
      * right. split; [now right|exact Hid].
    + intros before issue after id Hsplit Hid Hafter.
      destruct before as [|b before]; cbn [app] in Hsplit.
      * injection Hsplit as -> ->.
        rewrite (Hnone id Hafter). now apply Hacc'.
      * injection Hsplit as -> ->.
        now apply (Hlast before issue after id).
    + intros id Hno. rewrite (Hnone id); [|intros e' He'; apply Hno; now right].
      apply Hacc. apply Hno. now left.
Qed.

(** X7.  [get_existing_issues] returns, whatever gh answers, and leaves the
    files alone.  When the command fails, or its output is no JSON or no
    list, the dict is empty.  Otherwise every entry is a dict of the response
    that has a number, a title and labels, filed under the story id its title
    starts with; and of the issues of one story id the last one listed is the
    one filed. *)
Theorem get_existing_issues_entries (json_loads : str -> option json)
    (owner repo : str) (w : world) :
  exists issue_map,
    result_of (get_existing_issues json_loads owner repo) w = Ok issue_map
    /\ files (world_after (get_existing_issues json_loads owner repo) w)
       = files w
    /\ forall returncode stdout stderr w1,
         run_gh_command
           [lit "issue"; lit "list"; lit "--repo"; slash owner repo;
            lit "--label"; lit "user-story"; lit "--state"; lit "all";
            lit "--limit"; lit "200"; lit "--json";
            lit "number,title,labels,body,state"] w
         = (Ok (returncode, stdout, stderr), w1) ->
         match json_loads stdout with
         | Some (JList issues) =>
             if (returncode =? 0)%Z
             then
               (forall id issue,
                  issue_map !! id = Some issue ->
                  In (JDict issue) issues
                  /\ is_Some (number issue) /\ is_Some (title issue)
                  /\ is_Some (labels issue)
                  /\ exists m,
                       re_match story_id_pattern (default [] (title issue))
                       = Some m /\ group 1 m = id)
               /\ (forall before issue after id,
                     issues = before ++ JDict issue :: after ->
                     story_id_of (JDict issue) = Some id ->
                     (forall e, In e after -> story_id_of e <> Some id) ->
                     issue_map !! id = Some issue)
             else issue_map = ∅
         | _ => issue_map = ∅
         end.
Proof.
  unfold result_of, world_after, get_existing_issues.
  change (str_of_int 200) with (lit "200").
  set (args := [lit "issue"; lit "list"; lit "--repo"; slash owner repo;
                lit "--label"; lit "user-story"; lit "--state"; lit "all";
                lit "--limit"; lit "200"; lit "--json";
                lit "number,title,labels,body,state"]).
  destruct (gh_attempts_frame args MAX_RETRIES (seq 0 MAX_RETRIES) [] w)
    as ([[rc out] err] & evs & E & _ & _).
  unfold run_gh_command, run_gh_command_n. run_M. rewrite E.
  destruct (rc =? 0)%Z eqn:Hrc; cbn [negb].
  - destruct (json_loads out) as [[|issues]|] eqn:Hj; run_M.
    + exists ∅. repeat split. intros ? ? ? ? [= <- <- <- <-]. now rewrite Hj.
    + match goal with
      | |- context [index_issues issues ∅ ?w0] =>
          destruct (index_issues_entries issues ∅ w0)
            as (m & w' & E' & _ & _ & Hf & Hin & Hlast & _)
      end.
      rewrite E'. exists m. split; [reflexivity|]. split; [exact Hf|].
      intros ? ? ? ? [= <- <- <- <-]. rewrite Hj, Hrc. split; [|exact Hlast].
      intros id issue Hm. destruct (Hin id issue Hm) as [[Ha _]|[Hi Hid]].
      * now rewrite lookup_empty in Ha.
      * split; [exact Hi|]. cbn [story_id_of] in Hid.
        destruct (validate_issue_structure issue) eqn:Hv; [|discriminate].
        apply validate_issue_structure_spec in Hv as (Hn & Ht & Hl).
        split; [exact Hn|]. split; [exact Ht|]. split; [exact Hl|].
        destruct (re_match story_id_pattern (default [] (title issue)))
          as [m0|]; [|discriminate].
        exists m0. split; [reflexivity|]. now injection Hid.
    + exists ∅. repeat split. intros ? ? ? ? [= <- <- <- <-]. now rewrite Hj.
  - exists ∅. repeat split. intros ? ? ? ? [= <- <- <- <-]. rewrite Hrc.
    now destruct (json_loads out) as [[|?]|].
Qed.

(** ** The exceptions of a run *)

(** A computation that answers with a value that satisfies [Q], or raises
    [ValueError]: it raises no [KeyError]. *)
Definition answers {A} (m : M A) (Q : A -> Prop) : Prop :=
  forall w,
    match result_of m w with
    | Ok a => Q a
    | Raise e => e = ValueError
    end.

Definition anything {A} (_ : A) : Prop := True.

Create HintDb answers.

Lemma answers_ret {A} (a : A) (Q : A -> Prop) : Q a -> answers (mret a) Q.
Proof. intros H w. exact H. Qed.

Lemma answers_raise {A} (Q : A -> Prop) : answers (raise ValueError) Q.
Proof. intros w. reflexivity. Qed.

Lemma answers_bind {A B} (m : M A) (f : A -> M B) (P : A -> Prop)
    (Q : B -> Prop) :
  answers m P -> (forall a, P a -> answers (f a) Q) -> answers (m ≫= f) Q.
Proof.
  intros Hm Hf w. specialize (Hm w). unfold result_of in *.
  unfold mbind, M_bind, bind. destruct (m w) as [[a|e] w1]; cbn [fst] in *.
  - apply (Hf a Hm w1).
  - exact Hm.
Qed.

Lemma answers_except {A} (m handler : M A) (Q : A -> Prop) :
  answers m Q -> answers handler Q -> answers (except_ValueError m handler) Q.
Proof.
  intros Hm Hh w. specialize (Hm w). unfold result_of in *.
  unfold except_ValueError. destruct (m w) as [[a|[|]] w1]; cbn [fst] in *.
  - exact Hm.
  - apply (Hh w1).
  - discriminate.
Qed.

Lemma answers_any {A} (m : M A) :
  (forall w, exists a w', m w = (Ok a, w')) -> answers m anything.
Proof.
  intros H w. destruct (H w) as (a & w' & E). unfold result_of. now rewrite E.
Qed.

Lemma answers_log (lvl : level) (msg : string) : answers (log lvl msg) anything.
Proof. apply answers_any. intros w. now eexists _, _. Qed.

Lemma answers_read_text (p : Path) : answers (read_text p) anything.
Proof. apply answers_any. intros w. now eexists _, _. Qed.

Lemma answers_path_exists (p : Path) : answers (path_exists p) anything.
Proof. apply answers_any. intros w. now eexists _, _. Qed.

Lemma answers_write_text (p : Path) (t : str) :
  answers (write_text p t) anything.
Proof.
  apply answers_any. intros w. unfold write_text.
  destruct (files w !! path_str p) as [f|]; [destruct (f_writable f)|];
    now eexists _, _.
Qed.

Lemma answers_subprocess_run (cmd : list str) :
  answers (subprocess_run cmd) anything.
Proof. apply answers_any. intros w. now eexists _, _. Qed.

Lemma answers_py_int (s : str) : answers (lift (py_int s)) anything.
Proof.
  intros w. unfold result_of, lift, py_int. cbn [fst].
  now destruct (_ && _).
Qed.

Lemma answers_run_gh_command (args : list str) :
  answers (run_gh_command args) anything.
Proof.
  apply answers_any. intros w.
  destruct (gh_attempts_frame args MAX_RETRIES (seq 0 MAX_RETRIES) [] w)
    as (v & evs & E & _).
  unfold run_gh_command, run_gh_command_n. rewrite E. now eexists _, _.
Qed.

Lemma answers_ret_any {A} (a : A) : answers (mret a) anything.
Proof. now apply answers_ret. Qed.

#[export] Hint Resolve answers_ret_any answers_raise answers_log answers_read_text
  answers_path_exists answers_write_text answers_subprocess_run answers_py_int
  answers_run_gh_command : answers.

(** One step through a computation that promises nothing of its value. *)
Ltac answers_step :=
  lazymatch goal with
  | |- answers (mbind _ _) anything =>
      eapply (answers_bind _ _ anything); [|intros ? _]
  | |- answers (except_ValueError _ _) _ => apply answers_except
  | |- answers (if ?b then _ else _) _ => destruct b
  | |- answers (match ?x with _ => _ end) _ => destruct x
  | |- answers _ _ => solve [auto with answers]
  end.

Ltac answers_steps := repeat answers_step.

(** The text of a story raises nothing but the [ValueError] of [int()]. *)
Lemma parse_story_text_ValueError (content : str) (file_path : Path) (e : exn) :
  parse_story_text content file_path = Raise e -> e = ValueError.
Proof.
  unfold parse_story_text.
  destruct (re_match story_id_pattern (stem file_path)); [|discriminate].
  destruct (re_search points_pattern content) as [pm|].
  - destruct (py_int (group 1 pm)) as [n|e'] eqn:E.
    + destruct (re_search (section_pattern "Dependencies") content) as [dm|];
        [|discriminate].
      destruct (map_result _ _) as [deps|e'] eqn:E'; [discriminate|].
      intros [= ->]. apply map_result_raises in E' as (d & _ & E').
      now apply py_int_raises in E'.
    + intros [= ->]. now apply py_int_raises in E.
  - destruct (re_search (section_pattern "Dependencies") content) as [dm|];
      [|discriminate].
    destruct (map_result _ _) as [deps|e'] eqn:E'; [discriminate|].
    intros [= ->]. apply map_result_raises in E' as (d & _ & E').
    now apply py_int_raises in E'.
Qed.

Lemma answers_parse_user_story (file_path : Path) :
  answers (parse_user_story file_path) anything.
Proof.
  unfold parse_user_story.
  eapply (answers_bind _ _ anything); [auto with answers|]. intros c _.
  destruct c as [content|]; [|answers_steps].
  destruct (parse_story_text content file_path) as [[story|]|e] eqn:E;
    [answers_steps..|].
  apply parse_story_text_ValueError in E as ->. auto with answers.
Qed.

Lemma answers_parse_all (story_files : list Path) :
  answers (parse_all story_files) anything.
Proof.
  induction story_files as [|p rest IH]; cbn [parse_all]; [auto with answers|].
  eapply (answers_bind _ _ anything); [apply answers_parse_user_story|].
  intros story _. eapply (answers_bind _ _ anything); [exact IH|].
  intros stories _. auto with answers.
Qed.

Lemma answers_get_repo_info : answers get_repo_info anything.
Proof. unfold get_repo_info. answers_steps. Qed.

(** Every issue of the dict has a number. *)
Definition numbered (existing_issues : gmap str issue_json) : Prop :=
  forall id issue, existing_issues !! id = Some issue -> is_Some (number issue).

Lemma answers_get_existing_issues (json_loads : str -> option json)
    (owner repo : str) :
  answers (get_existing_issues json_loads owner repo) numbered.
Proof.
  unfold get_existing_issues.
  eapply (answers_bind _ _ anything); [auto with answers|].
  intros [[rc out] err] _.
  assert (numbered ∅) as Hempty.
  { intros id issue H. now rewrite lookup_empty in H. }
  destruct (negb (rc =? 0)%Z).
  { eapply (answers_bind _ _ anything); [auto with answers|].
    intros _ _. now apply answers_ret. }
  destruct (json_loads out) as [[|issues]|].
  - eapply (answers_bind _ _ anything); [auto with answers|].
    intros _ _. now apply answers_ret.
  - intros w. unfold result_of.
    destruct (index_issues_entries issues ∅ w)
      as (m & w' & E & _ & _ & _ & Hin & _).
    rewrite E. cbn [fst]. intros id issue Hm.
    destruct (Hin id issue Hm) as [[Ha _]|[_ Hid]].
    + now rewrite lookup_empty in Ha.
    + cbn [story_id_of] in Hid.
      destruct (validate_issue_structure issue) eqn:Hv; [|discriminate].
      now apply validate_issue_structure_spec in Hv as (Hn & _).
  - eapply (answers_bind _ _ anything); [auto with answers|].
    intros _ _. now apply answers_ret.
Qed.

Lemma answers_create_issue (owner repo : str) (story : UserStory.t)
    (dry_run : bool) :
  answers (create_issue owner repo story dry_run) anything.
Proof.
  unfold create_issue. destruct dry_run; [auto with answers|].
  eapply (answers_bind _ _ anything); [auto with answers|].
  intros [[rc out] err] _. answers_steps.
Qed.

Lemma answers_update_issue (owner repo : str) (n : Z) (story : UserStory.t)
    (existing_labels : list str) (dry_run : bool) :
  answers (update_issue owner repo n story existing_labels dry_run) anything.
Proof.
  unfold update_issue. destruct dry_run; [auto with answers|].
  eapply (answers_bind _ _ anything); [auto with answers|].
  intros [[rc out] err] _. answers_steps.
Qed.

Lemma answers_update_local_doc (story : UserStory.t) (issue_data : issue_json)
    (dry_run : bool) :
  answers (update_local_doc story issue_data dry_run) anything.
Proof. unfold update_local_doc. answers_steps. Qed.

#[export] Hint Resolve answers_parse_all answers_get_repo_info
  answers_create_issue answers_update_issue answers_update_local_doc : answers.

Lemma answers_push_loop (owner repo : str) (existing_issues : gmap str issue_json)
    (dry_run : bool) (stories : list UserStory.t) :
  numbered existing_issues ->
  forall success,
    answers (push_loop owner repo existing_issues dry_run stories success)
            anything.
Proof.
  intros Hnum. induction stories as [|story rest IH]; intros success;
    cbn [push_loop]; [auto with answers|].
  eapply (answers_bind _ _ anything); [|intros ok _; apply IH].
  unfold push_story.
  destruct (existing_issues !! UserStory.id story) as [issue|] eqn:Hi.
  - destruct (Hnum _ _ Hi) as [n Hn]. unfold issue_number_of. rewrite Hn.
    answers_steps.
  - answers_steps.
Qed.

Lemma answers_pull_loop (existing_issues : gmap str issue_json)
    (dry_run : bool) (stories : list UserStory.t) :
  answers (pull_loop existing_issues dry_run stories) anything.
Proof.
  induction stories as [|story rest IH]; cbn [pull_loop]; [auto with answers|].
  eapply (answers_bind _ _ anything); [|intros _ _; exact IH].
  unfold pull_story. answers_steps.
Qed.


(** A run that does raise: the story file holds a number [int()] refuses. *)
Definition world_long_points : world :=
  MkWorld (fun _ => git_remote) 0
          {[ path_str path_setup := MkFile (Some text_long_points) true ]} [].

Example sync_stories_raises_ValueError :
  result_of (sync_stories json_of_example [path_setup] (lit "both") true)
            world_long_points
  = Raise ValueError.
Proof. vm_compute. reflexivity. Qed.

(** ** The time the runner sleeps *)

(** The seconds slept in a trace. *)
Fixpoint slept (evs : list event) : nat :=
  match evs with
  | [] => 0
  | Sleep seconds :: rest => seconds + slept rest
  | _ :: rest => slept rest
  end.

Lemma slept_app (a b : list event) : slept (a ++ b) = slept a + slept b.
Proof.
  induction a as [|e a IH]; [reflexivity|].
  destruct e; cbn [app slept]; lia.
Qed.

Lemma pow2_le (a b : nat) : a <= b -> 2 ^ a <= 2 ^ b.
Proof. intros H. apply Nat.pow_le_mono_r; lia. Qed.

(** From the attempt [a] on, the loop sleeps before each further attempt,
    [2 ^ a] seconds and then the double each time, and not after the last. *)
Lemma gh_attempts_slept (args : list str) (retries : nat) :
  forall n a last_error w,
    a + n = retries ->
    exists v w' evs,
      gh_attempts args retries (seq a n) last_error w = (Ok v, w')
      /\ trace w' = trace w ++ evs
      /\ (n = 0 -> evs = [])
      /\ (0 < n -> slept evs + 2 ^ a <= 2 ^ (retries - 1)).
Proof.
  induction n as [|n IH]; intros a le w Ha.
  - exists (1%Z, [], le), w, []. cbn [seq gh_attempts]. run_M.
    rewrite app_nil_r. split; [reflexivity|]. split; [reflexivity|].
    split; [reflexivity|lia].
  - cbn [seq gh_attempts]. run_M.
    assert (2 ^ a <= 2 ^ (retries - 1)) as Hpow by (apply pow2_le; lia).
    assert (Nat.eqb a (retries - 1) = false -> 0 < n) as Hmore.
    { intros H%Nat.eqb_neq. lia. }
    destruct (procs w (spawned w)) as [rc out err| |] eqn:Ho;
      [destruct (rc =? 0)%Z eqn:Hrc;
        [|destruct (is_retryable_error err) eqn:Hre; cbn [negb];
          [destruct (Nat.eqb a (retries - 1)) eqn:Hlast|]]
      |destruct (Nat.eqb a (retries - 1)) eqn:Hlast|]; run_M;
      try match goal with
        | |- context [gh_attempts _ _ _ ?e ?w1] =>
            destruct (IH (S a) e w1 ltac:(lia)) as (v & w' & evs & E & Ht & _ & Hs);
            rewrite E; cbn [trace] in Ht; specialize (Hs (Hmore eq_refl))
        end.
    all: eexists _, _, _; split; [reflexivity|]; cbn [trace];
      split; [rewrite ?Ht, <- ?app_assoc; reflexivity|];
      split; [discriminate|]; intros _;
      cbn [app slept]; unfold RETRY_BASE_DELAY in *; cbn [Nat.pow] in *; lia.
Qed.

(** X9.  Whatever the commands answer, the runner returns, and the seconds
    it sleeps between its attempts add up to less than
    [RETRY_BASE_DELAY ^ (retries - 1)]: at most 3 seconds for the 3 attempts
    of [run_gh_command]. *)
Theorem run_gh_command_sleep_bound (args : list str) (retries : nat) (w : world) :
  exists v evs,
    result_of (run_gh_command_n args retries) w = Ok v
    /\ trace (world_after (run_gh_command_n args retries) w) = trace w ++ evs
    /\ slept evs < RETRY_BASE_DELAY ^ (retries - 1)
    /\ (retries = MAX_RETRIES -> slept evs <= 3).
Proof.
  unfold result_of, world_after, run_gh_command_n.
  destruct (gh_attempts_slept args retries retries 0 [] w eq_refl)
    as (v & w' & evs & E & Ht & H0 & Hs).
  rewrite E. exists v, evs. split; [reflexivity|]. split; [exact Ht|].
  unfold RETRY_BASE_DELAY, MAX_RETRIES.
  destruct retries as [|r].
  - rewrite (H0 eq_refl). cbn. split; [lia|discriminate].
  - specialize (Hs ltac:(lia)). cbn [Nat.pow] in Hs.
    split; [lia|]. intros [= ->]. cbn in Hs. lia.
Qed.

(** ** The story id of a name *)

(** The longest prefix of [s] in the class [p]. *)
Fixpoint take_while (p : ascii -> bool) (s : str) : str :=
  match s with
  | c :: t => if p c then c :: take_while p t else []
  | [] => []
  end.

Lemma take_while_split (p : ascii -> bool) (s : str) :
  exists r, s = take_while p s ++ r /\ forallb p (take_while p s) = true
            /\ stops p r = true.
Proof.
  induction s as [|c s (r & E & Hp & Hr)].
  - now exists [].
  - cbn [take_while]. destruct (p c) eqn:Hc.
    + exists r. split; [cbn [app]; now rewrite <- E|]. split; [|exact Hr].
      cbn [forallb]. now rewrite Hc, Hp.
    + exists (c :: s). split; [reflexivity|]. split; [reflexivity|].
      unfold stops. now rewrite Hc.
Qed.

Lemma take_while_app (p : ascii -> bool) (u r : str) :
  forallb p u = true -> stops p r = true -> take_while p (u ++ r) = u.
Proof.
  intros Hu Hr. induction u as [|c u IH]; cbn [app take_while].
  - destruct r as [|c r]; [reflexivity|]. simpl in Hr.
    apply negb_true_iff in Hr. cbn [take_while]. now rewrite Hr.
  - simpl in Hu. apply andb_true_iff in Hu as [Hc Hu].
    now rewrite Hc, (IH Hu).
Qed.

(** What [re.match(r"(US-\d+)", s)] captures: "US-" and the digits that
    follow it, when [s] starts with "US-" and a digit. *)
Definition story_id_in (s : str) : option str :=
  if startswith (lit "US-") s && nonempty (take_while is_digit (skipn 3 s))
  then Some (lit "US-" ++ take_while is_digit (skipn 3 s))
  else None.

Lemma re_match_story_id (s : str) :
  option_map (group 1) (re_match story_id_pattern s) = story_id_in s.
Proof.
  unfold story_id_in, re_match, match_at, story_id_pattern, Lit.
  destruct (startswith (lit "US-") s) eqn:Hs; cbn [andb].
  - apply startswith_spec in Hs as [t ->].
    change (skipn 3 (lit "US-" ++ t)) with t.
    cbn [exec]. rewrite (exec_Str (lit "US-") t) by reflexivity.
    destruct (take_while_split is_digit t) as (r & Et & Hd & Hr).
    destruct (take_while is_digit t) as [|d ds] eqn:Etw; cbn [nonempty].
    + cbn [app] in Et. subst r. rewrite ms_rest_after.
      destruct t as [|c t]; [reflexivity|]. simpl in Hr.
      apply negb_true_iff in Hr. cbn [rep_greedy]. now rewrite Hr.
    + rewrite ms_rest_after. rewrite Et at 1.
      erewrite (rep_greedy_longest is_digit 1 _ _ r Hr (d :: ds) 0);
        [|rewrite ms_rest_after; exact Et|exact Hd|simpl; lia|reflexivity].
      cbn [option_map]. unfold group, ms_capture.
      cbn [m_groups ms_groups assoc_nat Nat.eqb ms_pos ms_rest].
      rewrite !ms_pos_after. cbn [ms_pos length Nat.add].
      rewrite Nat.sub_0_r. f_equal. rewrite Et.
      change (length (lit "US-")) with 3.
      change (lit "US-" ++ (d :: ds) ++ r)
        with ("U"%char :: "S"%char :: "-"%char :: (d :: ds) ++ r).
      change (lit "US-" ++ d :: ds)
        with ("U"%char :: "S"%char :: "-"%char :: d :: ds).
      cbn [Nat.add firstn]. do 3 f_equal.
      change (S (length ds)) with (length (d :: ds)).
      rewrite firstn_app, Nat.sub_diag, firstn_all. cbn [firstn].
      apply app_nil_r.
  - cbn [exec]. now rewrite exec_Str_none.
Qed.

Lemma story_id_in_shape (s story_id : str) :
  story_id_in s = Some story_id ->
  exists digits rest,
    story_id = lit "US-" ++ digits /\ s = story_id ++ rest
    /\ digits <> [] /\ forallb is_digit digits = true
    /\ stops is_digit rest = true.
Proof.
  unfold story_id_in.
  destruct (startswith (lit "US-") s) eqn:Hs; [|discriminate].
  apply startswith_spec in Hs as [t ->].
  change (skipn 3 (lit "US-" ++ t)) with t.
  destruct (take_while_split is_digit t) as (r & Et & Hd & Hr).
  destruct (take_while is_digit t) as [|d ds] eqn:Etw; [discriminate|].
  cbn [andb nonempty]. intros [= <-].
  exists (d :: ds), r. split; [reflexivity|].
  split; [rewrite Et at 1; reflexivity|].
  split; [discriminate|]. now split.
Qed.

Lemma story_id_in_app (digits rest : str) :
  digits <> [] -> forallb is_digit digits = true ->
  stops is_digit rest = true ->
  story_id_in (lit "US-" ++ digits ++ rest) = Some (lit "US-" ++ digits).
Proof.
  intros Hne Hd Hr. unfold story_id_in.
  change (skipn 3 (lit "US-" ++ digits ++ rest)) with (digits ++ rest).
  rewrite (take_while_app is_digit digits rest Hd Hr).
  destruct digits; [congruence|reflexivity].
Qed.

(** The id of a parsed story is the story id of the name of its file. *)
Lemma parsed_story_id (content : str) (file_path : Path) (story : UserStory.t) :
  parse_story_text content file_path = Ok (Some story) ->
  story_id_in (stem file_path) = Some (UserStory.id story).
Proof.
  rewrite <- re_match_story_id. unfold parse_story_text.
  destruct (re_match story_id_pattern (stem file_path)) as [m|];
    [|discriminate].
  destruct (match re_search points_pattern content with
            | Some pm => py_int (group 1 pm) | None => Ok 0%Z end);
    [|discriminate].
  destruct (match re_search (section_pattern "Dependencies") content with
            | Some dm => _ | None => Ok [] end); [|discriminate].
  now intros [= <-].
Qed.

(** X10.  The story id of a file is "US-" and all the digits that follow it
    at the start of the file's name; a file whose name does not start with
    "US-" and a digit is skipped, whatever its text. *)
Theorem parse_story_text_id (content : str) (file_path : Path) :
  match story_id_in (stem file_path) with
  | None => parse_story_text content file_path = Ok None
  | Some story_id =>
      forall story,
        parse_story_text content file_path = Ok (Some story) ->
        UserStory.id story = story_id
        /\ exists digits rest,
             story_id = lit "US-" ++ digits
             /\ stem file_path = story_id ++ rest
             /\ digits <> [] /\ forallb is_digit digits = true
             /\ stops is_digit rest = true
  end.
Proof.
  destruct (story_id_in (stem file_path)) as [story_id|] eqn:Hid.
  - intros story Hstory. apply parsed_story_id in Hstory.
    rewrite Hid in Hstory. injection Hstory as <-.
    split; [reflexivity|]. now apply story_id_in_shape.
  - rewrite <- re_match_story_id in Hid. unfold parse_story_text.
    now destruct (re_match story_id_pattern (stem file_path)).
Qed.

Definition path_long_id : Path :=
  MkPath (lit "docs/epic-2/US-0420-quota.md") (lit "US-0420-quota")
         (lit "epic-2").

Example parse_story_text_id_example :
  story_id_in (stem path_long_id) = Some (lit "US-0420")
  /\ story_id_in (lit "us-001-lowercase") = None
  /\ story_id_in (lit "US-x") = None
  /\ story_id_in (lit "draft-US-001") = None.
Proof. repeat split. Qed.

(** ** The labels of a parsed story *)

(** A pattern without a capturing group. *)
Fixpoint groupless (r : re) : bool :=
  match r with
  | Grp _ _ => false
  | Seq a b | Alt a b => groupless a && groupless b
  | _ => true
  end.

(** Such a pattern leaves the groups as they are. *)
Lemma exec_groupless (r : re) :
  groupless r = true ->
  forall st k x,
    exec r st k = Some x ->
    exists st1, k st1 = Some x /\ ms_groups st1 = ms_groups st.
Proof.
  induction r as [|p|a IHa b IHb|a IHa b IHb|p lo g|n a IHa|a IHa| | | | |];
    intros Hg st k x H; cbn [exec groupless] in *.
  - now exists st.
  - destruct (ms_rest st) as [|c t]; [discriminate|].
    destruct (p c); [|discriminate]. eexists. split; [exact H|reflexivity].
  - apply andb_true_iff in Hg as [Ha Hb].
    apply (IHa Ha) in H as (st1 & H & G1).
    apply (IHb Hb) in H as (st2 & H & G2). exists st2. split; congruence.
  - apply andb_true_iff in Hg as [Ha Hb].
    destruct (exec a st k) as [y|] eqn:E.
    + injection H as ->. now apply (IHa Ha) in E.
    + now apply (IHb Hb) in H.
  - destruct g.
    + apply (rep_greedy_inv p lo k x _ 0 st eq_refl) in H
        as (u & r & _ & _ & _ & H).
      eexists. split; [exact H|apply ms_groups_after].
    + apply (rep_lazy_inv p lo k x _ 0 st eq_refl) in H
        as (u & r & _ & _ & _ & H).
      eexists. split; [exact H|apply ms_groups_after].
  - discriminate.
  - destruct (exec a st Some); [|discriminate]. now exists st.
  - destruct (Nat.eqb (ms_pos st) 0); [|discriminate]. now exists st.
  - destruct (at_bol st); [|discriminate]. now exists st.
  - destruct (at_eos st); [|discriminate]. now exists st.
  - destruct (at_eol st); [|discriminate]. now exists st.
  - destruct (at_end st); [|discriminate]. now exists st.
Qed.

(** A group [(p{lo,})] followed by a pattern without groups captures
    characters of the class [p], at least [lo] of them. *)
Lemma group_capture (n lo : nat) (p : ascii -> bool) (g : bool) (rest : re)
    (st x : mstate) :
  groupless rest = true ->
  exec (Seq (Grp n (Rep p lo g)) rest) st Some = Some x ->
  exists u, assoc_nat n (ms_groups x) = Some u
            /\ forallb p u = true /\ lo <= length u.
Proof.
  intros Hrest. cbn [exec]. intros H.
  assert (exists u r, ms_rest st = u ++ r /\ forallb p u = true
                      /\ lo <= 0 + length u
                      /\ exec rest (ms_capture n st (ms_after u r st)) Some
                         = Some x)
    as (u & r & Hst & Hu & Hlo & Hx).
  { destruct g.
    - now apply (rep_greedy_inv p lo _ x _ 0 st eq_refl) in H.
    - now apply (rep_lazy_inv p lo _ x _ 0 st eq_refl) in H. }
  apply (exec_groupless rest Hrest) in Hx as (st1 & [= ->] & G).
  exists u. rewrite G. unfold ms_capture. cbn [ms_groups assoc_nat].
  rewrite Nat.eqb_refl, ms_pos_after, Hst.
  replace (ms_pos st + length u - ms_pos st) with (length u) by lia.
  rewrite firstn_app, Nat.sub_diag, firstn_all. cbn [firstn].
  rewrite app_nil_r. auto.
Qed.

Lemma priority_match_word (prev : option ascii) (pos : nat) (s : str)
    (m : rmatch) :
  match_at priority_pattern prev pos s = Some m ->
  forallb is_word (group 1 m) = true /\ 1 <= length (group 1 m).
Proof.
  unfold match_at. destruct (exec _ _ _) as [x|] eqn:E; [|discriminate].
  intros [= <-]. unfold priority_pattern in E. cbn [Cat] in E.
  apply seq_continues in E as (st1 & E).
  apply group_capture in E as (u & Hg & Hu & Hlen); [|reflexivity].
  unfold group. cbn [m_groups]. rewrite Hg. now split.
Qed.

(** A character that does not end a label in a comma-separated list. *)
Definition label_chr (c : ascii) : bool := negb (chr_eqb c ",").

(** A label that stays whole in the comma-separated list gh is given: it is
    not empty and holds no comma. *)
Definition label_ok (l : str) : bool := nonempty l && forallb label_chr l.

Lemma word_chr_label (c : ascii) : is_word c = true -> label_chr c = true.
Proof.
  destruct c as [[] [] [] [] [] [] [] []]; vm_compute; congruence.
Qed.

(** Lower case brings no comma in. *)
Lemma lower_chr_label (c : ascii) :
  label_chr c = true -> label_chr (lower_chr c) = true.
Proof.
  destruct c as [[] [] [] [] [] [] [] []]; vm_compute; congruence.
Qed.

Lemma lower_word (s : str) :
  forallb is_word s = true -> forallb label_chr (lower s) = true.
Proof.
  induction s as [|c s IH]; [reflexivity|]. cbn [forallb lower map].
  intros [Hc Hs]%andb_true_iff.
  rewrite (lower_chr_label c (word_chr_label c Hc)). now apply IH.
Qed.

Lemma epic_label_of_table (table : list (str * str)) (epic : str) :
  epic_label_of table epic = []
  \/ exists key, In (key, epic_label_of table epic) table
                 /\ contains key epic = true.
Proof.
  induction table as [|[key label] table IH]; [now left|].
  cbn [epic_label_of]. destruct (contains key epic) eqn:Hc.
  - right. exists key. split; [now left|exact Hc].
  - destruct IH as [IH|(k & Hin & Hk)]; [now left|].
    right. exists k. split; [now right|exact Hk].
Qed.

Lemma EPIC_LABELS_ok (key label : str) :
  In (key, label) EPIC_LABELS -> label_ok label = true.
Proof.
  intros H. assert (forallb (fun kl => label_ok (snd kl)) EPIC_LABELS = true)
    as Hall by reflexivity.
  rewrite forallb_forall in Hall. apply (Hall _ H).
Qed.

(** The fields of a parsed story the labels are made of: the epic label is
    empty or a label of the table, the priority is a word of [\w] characters
    in lower case. *)
Lemma parse_story_text_label_fields (content : str) (file_path : Path)
    (story : UserStory.t) :
  parse_story_text content file_path = Ok (Some story) ->
  (UserStory.epic_label story = []
   \/ exists key, In (key, UserStory.epic_label story) EPIC_LABELS
                  /\ contains key (parent_name file_path) = true)
  /\ exists w, forallb is_word w = true /\ 1 <= length w
               /\ UserStory.priority story = lower w.
Proof.
  unfold parse_story_text.
  destruct (re_match story_id_pattern (stem file_path)); [|discriminate].
  destruct (match re_search points_pattern content with
            | Some pm => py_int (group 1 pm) | None => Ok 0%Z end);
    [|discriminate].
  destruct (match re_search (section_pattern "Dependencies") content with
            | Some dm => _ | None => Ok [] end); [|discriminate].
  intros [= <-]. cbn [UserStory.epic_label UserStory.priority].
  split; [exact (epic_label_of_table EPIC_LABELS (parent_name file_path))|].
  destruct (re_search priority_pattern content) as [pm|] eqn:Hp.
  - apply search_from_match in Hp as (prev & pos & s' & Hp).
    apply priority_match_word in Hp as [Hw Hlen]. now exists (group 1 pm).
  - exists (lit "should"). split; [reflexivity|]. split; [|reflexivity].
    apply (Nat.leb_le 1 (length (lit "should"))). reflexivity.
Qed.



(** ** The issue of a story, found again *)

Lemma sanitize_text_app (a b : str) :
  sanitize_text (a ++ b) = sanitize_text a ++ sanitize_text b.
Proof. rewrite !sanitize_text_filter. apply List.filter_app. Qed.

Lemma sanitize_text_safe (s : str) :
  forallb safe_title_chr s = true -> sanitize_text s = s.
Proof.
  rewrite sanitize_text_filter. induction s as [|c s IH]; [reflexivity|].
  cbn [forallb List.filter]. intros [Hc Hs]%andb_true_iff.
  now rewrite Hc, (IH Hs).
Qed.

Lemma digits_safe (digits : str) :
  forallb is_digit digits = true -> forallb safe_title_chr digits = true.
Proof.
  induction digits as [|c s IH]; [reflexivity|]. cbn [forallb].
  intros [Hc Hs]%andb_true_iff. rewrite (IH Hs).
  unfold safe_title_chr, is_word. now rewrite Hc.
Qed.

(** X12.  The title [create_issue] gives the issue of a parsed story whose
    title starts with the story id, the rest of the title not going on, once
    sanitized, with a digit, is a title [get_existing_issues] files under that
    story id: the issue is the one a later run updates. *)
Theorem created_issue_found (content : str) (file_path : Path)
    (story : UserStory.t) (rest : str) (issue_number : Z) (issue_labels : list str)
    (issue_body : option str) (issue_map : gmap str issue_json) (w : world) :
  parse_story_text content file_path = Ok (Some story) ->
  UserStory.title story = UserStory.id story ++ rest ->
  stops is_digit (sanitize_text rest) = true ->
  index_issues
    [JDict (MkIssue (Some issue_number)
                    (Some (sanitize_text (UserStory.title story)))
                    (Some issue_labels) issue_body)]
    issue_map w
  = (Ok (<[UserStory.id story :=
             MkIssue (Some issue_number)
                     (Some (sanitize_text (UserStory.title story)))
                     (Some issue_labels) issue_body]> issue_map), w).
Proof.
  intros Hparse Htitle Hrest.
  apply parsed_story_id, story_id_in_shape in Hparse
    as (digits & tail & Hid & _ & Hne & Hd & _).
  assert (story_id_in (sanitize_text (UserStory.title story))
          = Some (UserStory.id story)) as Hfound.
  { rewrite Htitle, sanitize_text_app, Hid, sanitize_text_app.
    rewrite (sanitize_text_safe (lit "US-")) by reflexivity.
    rewrite (sanitize_text_safe digits) by now apply digits_safe.
    rewrite <- app_assoc. now apply story_id_in_app. }
  rewrite <- re_match_story_id in Hfound.
  cbn [index_issues].
  change (validate_issue_structure _) with true.
  cbn [negb title from_option id].
  destruct (re_match story_id_pattern
              (sanitize_text (UserStory.title story))) as [m|];
    [|discriminate].
  cbn [option_map] in Hfound. injection Hfound as ->. reflexivity.
Qed.

Definition text_titled : str :=
  unlines ["# US-001: Setup <Infra> & more"; ""; "## Tasks"; ""; "- [ ] plan"].

Lemma created_issue_found_witness :
  exists story,
    parse_story_text text_titled path_setup = Ok (Some story)
    /\ sanitize_text (UserStory.title story) = lit "US-001: Setup Infra  more"
    /\ fst (index_issues
              [JDict (MkIssue (Some 12%Z)
                              (Some (sanitize_text (UserStory.title story)))
                              (Some []) None)] ∅
              (MkWorld (fun _ => TimeoutExpired) 0 ∅ []))
       = Ok {[ lit "US-001" :=
                 MkIssue (Some 12%Z) (Some (lit "US-001: Setup Infra  more"))
                         (Some []) None ]}.
Proof.
  destruct (parse_story_text text_titled path_setup) as [[story|]|] eqn:E;
    [|vm_compute in E; discriminate..].
  exists story. split; [reflexivity|].
  assert (UserStory.title story = lit "US-001: Setup <Infra> & more") as Ht.
  { vm_compute in E. now injection E as <-. }
  assert (UserStory.id story = lit "US-001") as Hi.
  { vm_compute in E. now injection E as <-. }
  assert (sanitize_text (UserStory.title story)
          = lit "US-001: Setup Infra  more") as Hs.
  { rewrite Ht. vm_compute. reflexivity. }
  split; [exact Hs|].
  rewrite (created_issue_found text_titled path_setup story
             (lit ": Setup <Infra> & more") 12 [] None ∅ _ E).
  - cbn [fst]. rewrite Hs, Hi. reflexivity.
  - now rewrite Ht, Hi.
  - vm_compute. reflexivity.
Defined.

(** ** The repository of the remote *)

(** [s.endswith(p)] *)
Definition endswith (p s : str) : bool := startswith (rev p) (rev s).

Lemma endswith_spec (p s : str) :
  endswith p s = true <-> exists a, s = a ++ p.
Proof.
  unfold endswith. rewrite startswith_spec. split.
  - intros [t Ht]. exists (rev t).
    rewrite <- (rev_involutive s), Ht, rev_app_distr, rev_involutive.
    reflexivity.
  - intros [a ->]. exists (rev a). apply rev_app_distr.
Qed.

(** The name [repo_url_pattern] captures from what follows the owner: all of
    it, but for one final ".git" that has something before it. *)
Definition repo_name (t : str) : str :=
  if endswith (lit ".git") t && (4 <? length t)
  then firstn (length t - 4) t else t.

Lemma repo_name_split (t : str) :
  t <> [] ->
  exists suffix,
    t = repo_name t ++ suffix /\ repo_name t <> []
    /\ (suffix = [] \/ suffix = lit ".git")
    /\ forall u1 u2, repo_name t = u1 ++ u2 -> u1 <> [] -> u2 <> [] ->
                     u2 ++ suffix <> lit ".git".
Proof.
  intros Ht. unfold repo_name.
  destruct (endswith (lit ".git") t) eqn:He; cbn [andb].
  - apply endswith_spec in He as [a ->]. rewrite length_app.
    change (length (lit ".git")) with 4.
    destruct (4 <? length a + 4) eqn:Hl.
    + apply Nat.ltb_lt in Hl.
      replace (length a + 4 - 4) with (length a) by lia.
      rewrite firstn_app, Nat.sub_diag, firstn_all. cbn [firstn].
      rewrite app_nil_r. exists (lit ".git").
      split; [reflexivity|]. split; [destruct a; simpl in *; [lia|discriminate]|].
      split; [now right|]. intros u1 u2 -> _ Hu2 E.
      apply (f_equal (@length ascii)) in E. rewrite length_app in E.
      destruct u2; [congruence|]. simpl in E. lia.
    + apply Nat.ltb_ge in Hl. exists []. rewrite app_nil_r.
      split; [reflexivity|]. split; [exact Ht|]. split; [now left|].
      intros u1 u2 E Hu1 _ E2. rewrite app_nil_r in E2. subst u2.
      apply (f_equal (@length ascii)) in E. rewrite !length_app in E.
      destruct u1; [congruence|]. simpl in E. lia.
  - exists []. rewrite app_nil_r.
    split; [reflexivity|]. split; [exact Ht|]. split; [now left|].
    intros u1 u2 E _ _ E2. rewrite app_nil_r in E2. subst u2.
    assert (endswith (lit ".git") t = true) as He'
      by (apply endswith_spec; now exists u1).
    congruence.
Qed.

(** The lazy loop stops at the first count, from [lo] on, at which the rest
    of the pattern matches. *)
Lemma rep_lazy_first (p : ascii -> bool) (lo : nat)
    (k : mstate -> option mstate) (x : mstate) (r : str) :
  forall u cnt st,
    ms_rest st = u ++ r -> forallb p u = true -> lo <= cnt + length u ->
    (forall u1 u2, u = u1 ++ u2 -> u2 <> [] -> lo <= cnt + length u1 ->
                   k (ms_after u1 (u2 ++ r) st) = None) ->
    k (ms_after u r st) = Some x ->
    rep_lazy p lo k cnt (u ++ r) st = Some x.
Proof.
  induction u as [|c u IH]; intros cnt st Hst Hu Hlo Hfail Hk.
  - simpl in Hst, Hlo. cbn [app]. subst r. rewrite ms_after_nil in Hk.
    assert ((lo <=? cnt) = true) as Hle by (apply Nat.leb_le; lia).
    destruct (ms_rest st); cbn [rep_lazy]; now rewrite Hle, Hk.
  - simpl in Hu. apply andb_true_iff in Hu as [Hc Hu].
    cbn [app rep_lazy].
    assert ((if lo <=? cnt then k st else None) = None) as ->.
    { destruct (lo <=? cnt) eqn:Hle; [|reflexivity]. apply Nat.leb_le in Hle.
      specialize (Hfail [] (c :: u) eq_refl).
      rewrite <- Hst, ms_after_nil in Hfail. apply Hfail; [discriminate|].
      simpl. lia. }
    rewrite Hc.
    apply IH; [reflexivity|exact Hu|simpl in Hlo; lia| |exact Hk].
    intros u1 u2 -> Hu2 Hle. rewrite <- app_assoc.
    apply (Hfail (c :: u1) u2); [reflexivity|exact Hu2|simpl; lia].
Qed.

(** [(?:\.git)?$] *)
Definition git_eos : re := Seq (Alt (Lit ".git") Eps) Eos.

Lemma git_eos_none (rho : str) (st : mstate) (k : mstate -> option mstate) :
  ms_rest st = rho -> forallb not_nl rho = true ->
  rho <> [] -> rho <> lit ".git" ->
  exec git_eos st k = None.
Proof.
  intros Hst Hnl Hne Hgit. unfold git_eos. cbn [exec].
  assert (at_eos st = false) as Heos.
  { unfold at_eos. rewrite Hst. destruct rho as [|c [|c' rho]]; [congruence| |reflexivity].
    simpl in Hnl. rewrite andb_true_r in Hnl. unfold not_nl in Hnl.
    now apply negb_true_iff in Hnl. }
  rewrite Heos.
  destruct (startswith (lit ".git") rho) eqn:Hs.
  - apply startswith_spec in Hs as [t ->]. unfold Lit.
    rewrite (exec_Str (lit ".git") t) by exact Hst.
    unfold at_eos. rewrite ms_rest_after.
    rewrite forallb_app in Hnl. apply andb_true_iff in Hnl as [_ Hnl].
    destruct t as [|c [|c' t]]; [now rewrite app_nil_r in Hgit| |reflexivity].
    simpl in Hnl. rewrite andb_true_r in Hnl. unfold not_nl in Hnl.
    apply negb_true_iff in Hnl. now rewrite Hnl.
  - unfold Lit. rewrite exec_Str_none; [reflexivity|now rewrite Hst].
Qed.

Lemma git_eos_some (rho : str) (st : mstate) (k : mstate -> option mstate)
    (x : mstate) :
  ms_rest st = rho -> rho = [] \/ rho = lit ".git" ->
  k (ms_after rho [] st) = Some x ->
  exec git_eos st k = Some x.
Proof.
  intros Hst [->| ->] Hk; unfold git_eos, Lit; cbn [exec].
  - rewrite exec_Str_none by now rewrite Hst.
    unfold at_eos. rewrite Hst. now rewrite (ms_after_here st [] Hst) in Hk.
  - rewrite (exec_Str (lit ".git") []) by exact Hst.
    unfold at_eos. rewrite ms_rest_after. now rewrite Hk.
Qed.

(** [repo_url_pattern] from the name on, [/(.+?)(?:\.git)?$], and from the
    owner on. *)
Definition repo_url_name : re :=
  Seq (Lit "/") (Seq (Grp 2 (Rep not_nl 1 false)) git_eos).

Definition repo_url_owner : re :=
  Seq (Grp 1 (Rep not_nl 1 false)) repo_url_name.

Lemma repo_url_pattern_parts :
  repo_url_pattern
  = Seq (Lit "github.com") (Seq (Chr (one_of ":/")) repo_url_owner).
Proof. reflexivity. Qed.

Lemma capture_here (n : nat) (u r : str) (st : mstate) :
  ms_rest st = u ++ r ->
  ms_groups (ms_capture n st (ms_after u r st)) = (n, u) :: ms_groups st.
Proof.
  intros Hst. unfold ms_capture. cbn [ms_groups].
  rewrite ms_pos_after, ms_groups_after, Hst.
  replace (ms_pos st + length u - ms_pos st) with (length u) by lia.
  rewrite firstn_app, Nat.sub_diag, firstn_all. cbn [firstn].
  now rewrite app_nil_r.
Qed.

Lemma capture_rest (n : nat) (st0 st : mstate) :
  ms_rest (ms_capture n st0 st) = ms_rest st.
Proof. reflexivity. Qed.

Lemma exec_repo_name (t : str) (st : mstate) :
  ms_rest st = t -> t <> [] -> forallb not_nl t = true ->
  exists x,
    exec (Seq (Grp 2 (Rep not_nl 1 false)) git_eos) st Some = Some x
    /\ ms_groups x = (2, repo_name t) :: ms_groups st.
Proof.
  intros Hst Ht Hnl.
  destruct (repo_name_split t Ht) as (suffix & Et & Hne & Hsuf & Hfirst).
  set (name := repo_name t) in *.
  assert (forallb not_nl name = true /\ forallb not_nl suffix = true)
    as [Hname Hsuffix].
  { rewrite Et, forallb_app in Hnl. now apply andb_true_iff in Hnl. }
  exists (ms_after suffix [] (ms_capture 2 st (ms_after name suffix st))).
  split.
  - change (exec (Seq (Grp 2 (Rep not_nl 1 false)) git_eos) st Some)
      with (rep_lazy not_nl 1
              (fun st' => exec git_eos (ms_capture 2 st st') Some)
              0 (ms_rest st) st).
    rewrite Hst. rewrite Et at 1.
    apply rep_lazy_first.
    + now rewrite Hst.
    + exact Hname.
    + destruct name; [congruence|simpl; lia].
    + intros u1 u2 E Hu2 Hlen. apply (git_eos_none (u2 ++ suffix)).
      * rewrite capture_rest. apply ms_rest_after.
      * rewrite E, forallb_app in Hname.
        apply andb_true_iff in Hname as [_ Hu2nl].
        now rewrite forallb_app, Hu2nl.
      * destruct u2; [congruence|discriminate].
      * apply (Hfirst u1 u2 E); [|exact Hu2].
        destruct u1; [simpl in Hlen; lia|discriminate].
    + apply (git_eos_some suffix); [|exact Hsuf|reflexivity].
      rewrite capture_rest. apply ms_rest_after.
  - rewrite ms_groups_after. apply capture_here. now rewrite Hst.
Qed.

(** A character of an owner: no line break, no slash. *)
Definition owner_chr (c : ascii) : bool := not_nl c && negb (chr_eqb "/" c).

Lemma exec_repo_owner (owner t : str) (st : mstate) :
  ms_rest st = owner ++ lit "/" ++ t ->
  owner <> [] -> forallb owner_chr owner = true ->
  t <> [] -> forallb not_nl t = true ->
  exists x,
    exec repo_url_owner st Some = Some x
    /\ ms_groups x = (2, repo_name t) :: (1, owner) :: ms_groups st.
Proof.
  intros Hst Ho Hoc Ht Hnl.
  set (st1 := ms_capture 1 st (ms_after owner (lit "/" ++ t) st)).
  destruct (exec_repo_name t (ms_after (lit "/") t st1)) as (x & Ex & Gx);
    [apply ms_rest_after|exact Ht|exact Hnl|].
  exists x. split.
  - change (exec repo_url_owner st Some)
      with (rep_lazy not_nl 1
              (fun st' => exec repo_url_name (ms_capture 1 st st') Some)
              0 (ms_rest st) st).
    rewrite Hst. apply rep_lazy_first.
    + exact Hst.
    + apply forallb_forall. intros c Hc.
      rewrite forallb_forall in Hoc. specialize (Hoc c Hc).
      unfold owner_chr in Hoc. now apply andb_true_iff in Hoc.
    + destruct owner; [congruence|simpl; lia].
    + intros u1 u2 E Hu2 _. unfold repo_url_name, Lit.
      change (exec (Seq (Str_ (lit "/")) ?r) ?s ?k)
        with (exec (Str_ (lit "/")) s (fun st' => exec r st' k)).
      apply exec_Str_none. rewrite capture_rest, ms_rest_after.
      destruct u2 as [|c u2]; [congruence|].
      rewrite E, forallb_app in Hoc. apply andb_true_iff in Hoc as [_ Hoc].
      simpl in Hoc. apply andb_true_iff in Hoc as [Hc _].
      unfold owner_chr in Hc. apply andb_true_iff in Hc as [_ Hc].
      apply negb_true_iff in Hc.
      change (chr_eqb "/" c && startswith [] (u2 ++ lit "/" ++ t) = false).
      now rewrite Hc.
    + fold st1. unfold repo_url_name, Lit.
      change (exec (Seq (Str_ (lit "/")) ?r) ?s ?k)
        with (exec (Str_ (lit "/")) s (fun st' => exec r st' k)).
      rewrite (exec_Str (lit "/") t); [exact Ex|].
      unfold st1. rewrite capture_rest. apply ms_rest_after.
  - rewrite Gx, ms_groups_after. unfold st1. f_equal. now apply capture_here.
Qed.

Lemma match_at_repo_url (prev : option ascii) (pos : nat) (sep : ascii)
    (owner t : str) :
  one_of ":/" sep = true ->
  owner <> [] -> forallb owner_chr owner = true ->
  t <> [] -> forallb not_nl t = true ->
  exists m,
    match_at repo_url_pattern prev pos
      (lit "github.com" ++ sep :: owner ++ lit "/" ++ t) = Some m
    /\ group 1 m = owner /\ group 2 m = repo_name t.
Proof.
  intros Hsep Ho Hoc Ht Hnl. unfold match_at.
  rewrite repo_url_pattern_parts. unfold Lit.
  change (exec (Seq (Str_ ?p) ?r) ?s ?k)
    with (exec (Str_ p) s (fun st' => exec r st' k)).
  rewrite (exec_Str (lit "github.com") (sep :: owner ++ lit "/" ++ t))
    by reflexivity.
  change (exec (Seq (Chr ?p) ?r) ?s ?k)
    with (exec (Chr p) s (fun st' => exec r st' k)).
  rewrite (exec_Chr _ sep (owner ++ lit "/" ++ t));
    [|apply ms_rest_after|exact Hsep].
  match goal with
  | |- context [exec repo_url_owner ?st Some] =>
      destruct (exec_repo_owner owner t st) as (x & Ex & Gx);
        [reflexivity|exact Ho|exact Hoc|exact Ht|exact Hnl|]
  end.
  rewrite Ex. eexists. split; [reflexivity|].
  unfold group. cbn [m_groups]. rewrite Gx. cbn [assoc_nat Nat.eqb].
  now split.
Qed.

(** [p] first occurs in [s] at the offset [n]. *)
Fixpoint first_at (p s : str) (n : nat) {struct n} : bool :=
  match n with
  | 0 => startswith p s
  | S n' =>
      negb (startswith p s)
      && match s with c :: t => first_at p t n' | [] => false end
  end.

(** The search passes the places where the literal the pattern starts with
    does not stand. *)
Lemma search_from_first_at (p : str) (r : re) :
  forall n s prev pos,
    first_at p s n = true ->
    exists prev',
      search_from (Seq (Str_ p) r) prev pos s
      = search_from (Seq (Str_ p) r) prev' (pos + n) (skipn n s).
Proof.
  induction n as [|n IH]; intros s prev pos H.
  - exists prev. now rewrite Nat.add_0_r.
  - destruct s as [|c t]; simpl in H;
      [now rewrite andb_false_r in H|].
    apply andb_true_iff in H as [Hs H]. apply negb_true_iff in Hs.
    destruct (IH t (Some c) (S pos) H) as (prev' & E). exists prev'.
    cbn [search_from skipn]. unfold match_at at 1.
    change (exec (Seq (Str_ p) r) ?s ?k)
      with (exec (Str_ p) s (fun st' => exec r st' k)).
    rewrite exec_Str_none by exact Hs.
    rewrite E. f_equal. lia.
Qed.

Lemma search_from_absent (p : str) (r : re) :
  forall s prev pos,
    contains p s = false -> search_from (Seq (Str_ p) r) prev pos s = None.
Proof.
  induction s as [|c t IH]; intros prev pos H; simpl in H;
    apply orb_false_iff in H as [Hs H]; cbn [search_from]; unfold match_at;
    change (exec (Seq (Str_ p) r) ?s ?k)
      with (exec (Str_ p) s (fun st' => exec r st' k));
    rewrite exec_Str_none by exact Hs; [reflexivity|now apply IH].
Qed.

Lemma search_from_hit (r : re) (prev : option ascii) (pos : nat) (s : str)
    (m : rmatch) :
  match_at r prev pos s = Some m -> search_from r prev pos s = Some m.
Proof. intros H. destruct s; cbn [search_from]; now rewrite H. Qed.

(** X13.  From the output of [git remote get-url origin], trimmed, of the
    form [<prefix>github.com<: or />owner/rest], "github.com" not occurring
    before, the owner being what stands before the first slash and the rest
    a non-empty line, [get_repo_info] returns the owner and the rest without
    one final ".git": HTTPS and SSH remotes alike, whatever the exit code of
    git. *)
Theorem get_repo_info_url (w : world) (returncode : Z) (stdout stderr : str)
    (pre : str) (sep : ascii) (owner tail : str) :
  procs w (spawned w) = Exited returncode stdout stderr ->
  strip stdout = pre ++ lit "github.com" ++ sep :: owner ++ lit "/" ++ tail ->
  first_at (lit "github.com") (strip stdout) (length pre) = true ->
  one_of ":/" sep = true ->
  owner <> [] -> forallb owner_chr owner = true ->
  tail <> [] -> forallb not_nl tail = true ->
  result_of get_repo_info w = Ok (owner, repo_name tail).
Proof.
  intros Hproc Hurl Hfirst Hsep Ho Hoc Ht Hnl.
  unfold result_of, get_repo_info. run_M. rewrite Hproc.
  unfold re_search. rewrite repo_url_pattern_parts. unfold Lit.
  destruct (search_from_first_at (lit "github.com")
              (Seq (Chr (one_of ":/")) repo_url_owner)
              (length pre) (strip stdout) None 0 Hfirst) as (prev' & E).
  destruct (match_at_repo_url prev' (length pre) sep owner tail
              Hsep Ho Hoc Ht Hnl) as (m & Em & G1 & G2).
  rewrite repo_url_pattern_parts in Em. unfold Lit in Em.
  assert (skipn (length pre) (strip stdout)
          = lit "github.com" ++ sep :: owner ++ lit "/" ++ tail) as Hskip.
  { rewrite Hurl, skipn_app, skipn_all, Nat.sub_diag. reflexivity. }
  change (0 + length pre) with (length pre) in E.
  rewrite E, Hskip, (search_from_hit _ _ _ _ _ Em). cbn [fst].
  now rewrite G1, G2.
Qed.

Definition world_ssh_remote : world :=
  MkWorld (fun _ => git_remote) 0 ∅ [].

Lemma get_repo_info_url_witness :
  result_of get_repo_info world_ssh_remote
  = Ok (lit "koder-cat", lit "k8s-ephemeral-environments").
Proof.
  apply (get_repo_info_url world_ssh_remote 0
           (lit "git@github.com:koder-cat/k8s-ephemeral-environments.git" ++ [nl])
           [] (lit "git@") ":" (lit "koder-cat")
           (lit "k8s-ephemeral-environments.git"));
    first [reflexivity | discriminate].
Defined.

(** An HTTPS remote without ".git", and a repository whose name has dots. *)
Example get_repo_info_https :
  result_of get_repo_info
    (MkWorld (fun _ => Exited 0 (lit "https://github.com/rocq-prover/rocq.git.io")
                              [])
             0 ∅ [])
  = Ok (lit "rocq-prover", lit "rocq.git.io").
Proof.
  apply (get_repo_info_url _ 0 (lit "https://github.com/rocq-prover/rocq.git.io")
           [] (lit "https://") "/" (lit "rocq-prover") (lit "rocq.git.io"));
    first [reflexivity | discriminate].
Qed.


(** ** The status of the local file *)

Lemma contains_here (p s : str) : startswith p s = true -> contains p s = true.
Proof. intros H. destruct s; simpl; now rewrite H. Qed.

Lemma contains_app_mid (p a b : str) : contains p (a ++ p ++ b) = true.
Proof.
  induction a as [|c a IH].
  - cbn [app]. apply contains_here, startswith_app.
  - cbn [app contains]. rewrite IH. apply orb_true_r.
Qed.

Definition is_hit (x : piece) : bool :=
  match x with Hit _ => true | Plain _ => false end.

(** Without a match, [sub] gives the subject back. *)
Lemma scan_no_hit (r : re) (f : rmatch -> str) :
  forall s prev pos,
    existsb is_hit (scan r prev pos 0 s) = false ->
    flat_map (fun x => match x with Hit m => f m | Plain c => [c] end)
             (scan r prev pos 0 s) = s.
Proof.
  induction s as [|c t IH]; intros prev pos H; cbn [scan] in *.
  - destruct (match_at r prev pos []); [discriminate|reflexivity].
  - destruct (match_at r prev pos (c :: t)); [discriminate|].
    cbn [existsb is_hit orb] in H. cbn [flat_map app]. now rewrite IH.
Qed.

(** With a match, what [sub] gives holds the replacement of that match. *)
Lemma pieces_hit (f : rmatch -> str) (ps : list piece) :
  existsb is_hit ps = true ->
  exists m a b,
    flat_map (fun x => match x with Hit m => f m | Plain c => [c] end) ps
    = a ++ f m ++ b.
Proof.
  intros H. apply existsb_exists in H as (x & Hin & Hx).
  destruct x as [c|m]; [discriminate|].
  apply in_split in Hin as (l1 & l2 & ->).
  exists m. eexists _, _. rewrite flat_map_app. cbn [flat_map]. reflexivity.
Qed.

Lemma re_sub_cases (r : re) (f : rmatch -> str) (s : str) :
  re_sub r f s = s \/ exists m a b, re_sub r f s = a ++ f m ++ b.
Proof.
  unfold re_sub, pieces.
  destruct (existsb is_hit (scan r None 0 0 s)) eqn:H.
  - right. now apply pieces_hit.
  - left. now apply scan_no_hit.
Qed.

(** X15.  The status update of [update_local_doc] either leaves the text as
    it is or gives a text that holds "**Status:** Done"; so a second update
    changes nothing. *)
Theorem sync_status_idempotent (is_done : bool) (content : str) :
  (sync_status is_done content = content
   \/ (is_done = true
       /\ contains (lit "**Status:** Done") content = false
       /\ contains (lit "**Status:** Done") (sync_status is_done content)
          = true))
  /\ sync_status is_done (sync_status is_done content)
     = sync_status is_done content.
Proof.
  assert (sync_status is_done content = content
          \/ (is_done = true
              /\ contains (lit "**Status:** Done") content = false
              /\ contains (lit "**Status:** Done")
                          (sync_status is_done content) = true)) as H.
  { unfold sync_status. destruct is_done; [|now left]. cbn [andb].
    destruct (contains (lit "**Status:** Done") content) eqn:Hd; [now left|].
    cbn [negb]. destruct (contains (lit "**Status:**") content).
    - destruct (re_sub_cases status_line_pattern
                  (fun _ => lit "**Status:** Done") content)
        as [E|(m & a & b & E)]; [now left|right].
      rewrite E. repeat split. apply contains_app_mid.
    - unfold re_sub1.
      destruct (re_search title_line_pattern content) as [m|]; [right|now left].
      repeat split.
      rewrite (app_assoc (group 1 m)), (app_assoc _ (lit "**Status:** Done")),
        <- (app_assoc _ [nl] (skipn _ _)), <- (app_assoc (_ ++ _) _ _),
        (app_assoc (firstn _ _)).
      apply contains_app_mid. }
  split; [exact H|].
  destruct H as [E|(-> & _ & H)]; [now rewrite !E|].
  unfold sync_status at 1. now rewrite H.
Qed.

(** ** What a dry run answers *)

Lemma answers_push_loop_dry (owner repo : str)
    (existing_issues : gmap str issue_json) (stories : list UserStory.t) :
  numbered existing_issues ->
  forall success,
    answers (push_loop owner repo existing_issues true stories success)
            (fun b => b = success).
Proof.
  intros Hnum. induction stories as [|story rest IH]; intros success;
    cbn [push_loop]; [now apply answers_ret|].
  eapply (answers_bind _ _ (fun ok => ok = true)).
  - unfold push_story.
    destruct (existing_issues !! UserStory.id story) as [issue|] eqn:Hi.
    + destruct (Hnum _ _ Hi) as [n Hn]. unfold issue_number_of. rewrite Hn.
      intros w. reflexivity.
    + intros w. reflexivity.
  - intros ok ->. apply IH.
Qed.


(** ** What a direction keeps a run from *)

Definition is_wrote (e : event) : bool :=
  match e with Wrote _ _ => true | _ => false end.

(** A computation whose events are all [allowed], and that changes no file
    without a [Wrote] event. *)
Definition confined {A} (allowed : event -> bool) (m : M A) : Prop :=
  forall w, exists evs,
    trace (world_after m w) = trace w ++ evs
    /\ forallb allowed evs = true
    /\ (existsb is_wrote evs = false -> files (world_after m w) = files w).

Create HintDb confined.

Section Confined.

Variable allowed : event -> bool.
Hypothesis Hlog : forall lvl msg, allowed (Log lvl msg) = true.
Hypothesis Hsleep : forall seconds, allowed (Sleep seconds) = true.
Hypothesis Hread :
  forall cmd, read_command cmd = true -> allowed (Spawn cmd) = true.

Lemma confined_still {A} (m : M A) :
  (forall w, world_after m w = w) -> confined allowed m.
Proof.
  intros H w. exists []. rewrite H, app_nil_r. auto.
Qed.

Lemma confined_ret {A} (a : A) : confined allowed (mret a).
Proof. now apply confined_still. Qed.

Lemma confined_raise {A} (e : exn) : confined allowed (@raise A e).
Proof. now apply confined_still. Qed.

Lemma confined_lift {A} (r : result A) : confined allowed (lift r).
Proof. now apply confined_still. Qed.

Lemma confined_read_text (p : Path) : confined allowed (read_text p).
Proof. now apply confined_still. Qed.

Lemma confined_path_exists (p : Path) : confined allowed (path_exists p).
Proof. now apply confined_still. Qed.

Lemma confined_bind {A B} (m : M A) (f : A -> M B) :
  confined allowed m -> (forall a, confined allowed (f a)) ->
  confined allowed (m ≫= f).
Proof.
  intros Hm Hf w. destruct (Hm w) as (evs & Htr & Hev & Hfl).
  unfold world_after in *. unfold mbind, M_bind, bind.
  destruct (m w) as [[a|e] w1]; cbn [snd] in *.
  - destruct (Hf a w1) as (evs' & Htr' & Hev' & Hfl').
    unfold world_after in *. exists (evs ++ evs').
    rewrite Htr', Htr, app_assoc, forallb_app, existsb_app, Hev, Hev'.
    split; [reflexivity|]. split; [reflexivity|].
    intros [H1 H2]%orb_false_iff. now rewrite Hfl', Hfl.
  - now exists evs.
Qed.

Lemma confined_except {A} (m handler : M A) :
  confined allowed m -> confined allowed handler ->
  confined allowed (except_ValueError m handler).
Proof.
  intros Hm Hh w. destruct (Hm w) as (evs & Htr & Hev & Hfl).
  unfold world_after in *. unfold except_ValueError.
  destruct (m w) as [[a|[|]] w1]; cbn [snd] in *; try now exists evs.
  destruct (Hh w1) as (evs' & Htr' & Hev' & Hfl').
  unfold world_after in *. exists (evs ++ evs').
  rewrite Htr', Htr, app_assoc, forallb_app, existsb_app, Hev, Hev'.
  split; [reflexivity|]. split; [reflexivity|].
  intros [H1 H2]%orb_false_iff. now rewrite Hfl', Hfl.
Qed.

Lemma confined_emit (e : event) :
  allowed e = true -> confined allowed (emit e).
Proof.
  intros He w. exists [e]. cbn. rewrite He. auto.
Qed.

Lemma confined_log (lvl : level) (msg : string) : confined allowed (log lvl msg).
Proof using Hlog. apply confined_emit, Hlog. Qed.

Lemma confined_sleep (seconds : nat) : confined allowed (sleep seconds).
Proof using Hsleep. apply confined_emit, Hsleep. Qed.

Lemma confined_subprocess_run (cmd : list str) :
  allowed (Spawn cmd) = true -> confined allowed (subprocess_run cmd).
Proof.
  intros Hc w. exists [Spawn cmd]. cbn. rewrite Hc. auto.
Qed.

Lemma confined_write_text (p : Path) (t : str) :
  allowed (Wrote (path_str p) t) = true -> confined allowed (write_text p t).
Proof.
  intros Hw w. unfold world_after, write_text.
  destruct (files w !! path_str p) as [f|]; [destruct (f_writable f)|];
    cbn [snd trace files].
  - exists [Wrote (path_str p) t]. cbn. rewrite Hw.
    split; [reflexivity|]. split; [reflexivity|discriminate].
  - exists []. rewrite app_nil_r. auto.
  - exists []. rewrite app_nil_r. auto.
Qed.

#[local] Hint Resolve confined_ret confined_raise confined_lift confined_read_text
  confined_path_exists confined_log confined_sleep : confined.

Ltac confined_step :=
  lazymatch goal with
  | |- confined _ (mbind _ _) => apply confined_bind; [|intros ?]
  | |- confined _ (except_ValueError _ _) => apply confined_except
  | |- confined _ (if ?b then _ else _) => destruct b
  | |- confined _ (match ?x with _ => _ end) => destruct x
  | |- confined _ _ => solve [auto with confined]
  end.

Ltac confined_steps := repeat confined_step.

Lemma confined_gh_attempts (args : list str) (retries : nat)
    (attempts : list nat) :
  allowed (Spawn (lit "gh" :: args)) = true ->
  forall last_error,
    confined allowed (gh_attempts args retries attempts last_error).
Proof using Hlog Hsleep.
  intros Hc. induction attempts as [|attempt rest IH]; intros last_error;
    cbn [gh_attempts]; [auto with confined|].
  apply confined_bind; [now apply confined_subprocess_run|].
  intros [returncode stdout stderr| |]; confined_steps.
Qed.

Lemma confined_run_gh_command (args : list str) :
  allowed (Spawn (lit "gh" :: args)) = true ->
  confined allowed (run_gh_command args).
Proof using Hlog Hsleep. intros Hc. now apply confined_gh_attempts. Qed.

Lemma confined_get_repo_info : confined allowed get_repo_info.
Proof using Hread.
  unfold get_repo_info.
  apply confined_bind; [now apply confined_subprocess_run, Hread|].
  intros o. confined_steps.
Qed.

Lemma confined_parse_all (story_files : list Path) :
  confined allowed (parse_all story_files).
Proof using Hlog.
  induction story_files as [|file_path rest IH]; cbn [parse_all];
    [auto with confined|].
  apply confined_bind; [unfold parse_user_story; confined_steps|].
  intros story. apply confined_bind; [exact IH|]. auto with confined.
Qed.

Lemma confined_index_issues (issues : list json_elem) :
  forall issue_map, confined allowed (index_issues issues issue_map).
Proof using Hlog.
  induction issues as [|j rest IH]; intros issue_map;
    [apply confined_ret|destruct j; cbn [index_issues]; confined_steps].
Qed.

#[local] Hint Resolve confined_get_repo_info confined_parse_all confined_index_issues
  : confined.

Lemma confined_get_existing_issues (json_loads : str -> option json)
    (owner repo : str) :
  confined allowed (get_existing_issues json_loads owner repo).
Proof using Hlog Hsleep Hread.
  unfold get_existing_issues.
  apply confined_bind; [now apply confined_run_gh_command, Hread|].
  intros [[returncode stdout] stderr]. confined_steps.
Qed.

(** The outbound loop, where every command is allowed. *)
Lemma confined_push_loop (owner repo : str)
    (existing_issues : gmap str issue_json) (dry_run : bool)
    (stories : list UserStory.t) :
  (forall cmd, allowed (Spawn cmd) = true) ->
  forall success,
    confined allowed
      (push_loop owner repo existing_issues dry_run stories success).
Proof using Hlog Hsleep.
  intros Hspawn. induction stories as [|story rest IH]; intros success;
    cbn [push_loop]; [auto with confined|].
  apply confined_bind; [|intros ok; apply IH].
  unfold push_story, issue_number_of, update_issue, create_issue.
  destruct (existing_issues !! UserStory.id story) as [issue|].
  - apply confined_bind; [destruct (number issue); auto with confined|].
    intros n. destruct dry_run; [auto with confined|].
    apply confined_bind; [apply confined_run_gh_command, Hspawn|].
    intros [[rc out] err]. confined_steps.
  - apply confined_bind; [|auto with confined].
    destruct dry_run; [auto with confined|].
    apply confined_bind; [apply confined_run_gh_command, Hspawn|].
    intros [[rc out] err]. confined_steps.
Qed.

(** The inbound loop, where every write is allowed. *)
Lemma confined_pull_loop (existing_issues : gmap str issue_json)
    (dry_run : bool) (stories : list UserStory.t) :
  (forall p t, allowed (Wrote p t) = true) ->
  confined allowed (pull_loop existing_issues dry_run stories).
Proof using Hlog.
  intros Hwrote. induction stories as [|story rest IH]; cbn [pull_loop];
    [auto with confined|].
  apply confined_bind; [|intros _; exact IH].
  unfold pull_story, update_local_doc.
  destruct (existing_issues !! UserStory.id story) as [issue|];
    [|auto with confined].
  apply confined_bind; [|auto with confined].
  apply confined_bind; [auto with confined|]. intros e.
  destruct (negb e); [confined_steps|].
  apply confined_bind; [auto with confined|]. intros [original|];
    [|confined_steps].
  destruct (negb _); [|auto with confined].
  destruct dry_run; [auto with confined|].
  apply confined_bind; [apply confined_write_text, Hwrote|].
  intros ok. confined_steps.
Qed.

End Confined.

(** Events of a run that creates and edits no issue. *)
Definition reads_github (e : event) : bool :=
  match e with Spawn cmd => read_command cmd | _ => true end.

(** Events of a run that writes no file. *)
Definition writes_nothing (e : event) : bool := negb (is_wrote e).

(** X17.  A run in the direction "from-github" (any direction but "both" and
    "to-github") runs no command but [git remote get-url origin] and
    [gh issue list]: it creates and edits no issue.  A run in the direction
    "to-github" (any direction but "both" and "from-github") writes no file. *)
Theorem sync_stories_direction (json_loads : str -> option json)
    (story_files : list Path) (direction : str) (dry_run : bool) (w : world) :
  exists evs,
    trace (world_after (sync_stories json_loads story_files direction dry_run) w)
    = trace w ++ evs
    /\ (direction_in direction ["both"; "to-github"]%string = false ->
        forall cmd, In (Spawn cmd) evs -> read_command cmd = true)
    /\ (direction_in direction ["both"; "from-github"]%string = false ->
        (forall p t, ~ In (Wrote p t) evs)
        /\ files (world_after
                    (sync_stories json_loads story_files direction dry_run) w)
           = files w).
Proof.
  set (pushes := direction_in direction ["both"; "to-github"]%string).
  set (pulls := direction_in direction ["both"; "from-github"]%string).
  set (allowed := fun e => (pushes || reads_github e)
                           && (pulls || writes_nothing e)).
  assert (confined allowed
            (sync_stories json_loads story_files direction dry_run)) as H.
  { assert (forall lvl msg, allowed (Log lvl msg) = true) as Hlog.
    { intros. unfold allowed. cbn. now rewrite !orb_true_r. }
    assert (forall seconds, allowed (Sleep seconds) = true) as Hsleep.
    { intros. unfold allowed. cbn. now rewrite !orb_true_r. }
    assert (forall cmd, read_command cmd = true -> allowed (Spawn cmd) = true)
      as Hread.
    { intros cmd Hc. unfold allowed. cbn. now rewrite Hc, !orb_true_r. }
    unfold sync_stories.
    apply confined_bind.
    { apply confined_except.
      - apply confined_bind; [now apply confined_get_repo_info|].
        intros r. apply confined_ret.
      - apply confined_bind; [now apply confined_log|].
        intros _. apply confined_ret. }
    intros [[owner repo]|]; [|apply confined_ret].
    apply confined_bind; [now apply confined_parse_all|]. intros stories.
    destruct (negb (nonempty stories)).
    { apply confined_bind; [now apply confined_log|].
      intros _. apply confined_ret. }
    apply confined_bind; [now apply confined_get_existing_issues|].
    intros existing. fold pushes pulls. apply confined_bind.
    - destruct pushes eqn:Hp; [|apply confined_ret].
      apply confined_push_loop; [exact Hlog|exact Hsleep|].
      intros cmd. unfold allowed. cbn. now rewrite orb_true_r.
    - intros success. apply confined_bind; [|intros _; apply confined_ret].
      destruct pulls eqn:Hp; [|apply confined_ret].
      apply confined_pull_loop; [exact Hlog|].
      intros p t. unfold allowed. cbn. now rewrite orb_true_r. }
  destruct (H w) as (evs & Htr & Hev & Hfl). exists evs.
  split; [exact Htr|]. rewrite forallb_forall in Hev. split.
  - intros Hp cmd Hin. specialize (Hev _ Hin). unfold allowed in Hev.
    rewrite Hp in Hev. cbn in Hev. now apply andb_true_iff in Hev as [Hev _].
  - intros Hp.
    assert (forall p t, ~ In (Wrote p t) evs) as Hno.
    { intros p t Hin. specialize (Hev _ Hin). unfold allowed in Hev.
      rewrite Hp in Hev. cbn in Hev. rewrite andb_false_r in Hev.
      discriminate. }
    split; [exact Hno|]. apply Hfl.
    destruct (existsb is_wrote evs) eqn:Hex; [|reflexivity].
    apply existsb_exists in Hex as ([| | |p t] & Hin & Hx); try discriminate.
    now destruct (Hno p t).
Qed.

(** ** The sections of a document *)

(** [\n##], what ends a section. *)
Definition next_header : str := nl :: lit "##".

(** [section_pattern] from the capture on, [(.*?)(?=\n##|\Z)], and from the
    blank line on, [\s*\n\n(.*?)(?=\n##|\Z)]. *)
Definition section_body : re :=
  Seq (Grp 1 (Rep any_chr 0 false))
      (Ahead (Alt (Seq (Chr (chr_eqb nl)) (Lit "##")) EndZ)).

Definition section_gap : re :=
  Seq (Rep is_space 0 true)
      (Seq (Chr (chr_eqb nl)) (Seq (Chr (chr_eqb nl)) section_body)).

Lemma section_pattern_parts (name : string) :
  section_pattern name = Seq (Lit "## ") (Seq (Lit name) section_gap).
Proof. reflexivity. Qed.

Lemma contains_suffix (p u1 u2 : str) :
  contains p (u1 ++ u2) = false -> startswith p u2 = false.
Proof.
  induction u1 as [|c u1 IH]; cbn [app]; intros H.
  - destruct u2; simpl in H; now apply orb_false_iff in H as [H _].
  - simpl in H. apply orb_false_iff in H as [_ H]. now apply IH.
Qed.

(** The text ends here or goes on with the next header. *)
Definition section_end (post : str) : bool :=
  match post with [] => true | _ => startswith next_header post end.

Lemma next_header_not_here (u2 post : str) :
  u2 <> [] -> startswith next_header u2 = false -> section_end post = true ->
  startswith next_header (u2 ++ post) = false.
Proof.
  intros Hne Hu2 Hpost.
  assert (startswith (lit "#") post = false) as Hp.
  { destruct post as [|c post]; [reflexivity|]. cbn [section_end] in Hpost.
    unfold next_header in Hpost. cbn [startswith] in Hpost.
    apply andb_true_iff in Hpost as [Hc _]. apply chr_eqb_eq in Hc. now subst c. }
  destruct u2 as [|a [|b [|c u2]]]; [congruence|..].
  - unfold next_header. cbn [app startswith lit list_ascii_of_string].
    destruct post as [|d post]; [now rewrite andb_false_r|].
    cbn [startswith lit list_ascii_of_string] in Hp.
    rewrite andb_true_r in Hp. cbn [startswith]. rewrite Hp.
    now rewrite andb_false_r.
  - unfold next_header in *. cbn [app startswith lit list_ascii_of_string] in *.
    destruct post as [|d post]; [now rewrite !andb_false_r|].
    cbn [startswith lit list_ascii_of_string] in Hp.
    rewrite andb_true_r in Hp. cbn [startswith]. rewrite Hp.
    now rewrite !andb_false_r.
  - exact Hu2.
Qed.

Lemma exec_section_body (g post : str) (st : mstate) :
  ms_rest st = g ++ post ->
  contains next_header g = false -> section_end post = true ->
  exists x,
    exec section_body st Some = Some x
    /\ ms_groups x = (1, g) :: ms_groups st.
Proof.
  intros Hst Hg Hpost.
  exists (ms_capture 1 st (ms_after g post st)). split.
  - change (exec section_body st Some)
      with (rep_lazy any_chr 0
              (fun st' =>
                 exec (Ahead (Alt (Seq (Chr (chr_eqb nl)) (Lit "##")) EndZ))
                      (ms_capture 1 st st') Some)
              0 (ms_rest st) st).
    rewrite Hst. apply rep_lazy_first.
    + exact Hst.
    + now apply forallb_forall.
    + lia.
    + intros u1 u2 E Hu2 _.
      assert (startswith next_header (u2 ++ post) = false) as Hno.
      { apply next_header_not_here; [exact Hu2| |exact Hpost].
        rewrite E in Hg. now apply contains_suffix in Hg. }
      cbn [exec]. unfold at_end. rewrite !capture_rest, !ms_rest_after.
      destruct u2 as [|c u2]; [congruence|]. cbn [app] in *.
      unfold next_header in Hno. cbn [startswith] in Hno.
      destruct (chr_eqb nl c); [|reflexivity]. cbn [andb] in Hno.
      unfold Lit. rewrite exec_Str_none; [reflexivity|exact Hno].
    + cbn [exec]. unfold at_end. rewrite !capture_rest, !ms_rest_after.
      destruct post as [|c post]; [reflexivity|].
      cbn [section_end] in Hpost. unfold next_header in Hpost.
      cbn [startswith] in Hpost. apply andb_true_iff in Hpost as [Hc Hpost].
      rewrite Hc. apply startswith_spec in Hpost as [t Ht].
      unfold Lit. rewrite (exec_Str (lit "##") t) by exact Ht.
      reflexivity.
  - now apply capture_here.
Qed.

Lemma exec_section_gap (c : ascii) (g post : str) (st : mstate) :
  ms_rest st = nl :: nl :: (c :: g) ++ post ->
  is_space c = false ->
  exec section_gap st Some
  = exec section_body
      (ms_after [nl; nl] ((c :: g) ++ post) st) Some.
Proof.
  intros Hst Hc.
  assert (chr_eqb nl c = false) as Hnl.
  { destruct (chr_eqb nl c) eqn:E; [|reflexivity].
    apply chr_eqb_eq in E. subst c. discriminate. }
  unfold section_gap. cbn [exec]. rewrite Hst.
  cbn [rep_greedy app]. change (is_space nl) with true. cbn [ms_step ms_rest].
  rewrite Hc. cbn [Nat.leb]. rewrite !Hnl, Hst, !chr_eqb_refl.
  reflexivity.
Qed.

Lemma exec_Str_app (a b : str) (k : mstate -> option mstate) :
  forall st,
    exec (Str_ (a ++ b)) st k = exec (Str_ a) st (fun st' => exec (Str_ b) st' k).
Proof.
  induction a as [|c a IH]; intros st; [reflexivity|].
  cbn [app Str_ exec]. destruct (ms_rest st) as [|d t]; [reflexivity|].
  destruct (chr_eqb c d); [apply IH|reflexivity].
Qed.

Lemma search_from_ext (r1 r2 : re) :
  (forall prev pos s, match_at r1 prev pos s = match_at r2 prev pos s) ->
  forall s prev pos, search_from r1 prev pos s = search_from r2 prev pos s.
Proof.
  intros H. induction s as [|c t IH]; intros prev pos; cbn [search_from];
    rewrite H; [reflexivity|]. now rewrite IH.
Qed.

(** The header of a section. *)
Definition header_of (name : string) : str := lit "## " ++ lit name.

Lemma section_pattern_header (name : string) (prev : option ascii) (pos : nat)
    (s : str) :
  match_at (section_pattern name) prev pos s
  = match_at (Seq (Str_ (header_of name)) section_gap) prev pos s.
Proof.
  unfold match_at. rewrite section_pattern_parts. unfold Lit, header_of.
  change (exec (Seq (Str_ ?p) ?r) ?s ?k)
    with (exec (Str_ p) s (fun st' => exec r st' k)).
  now rewrite exec_Str_app.
Qed.

(** A document whose section [name] holds [g]: the header stands at the
    offset [length pre] and nowhere before, a blank line follows it, then
    [g], which does not start with white space and holds no [\n##], then the
    next header or the end. *)
Definition section_at (content pre : str) (name : string) (g post : str)
    : Prop :=
  content = pre ++ header_of name ++ [nl; nl] ++ g ++ post
  /\ first_at (header_of name) content (length pre) = true
  /\ nonempty g = true /\ stops is_space g = true
  /\ contains next_header g = false
  /\ section_end post = true.

Lemma re_search_section (content pre : str) (name : string) (g post : str) :
  section_at content pre name g post ->
  exists m,
    re_search (section_pattern name) content = Some m /\ group 1 m = g.
Proof.
  intros (Hc & Hfirst & Hne & Hsp & Hg & Hpost).
  unfold re_search.
  rewrite (search_from_ext _ _ (section_pattern_header name)).
  destruct (search_from_first_at (header_of name) section_gap
              (length pre) content None 0 Hfirst) as (prev' & E).
  change (0 + length pre) with (length pre) in E. rewrite E.
  assert (skipn (length pre) content
          = header_of name ++ [nl; nl] ++ g ++ post) as ->.
  { rewrite Hc, skipn_app, skipn_all, Nat.sub_diag. reflexivity. }
  destruct g as [|c g]; [discriminate|]. cbn [stops] in Hsp.
  apply negb_true_iff in Hsp.
  set (st0 := MState prev' (length pre)
                (header_of name ++ [nl; nl] ++ (c :: g) ++ post) []).
  set (st1 := ms_after (header_of name) ([nl; nl] ++ (c :: g) ++ post) st0).
  destruct (exec_section_body (c :: g) post
              (ms_after [nl; nl] ((c :: g) ++ post) st1))
    as (x & Ex & Gx); [apply ms_rest_after|exact Hg|exact Hpost|].
  assert (exec (Seq (Str_ (header_of name)) section_gap) st0 Some = Some x)
    as Hexec.
  { change (exec (Seq (Str_ ?p) ?r) ?s ?k)
      with (exec (Str_ p) s (fun st' => exec r st' k)).
    rewrite (exec_Str (header_of name) ([nl; nl] ++ (c :: g) ++ post))
      by reflexivity.
    fold st1. rewrite (exec_section_gap c g post st1);
      [exact Ex|apply ms_rest_after|exact Hsp]. }
  eexists. split.
  - apply search_from_hit. unfold match_at. fold st0. rewrite Hexec. reflexivity.
  - unfold group. cbn [m_groups]. rewrite Gx. cbn [assoc_nat Nat.eqb].
    reflexivity.
Qed.


(** ** Checkbox lines, written and read back *)

Lemma split_nl_aux_end (l : str) :
  forall cur, forallb not_nl l = true -> split_nl_aux cur l = [rev cur ++ l].
Proof.
  induction l as [|c l IH]; intros cur H; cbn [split_nl_aux].
  - now rewrite app_nil_r.
  - simpl in H. apply andb_true_iff in H as [Hc H].
    unfold not_nl in Hc. apply negb_true_iff in Hc. rewrite Hc, (IH _ H).
    cbn [rev]. now rewrite <- app_assoc.
Qed.

Lemma split_nl_aux_nl (l rest : str) :
  forall cur,
    forallb not_nl l = true ->
    split_nl_aux cur (l ++ nl :: rest) = (rev cur ++ l) :: split_nl_aux [] rest.
Proof.
  induction l as [|c l IH]; intros cur H; cbn [app split_nl_aux].
  - now rewrite chr_eqb_refl, app_nil_r.
  - simpl in H. apply andb_true_iff in H as [Hc H].
    unfold not_nl in Hc. apply negb_true_iff in Hc. rewrite Hc, (IH _ H).
    cbn [rev]. now rewrite <- app_assoc.
Qed.

(** [split] undoes [join] on lines without a line break. *)
Lemma split_nl_join (lines : list str) :
  lines <> [] -> forallb (forallb not_nl) lines = true ->
  split_nl (join [nl] lines) = lines.
Proof.
  unfold split_nl. induction lines as [|l lines IH]; [congruence|].
  intros _ H. cbn [forallb] in H. apply andb_true_iff in H as [Hl H].
  destruct lines as [|l' lines].
  - cbn [join]. now rewrite split_nl_aux_end.
  - rewrite join_cons by discriminate. cbn [app].
    rewrite split_nl_aux_nl by exact Hl. cbn [rev app].
    now rewrite IH.
Qed.

Lemma scan_skip_to (r : re) (u rest : str) :
  forall prev pos, exists prev',
    scan r prev pos (length u) (u ++ rest)
    = scan r prev' (pos + length u) 0 rest.
Proof.
  induction u as [|c u IH]; intros prev pos.
  - exists prev. now rewrite Nat.add_0_r.
  - destruct (IH (Some c) (S pos)) as (p' & E). exists p'.
    cbn [length app scan]. rewrite E. f_equal. lia.
Qed.

(** Past the start of the line, [^- \[.\]\s*] matches nowhere. *)
Lemma item_prefix_past_start (f : rmatch -> str) (s : str) :
  forall prev pos,
    0 < pos ->
    flat_map (fun x => match x with Hit m => f m | Plain c => [c] end)
             (scan item_prefix_pattern prev pos 0 s) = s.
Proof.
  assert (forall prev pos t, 0 < pos ->
            match_at item_prefix_pattern prev pos t = None) as Hnone.
  { intros prev pos t Hpos. unfold match_at, item_prefix_pattern.
    cbn [Cat exec ms_pos]. destruct pos; [lia|reflexivity]. }
  induction s as [|c t IH]; intros prev pos Hpos; cbn [scan];
    rewrite Hnone by exact Hpos; [reflexivity|].
  cbn [flat_map app]. rewrite IH by lia. reflexivity.
Qed.

(** The text of a checkbox line, as [parse_checkbox_section] takes it. *)
Lemma item_prefix_removed (d : ascii) (ws t : str) :
  not_nl d = true -> forallb is_space ws = true -> stops is_space t = true ->
  re_sub item_prefix_pattern (fun _ => [])
         (lit "- [" ++ d :: lit "]" ++ ws ++ t) = t.
Proof.
  intros Hd Hws Ht. unfold re_sub, pieces.
  change (lit "- [" ++ d :: lit "]" ++ ws ++ t)
    with ("-"%char :: lit " [" ++ d :: lit "]" ++ ws ++ t).
  cbn [scan].
  assert (match_at item_prefix_pattern None 0
            ("-"%char :: lit " [" ++ d :: lit "]" ++ ws ++ t)
          = Some (RMatch 0 (5 + length ws)
                         (firstn (5 + length ws - 0)
                            ("-"%char :: lit " [" ++ d :: lit "]" ++ ws ++ t))
                         [])) as ->.
  { unfold match_at, item_prefix_pattern, Lit. cbn [Cat].
    change (exec (Seq Bos ?r) ?s ?k) with (if Nat.eqb (ms_pos s) 0
                                           then exec r s k else None).
    cbn [ms_pos Nat.eqb].
    change (exec (Seq (Str_ ?p) ?r) ?s ?k)
      with (exec (Str_ p) s (fun st' => exec r st' k)).
    rewrite (exec_Str (lit "- [") (d :: lit "]" ++ ws ++ t)) by reflexivity.
    change (exec (Seq (Chr ?p) ?r) ?s ?k)
      with (exec (Chr p) s (fun st' => exec r st' k)).
    rewrite (exec_Chr _ d (lit "]" ++ ws ++ t));
      [|apply ms_rest_after|exact Hd].
    change (exec (Seq (Str_ ?p) ?r) ?s ?k)
      with (exec (Str_ p) s (fun st' => exec r st' k)).
    rewrite (exec_Str (lit "]") (ws ++ t)) by reflexivity.
    cbn [exec]. rewrite ms_rest_after.
    erewrite (rep_greedy_longest is_space 0 Some _ t Ht ws 0);
      [|apply ms_rest_after|exact Hws|lia|reflexivity].
    rewrite ms_pos_after, ms_groups_after. cbn. reflexivity. }
  unfold m_len. cbn [m_end m_start]. rewrite Nat.sub_0_r.
  cbn [Nat.add Nat.eqb app Nat.sub]. rewrite ?Nat.sub_0_r.
  change (S (S (S (S (length ws)))))
    with (length (lit " [" ++ d :: lit "]")  + length ws).
  rewrite <- length_app.
  change (lit " [" ++ d :: lit "]" ++ ws ++ t)
    with ((lit " [" ++ d :: lit "]") ++ ws ++ t).
  rewrite (app_assoc _ ws t).
  destruct (scan_skip_to item_prefix_pattern
              ((lit " [" ++ d :: lit "]") ++ ws) t (Some "-"%char) 1)
    as (p' & ->).
  cbn [flat_map app]. apply item_prefix_past_start. lia.
Qed.

Lemma lstrip_id (s : str) : stops is_space s = true -> lstrip s = s.
Proof.
  destruct s as [|c s]; [reflexivity|]. cbn [stops lstrip].
  intros H%negb_true_iff. now rewrite H.
Qed.

Lemma lstrip_fixed (s : str) : lstrip s = s -> stops is_space s = true.
Proof.
  destruct s as [|c s]; [reflexivity|]. cbn [stops lstrip].
  destruct (is_space c) eqn:E; [|reflexivity]. intros H.
  pose proof (lstrip_length s) as Hl. rewrite H in Hl. simpl in Hl. lia.
Qed.

(** A trimmed text ends as it starts: not with white space. *)
Lemma trimmed_ends (t : str) :
  trimmed t = true ->
  stops is_space t = true /\ stops is_space (rev t) = true.
Proof.
  intros H. pose proof (trimmed_stops t H) as Hs. split; [exact Hs|].
  unfold trimmed in H. apply str_eqb_eq in H. unfold strip in H.
  rewrite (lstrip_id t Hs) in H. unfold rstrip in H.
  apply lstrip_fixed. apply (f_equal (@rev ascii)) in H.
  now rewrite rev_involutive in H.
Qed.

Lemma strip_checkbox_line (marker t : str) :
  stops is_space marker = true -> marker <> [] ->
  stops is_space (rev marker) = true ->
  trimmed t = true ->
  strip (marker ++ lit " " ++ t)
  = if nonempty t then marker ++ lit " " ++ t else marker.
Proof.
  intros Hm Hne Hrm Ht. destruct (trimmed_ends t Ht) as [_ Hrt].
  unfold strip. rewrite lstrip_id by (destruct marker; [congruence|exact Hm]).
  unfold rstrip. destruct t as [|c t]; cbn [nonempty].
  - rewrite app_nil_r, rev_app_distr. cbn [lit list_ascii_of_string rev app].
    change (is_space " ") with true. cbn [lstrip].
    change (lstrip (" "%char :: rev marker)) with (lstrip (rev marker)).
    rewrite (lstrip_id _ Hrm). apply rev_involutive.
  - rewrite lstrip_id; [apply rev_involutive|].
    rewrite !rev_app_distr.
    destruct (rev (c :: t)) as [|e r] eqn:E.
    + apply (f_equal (@length ascii)) in E. rewrite length_rev in E.
      discriminate.
    + exact Hrt.
Qed.

(** An item whose text is trimmed. *)
Definition readable (it : item) : bool := trimmed (text it).

(** The line [build_issue_body] writes for an item is read back as that
    item. *)
Lemma parse_checkbox_line_round_trip (it : item) :
  readable it = true -> parse_checkbox_line (checkbox_line it) = [it].
Proof.
  unfold readable. intros Ht. destruct (trimmed_ends _ Ht) as [Hs _].
  destruct it as [t [|]]; cbn [text checked] in *;
    unfold parse_checkbox_line, checkbox_line; cbn [text checked].
  - change (lit "- " ++ lit "[x]" ++ lit " " ++ t)
      with (lit "- [x]" ++ lit " " ++ t).
    rewrite (strip_checkbox_line (lit "- [x]") t) by (try exact Ht; easy).
    destruct t as [|c t]; cbn [nonempty].
    + change (lit "- [x]") with (lit "- [" ++ "x"%char :: lit "]" ++ [] ++ []).
      rewrite item_prefix_removed by reflexivity. reflexivity.
    + change (lit "- [x]" ++ lit " " ++ c :: t)
        with (lit "- [" ++ "x"%char :: lit "]" ++ lit " " ++ c :: t).
      rewrite item_prefix_removed by (try exact Hs; reflexivity).
      reflexivity.
  - change (lit "- " ++ lit "[ ]" ++ lit " " ++ t)
      with (lit "- [ ]" ++ lit " " ++ t).
    rewrite (strip_checkbox_line (lit "- [ ]") t) by (try exact Ht; easy).
    destruct t as [|c t]; cbn [nonempty].
    + change (lit "- [ ]") with (lit "- [" ++ " "%char :: lit "]" ++ [] ++ []).
      rewrite item_prefix_removed by reflexivity. reflexivity.
    + change (lit "- [ ]" ++ lit " " ++ c :: t)
        with (lit "- [" ++ " "%char :: lit "]" ++ lit " " ++ c :: t).
      rewrite item_prefix_removed by (try exact Hs; reflexivity).
      reflexivity.
Qed.

(** A line that is no checkbox and no header. *)
Definition other_line (l : str) : bool :=
  forallb not_nl l && negb (startswith (lit "##") l)
  && negb (startswith (lit "- [") (strip l)).

Lemma checkbox_line_plain (it : item) :
  forallb not_nl (text it) = true ->
  forallb not_nl (checkbox_line it) = true
  /\ startswith (lit "##") (checkbox_line it) = false.
Proof.
  intros H. unfold checkbox_line. split; [|reflexivity].
  rewrite !forallb_app, H. now destruct (checked it).
Qed.

Lemma startswith_header_join (l : str) (more : list str) :
  forallb not_nl l = true -> startswith (lit "##") l = false ->
  startswith (lit "##") (join [nl] (l :: more)) = false.
Proof.
  intros Hnl Hl. destruct more as [|l' more]; [exact Hl|].
  rewrite join_cons by discriminate.
  destruct l as [|a [|b l]]; [reflexivity| |exact Hl].
  cbn [app lit list_ascii_of_string startswith].
  now rewrite andb_false_r.
Qed.

(** Lines without a line break, none but the first starting with "##",
    joined: no header starts inside. *)
Lemma contains_next_header_join (lines : list str) :
  forallb (forallb not_nl) lines = true ->
  forallb (fun l => negb (startswith (lit "##") l)) (tl lines) = true ->
  contains next_header (join [nl] lines) = false.
Proof.
  assert (forall l rest,
            forallb not_nl l = true ->
            contains next_header rest = false ->
            startswith next_header rest = false ->
            contains next_header (l ++ rest) = false) as Hline.
  { induction l as [|c l IH]; intros rest Hl Hrest Hs; [exact Hrest|].
    simpl in Hl. apply andb_true_iff in Hl as [Hc Hl].
    cbn [app contains]. rewrite (IH rest Hl Hrest Hs), orb_false_r.
    unfold next_header. cbn [startswith].
    now rewrite (not_nl_false c Hc). }
  induction lines as [|l lines IH]; [reflexivity|].
  intros Hnl Hhd. cbn [forallb] in Hnl. apply andb_true_iff in Hnl as [Hl Hnl].
  destruct lines as [|l' lines].
  - cbn [join]. rewrite <- (app_nil_r l). now apply Hline.
  - rewrite join_cons by discriminate. cbn [tl forallb] in Hhd.
    apply andb_true_iff in Hhd as [Hl' Hhd]. apply negb_true_iff in Hl'.
    assert (forallb not_nl l' = true) as Hl'nl.
    { cbn [forallb] in Hnl. now apply andb_true_iff in Hnl. }
    assert (startswith (lit "##") (join [nl] (l' :: lines)) = false) as Hs
      by now apply startswith_header_join.
    assert (contains next_header (join [nl] (l' :: lines)) = false) as Hc.
    { apply IH; [exact Hnl|]. cbn [tl].
      destruct lines as [|l'' lines]; [reflexivity|exact Hhd]. }
    apply Hline; [exact Hl| |].
    + cbn [app contains]. rewrite Hc, orb_false_r.
      unfold next_header. cbn [startswith]. now rewrite chr_eqb_refl.
    + unfold next_header. cbn [app startswith]. now rewrite chr_eqb_refl.
Qed.

Lemma parse_other_line (l : str) :
  other_line l = true -> parse_checkbox_line l = [].
Proof.
  unfold other_line, parse_checkbox_line.
  intros [_ H%negb_true_iff]%andb_true_iff. now rewrite H.
Qed.

Lemma parse_lines_round_trip (items : list item) (others : list str) :
  forallb readable items = true -> forallb other_line others = true ->
  flat_map parse_checkbox_line (map checkbox_line items ++ others) = items.
Proof.
  intros Hi Ho. rewrite flat_map_app.
  assert (flat_map parse_checkbox_line others = []) as ->.
  { induction others as [|l others IH]; [reflexivity|].
    cbn [forallb] in Ho. apply andb_true_iff in Ho as [Hl Ho].
    cbn [flat_map]. now rewrite (parse_other_line l Hl), (IH Ho). }
  rewrite app_nil_r. induction items as [|it items IH]; [reflexivity|].
  cbn [forallb] in Hi. apply andb_true_iff in Hi as [Hit Hi].
  cbn [map flat_map]. now rewrite (parse_checkbox_line_round_trip it Hit), (IH Hi).
Qed.


(** A story file: a title, two tasks, notes. *)
Definition text_tasks : str :=
  unlines ["# US-002: Cache"; ""; "## Tasks"; ""; "- [x] measure";
           "- [ ] tune the cache"; ""; "## Notes"; ""; "none"].

Definition pre_tasks : str := unlines ["# US-002: Cache"; ""; ""].

Definition post_tasks : str := nl :: unlines ["## Notes"; ""; "none"].



(** ** The number of a new issue *)

Lemma issue_url_match (prev : option ascii) (pos : nat) (digits rest : str) :
  digits <> [] -> forallb is_digit digits = true -> stops is_digit rest = true ->
  exists m,
    match_at (Seq (Str_ (lit "/issues/")) (Grp 1 (Rep is_digit 1 true)))
             prev pos (lit "/issues/" ++ digits ++ rest) = Some m
    /\ group 1 m = digits.
Proof.
  intros Hne Hd Hr. unfold match_at.
  change (exec (Seq (Str_ ?p) ?r) ?s ?k)
    with (exec (Str_ p) s (fun st' => exec r st' k)).
  rewrite (exec_Str (lit "/issues/") (digits ++ rest)) by reflexivity.
  cbn [exec]. rewrite ms_rest_after.
  erewrite (rep_greedy_longest is_digit 1 _ _ rest Hr digits 0);
    [|apply ms_rest_after|exact Hd|destruct digits; [congruence|simpl; lia]
     |reflexivity].
  eexists. split; [reflexivity|]. unfold group. cbn [m_groups].
  rewrite capture_here by apply ms_rest_after.
  cbn [assoc_nat Nat.eqb]. reflexivity.
Qed.

(** X20.  What [create_issue] makes of the answer of [gh issue create]: a
    failure that is logged when gh exits with an error; a failure without a
    log line when gh succeeds and prints no "/issues/"; success, with the
    number made of all the digits after the first "/issues/", when these
    digits are there (and are not more than [int()] takes). *)
Theorem create_issue_outcome (owner repo : str) (story : UserStory.t)
    (w w1 : world) (returncode : Z) (stdout stderr : str) :
  run_gh_command
    [lit "issue"; lit "create"; lit "--repo"; slash owner repo;
     lit "--title"; sanitize_text (UserStory.title story);
     lit "--body"; build_issue_body story;
     lit "--label"; join (lit ",") (create_labels story)] w
  = (Ok (returncode, stdout, stderr), w1) ->
  (returncode <> 0%Z ->
   create_issue owner repo story false w
   = (Ok (false, None),
      MkWorld (procs w1) (spawned w1) (files w1)
              (trace w1 ++ [Log ERROR (lit "Error creating issue")])))
  /\ (returncode = 0%Z -> contains (lit "/issues/") stdout = false ->
      create_issue owner repo story false w = (Ok (false, None), w1))
  /\ (returncode = 0%Z ->
      forall pre digits rest,
        stdout = pre ++ lit "/issues/" ++ digits ++ rest ->
        first_at (lit "/issues/") stdout (length pre) = true ->
        digits <> [] -> forallb is_digit digits = true ->
        stops is_digit rest = true ->
        length digits <= int_max_str_digits ->
        create_issue owner repo story false w
        = (Ok (true, Some (digits_val digits)), w1)).
Proof.
  intros Hrun. unfold create_issue. run_M. rewrite Hrun.
  split; [|split].
  - intros Hrc. apply Z.eqb_neq in Hrc. now rewrite Hrc.
  - intros -> Hno. cbn [Z.eqb negb]. unfold re_search, issue_url_pattern, Lit.
    now rewrite search_from_absent.
  - intros -> pre digits rest Hout Hfirst Hne Hd Hr Hlen. cbn [Z.eqb negb].
    unfold re_search, issue_url_pattern, Lit.
    destruct (search_from_first_at (lit "/issues/")
                (Grp 1 (Rep is_digit 1 true)) (length pre) stdout None 0 Hfirst)
      as (prev' & E).
    change (0 + length pre) with (length pre) in E. rewrite E.
    assert (skipn (length pre) stdout = lit "/issues/" ++ digits ++ rest) as ->.
    { rewrite Hout, skipn_app, skipn_all, Nat.sub_diag. reflexivity. }
    destruct (issue_url_match prev' (length pre) digits rest Hne Hd Hr)
      as (m & Em & G).
    rewrite (search_from_hit _ _ _ _ _ Em), G.
    rewrite py_int_digit_run; [reflexivity| |exact Hlen].
    split; [exact Hd|]. destruct digits; [congruence|simpl; lia].
Qed.

Definition issue_create_args : list str :=
  [lit "issue"; lit "create"; lit "--repo"; slash (lit "o") (lit "r");
   lit "--title"; sanitize_text (UserStory.title story_setup);
   lit "--body"; build_issue_body story_setup;
   lit "--label"; join (lit ",") (create_labels story_setup)].

Definition world_issue_created : world :=
  MkWorld (fun _ => Exited 0 (lit "https://github.com/o/r/issues/42" ++ [nl]) [])
          0 ∅ [].

Lemma create_issue_outcome_witness :
  result_of (create_issue (lit "o") (lit "r") story_setup false)
            world_issue_created
  = Ok (true, Some 42%Z).
Proof.
  destruct (run_gh_command issue_create_args world_issue_created)
    as [r w1] eqn:Hrun.
  assert (r = Ok (0%Z, lit "https://github.com/o/r/issues/42" ++ [nl], []))
    as ->.
  { vm_compute in Hrun. now injection Hrun as <- _. }
  destruct (create_issue_outcome (lit "o") (lit "r") story_setup
              world_issue_created w1 0
              (lit "https://github.com/o/r/issues/42" ++ [nl]) [] Hrun)
    as (_ & _ & H).
  unfold result_of.
  rewrite (H eq_refl (lit "https://github.com/o/r") (lit "42") [nl]);
    first [reflexivity | discriminate | (vm_compute; lia)].
Defined.

(** ** The inbound patch, read back *)

(** The start of a checkbox marker. *)
Definition marker_start : str := lit "- [".

(** A line without a line break and without the start of a marker. *)
Definition inert (l : str) : bool :=
  forallb not_nl l && negb (contains marker_start l).

Lemma line_match_marker (s : str) :
  startswith marker_start s = false -> line_match s = None.
Proof.
  unfold line_match, marker_start.
  destruct s as [|a [|b [|c [|d [|e w]]]]]; try reflexivity.
  cbn [startswith lit list_ascii_of_string]. rewrite andb_true_r.
  intros H. destruct (chr_eqb "-" a), (chr_eqb " " b), (chr_eqb "[" c);
    try discriminate; reflexivity.
Qed.

Lemma dangling_here_marker (s : str) :
  startswith marker_start s = false -> dangling_here s = false.
Proof.
  unfold dangling_here, marker_start.
  destruct s as [|a [|b [|c [|d [|e w]]]]]; try reflexivity.
  cbn [startswith lit list_ascii_of_string]. rewrite andb_true_r.
  intros H. destruct (chr_eqb "-" a), (chr_eqb " " b), (chr_eqb "[" c);
    try discriminate; reflexivity.
Qed.

Lemma contains_cons (p : str) (c : ascii) (s : str) :
  contains p (c :: s) = false ->
  startswith p (c :: s) = false /\ contains p s = false.
Proof. cbn [contains]. now intros H%orb_false_iff. Qed.

Lemma no_marker_dangling (s : str) :
  contains marker_start s = false -> dangling s = false.
Proof.
  induction s as [|c s IH]; [reflexivity|].
  intros [Hs Hc]%contains_cons. cbn [dangling].
  now rewrite (dangling_here_marker _ Hs), (IH Hc).
Qed.

Lemma no_marker_render (f : rmatch -> str) (s : str) :
  contains marker_start s = false -> line_render f s = s.
Proof.
  induction s as [|c s IH]; [reflexivity|].
  intros [Hs Hc]%contains_cons. cbn [line_render].
  now rewrite (line_match_marker _ Hs), (IH Hc).
Qed.

Lemma inert_spec (l : str) :
  inert l = true ->
  forallb not_nl l = true /\ contains marker_start l = false.
Proof.
  unfold inert. intros [H1 H2%negb_true_iff]%andb_true_iff. now split.
Qed.

Lemma inert_settled (l : str) : inert l = true -> settled l = true.
Proof.
  intros [Hnl Hm]%inert_spec. unfold settled.
  now rewrite Hnl, (no_marker_dangling l Hm).
Qed.

Lemma inert_render (f : rmatch -> str) (l : str) :
  inert l = true -> line_render f l = l.
Proof. intros [_ Hm]%inert_spec. now apply no_marker_render. Qed.

(** [strip] keeps a part of the string. *)
Lemma strip_factor (l : str) : exists a b, l = a ++ strip l ++ b.
Proof.
  destruct (lstrip_span l) as (a & Ea & _).
  destruct (lstrip_span (rev (lstrip l))) as (b & Eb & _).
  exists a, (rev b). unfold strip, rstrip.
  rewrite <- rev_app_distr, <- Eb, rev_involutive. exact Ea.
Qed.

Lemma inert_other_line (l : str) :
  inert l = true -> startswith (lit "##") l = false -> other_line l = true.
Proof.
  intros [Hnl Hm]%inert_spec Hh. unfold other_line. rewrite Hnl, Hh.
  cbn [negb andb]. apply negb_true_iff.
  destruct (startswith (lit "- [") (strip l)) eqn:E; [|reflexivity].
  apply startswith_spec in E as [t Et].
  destruct (strip_factor l) as (a & b & El). rewrite Et, <- app_assoc in El.
  rewrite El in Hm. unfold marker_start in Hm.
  now rewrite contains_app_mid in Hm.
Qed.

(** An item whose line the reconciliation reads as it was written: the text
    is not empty, trimmed, on one line and without the start of a marker. *)
Definition clean_box (it : item) : bool :=
  nonempty (text it) && trimmed (text it) && inert (text it).

(** The item with the state the issue gives its text, if it gives one. *)
Definition reconciled (issue_body : str) (it : item) : item :=
  Item (text it)
       (if bool_decide (text it ∈ issue_checked issue_body) then true
        else if bool_decide (text it ∈ issue_unchecked issue_body) then false
        else checked it).

Lemma clean_box_spec (it : item) :
  clean_box it = true ->
  text it <> [] /\ strip (text it) = text it
  /\ stops is_space (text it) = true
  /\ forallb not_nl (text it) = true
  /\ contains marker_start (text it) = false.
Proof.
  unfold clean_box. intros [[H1 H2]%andb_true_iff H3]%andb_true_iff.
  apply inert_spec in H3 as [H3 H4].
  split; [now destruct (text it)|]. split; [now apply str_eqb_eq|].
  split; [now apply trimmed_stops|]. now split.
Qed.

Lemma checkbox_line_chars (it : item) :
  exists d,
    checkbox_line it
    = "-"%char :: " "%char :: "["%char :: d :: "]"%char :: " "%char :: text it
    /\ (d = "x"%char \/ d = " "%char)
    /\ d = (if checked it then "x"%char else " "%char).
Proof.
  unfold checkbox_line. destruct (checked it); eexists; split;
    [reflexivity|auto|reflexivity|auto].
Qed.

Lemma box_line_match (it : item) :
  clean_box it = true ->
  exists d, line_match (checkbox_line it) = Some (d, text it).
Proof.
  intros (Hne & _ & Hs & _ & _)%clean_box_spec.
  destruct (checkbox_line_chars it) as (d & -> & _ & _). exists d.
  unfold line_match. rewrite !chr_eqb_refl. cbn [andb stops].
  change (is_space " ") with true. cbn [negb lstrip andb].
  change (lstrip (" "%char :: text it)) with (lstrip (text it)).
  rewrite (lstrip_id _ Hs). destruct (text it); [congruence|reflexivity].
Qed.

Lemma box_settled (it : item) :
  clean_box it = true -> settled (checkbox_line it) = true.
Proof.
  intros Hc. pose proof (clean_box_spec it Hc) as (Hne & _ & Hs & Hnl & Hm).
  destruct (checkbox_line_chars it) as (d & E & Hd & _). rewrite E.
  unfold settled. apply andb_true_iff. split.
  - cbn [forallb]. rewrite Hnl. destruct Hd as [-> | ->]; reflexivity.
  - apply negb_true_iff. cbn [dangling].
    rewrite (no_marker_dangling _ Hm), orb_false_r.
    assert (forallb is_space (" "%char :: text it) = false) as Hsp.
    { cbn [forallb]. destruct (text it) as [|c t]; [congruence|].
      cbn [stops] in Hs. apply negb_true_iff in Hs. cbn [forallb].
      now rewrite Hs, andb_false_r. }
    assert (dangling_here
              ("-"%char :: " "%char :: "["%char :: d :: "]"%char
               :: " "%char :: text it) = false) as ->.
    { unfold dangling_here. now rewrite Hsp, andb_false_r. }
    destruct Hd as [-> | ->]; destruct (text it) as [|c1 [|c2 [|c3 [|c4 t]]]];
      reflexivity.
Qed.

Lemma box_render (issue_body : str) (it : item) :
  clean_box it = true ->
  line_render (update_checkbox (issue_checked issue_body)
                               (issue_unchecked issue_body))
              (checkbox_line it)
  = checkbox_line (reconciled issue_body it).
Proof.
  intros Hc. pose proof (clean_box_spec it Hc) as (_ & Hstrip & _).
  destruct (box_line_match it Hc) as (d & Hm).
  destruct (checkbox_line_chars it) as (d' & E & _ & Hd').
  rewrite E in Hm |- *. cbn [line_render]. rewrite Hm.
  unfold update_checkbox, match_of_line, group.
  cbn [m_groups assoc_nat Nat.eqb snd m_whole]. rewrite Hstrip.
  unfold reconciled, checkbox_line. cbn [text checked].
  destruct (bool_decide (text it ∈ issue_checked issue_body)); [reflexivity|].
  destruct (bool_decide (text it ∈ issue_unchecked issue_body)); [reflexivity|].
  rewrite Hd'. now destruct (checked it).
Qed.

(** A line of a document: free text, or the line of an item. *)
Inductive doc_line : Type :=
| Text (l : str)
| Box (it : item).

Definition show (dl : doc_line) : str :=
  match dl with Text l => l | Box it => checkbox_line it end.

Definition boxes (ls : list doc_line) : list item :=
  flat_map (fun dl => match dl with Box it => [it] | Text _ => [] end) ls.

Definition reconcile (issue_body : str) (dl : doc_line) : doc_line :=
  match dl with
  | Text l => Text l
  | Box it => Box (reconciled issue_body it)
  end.

Definition well_formed (dl : doc_line) : bool :=
  match dl with Text l => inert l | Box it => clean_box it end.

(** The header [p] stands in the line. *)
Definition mentions (p : str) (dl : doc_line) : bool :=
  match dl with Text l => contains p l | Box it => contains p (text it) end.

Definition starts_header (dl : doc_line) : bool :=
  match dl with Text l => startswith (lit "##") l | Box _ => false end.

(** The document: the lines before the section, its header, a blank line,
    the lines of the section, the lines after it. *)
Definition document (name : string) (before sec after : list doc_line) : str :=
  join [nl] (map show before ++ [header_of name; []]
             ++ map show sec ++ map show after).

Lemma well_formed_reconcile (issue_body : str) (dl : doc_line) :
  well_formed (reconcile issue_body dl) = well_formed dl.
Proof. now destruct dl. Qed.

Lemma mentions_reconcile (p issue_body : str) (dl : doc_line) :
  mentions p (reconcile issue_body dl) = mentions p dl.
Proof. now destruct dl. Qed.

Lemma starts_header_reconcile (issue_body : str) (dl : doc_line) :
  starts_header (reconcile issue_body dl) = starts_header dl.
Proof. now destruct dl. Qed.

Lemma boxes_reconcile (issue_body : str) (ls : list doc_line) :
  boxes (map (reconcile issue_body) ls) = map (reconciled issue_body) (boxes ls).
Proof.
  induction ls as [|[l|it] ls IH]; [reflexivity| |]; cbn [map boxes flat_map app].
  - exact IH.
  - f_equal. exact IH.
Qed.

Lemma show_settled (dl : doc_line) :
  well_formed dl = true -> settled (show dl) = true.
Proof. destruct dl; [apply inert_settled|apply box_settled]. Qed.

Lemma show_render (issue_body : str) (dl : doc_line) :
  well_formed dl = true ->
  line_render (update_checkbox (issue_checked issue_body)
                               (issue_unchecked issue_body)) (show dl)
  = show (reconcile issue_body dl).
Proof. destruct dl; [apply inert_render|apply box_render]. Qed.

Lemma show_not_nl (dl : doc_line) :
  well_formed dl = true -> forallb not_nl (show dl) = true.
Proof.
  intros H%show_settled. unfold settled in H.
  now apply andb_true_iff in H as [H _].
Qed.

(** A header does not start in the marker of an item's line. *)
Lemma contains_past (c : ascii) (p m t : str) :
  forallb (fun a => negb (chr_eqb c a)) m = true ->
  contains (c :: p) (m ++ t) = contains (c :: p) t.
Proof.
  induction m as [|a m IH]; [reflexivity|]. cbn [forallb app contains].
  intros [Ha Hm]%andb_true_iff. apply negb_true_iff in Ha.
  cbn [startswith]. now rewrite Ha, (IH Hm).
Qed.

Lemma show_mentions (name : string) (dl : doc_line) :
  mentions (header_of name) dl = false ->
  contains (header_of name) (show dl) = false.
Proof.
  destruct dl as [l|it]; [easy|]. cbn [mentions show]. intros H.
  destruct (checkbox_line_chars it) as (d & -> & Hd & _).
  change (header_of name) with ("#"%char :: "#"%char :: " "%char :: lit name)
    in *.
  change ("-"%char :: " "%char :: "["%char :: d :: "]"%char :: " "%char
          :: text it)
    with (["-"%char; " "%char; "["%char; d; "]"%char; " "%char] ++ text it).
  rewrite contains_past; [exact H|].
  destruct Hd as [-> | ->]; reflexivity.
Qed.

(** A literal without a line break that stands in none of the lines first
    stands after them. *)
Lemma first_at_line (p l tail : str) (n : nat) :
  forallb not_nl p = true -> p <> [] -> contains p l = false ->
  first_at p tail n = true ->
  first_at p (l ++ nl :: tail) (length l + 1 + n) = true.
Proof.
  intros Hp Hne. induction l as [|c l IH]; intros Hl Htail.
  - cbn [app length Nat.add first_at]. rewrite Htail, andb_true_r.
    destruct p as [|a p]; [congruence|]. cbn [startswith].
    simpl in Hp. apply andb_true_iff in Hp as [Ha _].
    unfold not_nl in Ha. apply negb_true_iff in Ha. now rewrite Ha.
  - apply contains_cons in Hl as [Hs Hl].
    cbn [app length Nat.add first_at]. rewrite (IH Hl Htail), andb_true_r.
    apply negb_true_iff.
    change (c :: l ++ nl :: tail) with ((c :: l) ++ nl :: tail).
    now apply startswith_app_nl.
Qed.

Lemma first_at_lines (p : str) (ls : list str) (rest : str) :
  forallb not_nl p = true -> p <> [] ->
  forallb (fun l => negb (contains p l)) ls = true ->
  first_at p (concat (map (fun l => l ++ [nl]) ls) ++ p ++ rest)
           (length (concat (map (fun l => l ++ [nl]) ls))) = true.
Proof.
  intros Hp Hne. induction ls as [|l ls IH]; intros H.
  - exact (startswith_app p rest).
  - cbn [forallb] in H. apply andb_true_iff in H as [Hl H].
    apply negb_true_iff in Hl. cbn [map concat].
    rewrite <- !app_assoc, !length_app. cbn [app length].
    rewrite Nat.add_assoc.
    apply first_at_line; [exact Hp|exact Hne|exact Hl|]. now apply IH.
Qed.

Lemma forallb_map {A B} (g : A -> B) (p : B -> bool) (l : list A) :
  forallb p (map g l) = forallb (fun a => p (g a)) l.
Proof. induction l as [|a l IH]; [reflexivity|]. cbn. now rewrite IH. Qed.

Lemma forallb_ext {A} (p q : A -> bool) (l : list A) :
  (forall a, p a = q a) -> forallb p l = forallb q l.
Proof.
  intros H. induction l as [|a l IH]; [reflexivity|]. cbn. now rewrite H, IH.
Qed.

(** What follows the section in the document. *)
Definition after_text (after : list doc_line) : str :=
  match after with [] => [] | _ => nl :: join [nl] (map show after) end.

Lemma document_parts (name : string) (before sec after : list doc_line) :
  before <> [] -> sec <> [] ->
  document name before sec after
  = concat (map (fun l => l ++ [nl]) (map show before))
    ++ header_of name ++ [nl; nl] ++ join [nl] (map show sec)
    ++ after_text after.
Proof.
  intros Hb Hs. unfold document.
  assert (map show before <> []) as Hb' by now destruct before.
  assert (map show sec <> []) as Hs' by now destruct sec.
  rewrite join_app by (try exact Hb'; discriminate).
  rewrite app_assoc, (join_lines _ Hb'). f_equal.
  cbn [app]. rewrite join_cons by discriminate.
  rewrite join_cons by (destruct (map show sec); [congruence|discriminate]).
  f_equal. cbn [app]. f_equal. f_equal.
  destruct after as [|dl after]; cbn [after_text map].
  - now rewrite !app_nil_r.
  - now rewrite join_app by (try exact Hs'; discriminate).
Qed.

Lemma startswith_join (p l : str) (ls : list str) :
  startswith p l = true -> startswith p (join [nl] (l :: ls)) = true.
Proof.
  intros [t ->]%startswith_spec. destruct ls as [|l' ls].
  - apply startswith_app.
  - rewrite join_cons by discriminate. rewrite <- app_assoc.
    apply startswith_app.
Qed.

Lemma parse_shown (sec : list doc_line) :
  forallb well_formed sec = true ->
  forallb (fun dl => negb (starts_header dl)) sec = true ->
  flat_map parse_checkbox_line (map show sec) = boxes sec.
Proof.
  induction sec as [|dl sec IH]; [reflexivity|]. cbn [forallb].
  intros [Hw Hws]%andb_true_iff [Hh Hhs]%andb_true_iff.
  cbn [map flat_map boxes]. fold (boxes sec). rewrite (IH Hws Hhs).
  destruct dl as [l|it]; cbn [show well_formed starts_header] in *.
  - apply negb_true_iff in Hh.
    now rewrite (parse_other_line l (inert_other_line l Hw Hh)).
  - rewrite parse_checkbox_line_round_trip; [reflexivity|].
    unfold readable. unfold clean_box in Hw.
    apply andb_true_iff in Hw as [Hw _]. now apply andb_true_iff in Hw as [_ Hw].
Qed.

(** The structure the read-back is stated for: every line is free text
    without the start of a marker or the line of a clean item; the header
    stands in no line before the section; the section starts with an item
    and none of its text lines starts with "##"; a header line follows the
    section, or nothing. *)
Definition sectioned (name : string) (before sec after : list doc_line)
    : bool :=
  nonempty before && inert (header_of name)
  && forallb well_formed (before ++ sec ++ after)
  && forallb (fun dl => negb (mentions (header_of name) dl)) before
  && match sec with Box _ :: _ => true | _ => false end
  && forallb (fun dl => negb (starts_header dl)) sec
  && match after with [] => true | dl :: _ => starts_header dl end.

Lemma sectioned_reconcile (issue_body : str) (name : string)
    (before sec after : list doc_line) :
  sectioned name (map (reconcile issue_body) before)
            (map (reconcile issue_body) sec)
            (map (reconcile issue_body) after)
  = sectioned name before sec after.
Proof.
  unfold sectioned. rewrite <- !map_app, !forallb_map.
  f_equal; [f_equal; [f_equal; [f_equal; [f_equal; [f_equal|]|]|]|]|].
  - now destruct before.
  - apply forallb_ext. intros dl. apply well_formed_reconcile.
  - apply forallb_ext. intros dl. now rewrite mentions_reconcile.
  - now destruct sec as [|[l|it] sec].
  - apply forallb_ext. intros dl. now rewrite starts_header_reconcile.
  - destruct after as [|dl after]; [reflexivity|]. apply starts_header_reconcile.
Qed.

Lemma parse_document (name : string) (before sec after : list doc_line) :
  sectioned name before sec after = true ->
  parse_checkbox_section (document name before sec after) name = boxes sec.
Proof.
  unfold sectioned.
  intros [[[[[[Hb Hh]%andb_true_iff Hw]%andb_true_iff Hm]%andb_true_iff
              Hfirst]%andb_true_iff Hsec]%andb_true_iff Hafter]%andb_true_iff.
  rewrite !forallb_app in Hw.
  apply andb_true_iff in Hw as [Hwb Hw]. apply andb_true_iff in Hw as [Hws Hwa].
  destruct sec as [|[l|it] sec']; try discriminate.
  assert (forallb well_formed sec' = true
          /\ forallb (fun dl => negb (starts_header dl)) sec' = true)
    as [Hws' Hsec'].
  { cbn [forallb] in Hws, Hsec. apply andb_true_iff in Hws as [_ Hws].
    now apply andb_true_iff in Hsec as [_ Hsec]. }
  set (sec := Box it :: sec') in *.
  assert (before <> []) as Hbne by now destruct before.
  pose proof (inert_spec _ Hh) as [Hhnl _].
  assert (forallb (forallb not_nl) (map show sec) = true) as Hsnl.
  { rewrite forallb_map. rewrite forallb_forall in Hws. apply forallb_forall.
    intros dl Hin. now apply show_not_nl, Hws. }
  assert (section_at (document name before sec after)
            (concat (map (fun l => l ++ [nl]) (map show before)))
            name (join [nl] (map show sec)) (after_text after)) as Hsection.
  { assert (exists t, join [nl] (map show sec) = lit "- " ++ t) as [t Ht].
    { unfold sec. cbn [map show]. unfold checkbox_line at 1.
      destruct (map show sec') as [|l' ls].
      - cbn [join]. now eexists.
      - rewrite join_cons by discriminate. rewrite <- app_assoc. now eexists. }
    rewrite document_parts by (try exact Hbne; discriminate).
    split; [reflexivity|].
    split.
    { apply first_at_lines; [exact Hhnl|discriminate|].
      rewrite forallb_map. rewrite forallb_forall in Hm. apply forallb_forall.
      intros dl Hin. apply negb_true_iff, show_mentions, negb_true_iff.
      now apply Hm. }
    split; [now rewrite Ht|]. split; [now rewrite Ht|]. split.
    - apply contains_next_header_join; [exact Hsnl|].
      unfold sec. cbn [map tl]. rewrite forallb_map.
      rewrite forallb_forall in Hsec'. apply forallb_forall. intros dl Hin.
      specialize (Hsec' dl Hin).
      destruct dl as [l|it']; [exact Hsec'|reflexivity].
    - destruct after as [|[l|it'] after']; [reflexivity| |discriminate].
      cbn [after_text section_end starts_header] in *.
      unfold next_header. cbn [startswith]. rewrite chr_eqb_refl.
      cbn [map show]. now apply startswith_join. }
  destruct (re_search_section _ _ _ _ _ Hsection) as (m & E & G).
  unfold parse_checkbox_section. rewrite E, G.
  rewrite split_nl_join by (try exact Hsnl; discriminate).
  now apply parse_shown.
Qed.


(** A story file with two checkbox sections, and the body of its issue. *)
Definition before_tasks : list doc_line :=
  [Text (lit "# US-003: Cache"); Text []; Text (lit "## Acceptance Criteria");
   Text []; Box (Item (lit "pages load fast") false); Text []].

Definition sec_tasks : list doc_line :=
  [Box (Item (lit "measure") false); Box (Item (lit "tune the cache") true);
   Text []].

Definition after_tasks : list doc_line :=
  [Text (lit "## Notes"); Text []; Text (lit "none")].

Definition body_cache : str :=
  unlines ["- [x] measure"; "- [ ] tune the cache"; "- [x] pages load fast"].


Example sync_checkboxes_cache :
  sync_checkboxes (document "Tasks" before_tasks sec_tasks after_tasks)
                  body_cache
  = unlines ["# US-003: Cache"; ""; "## Acceptance Criteria"; "";
             "- [x] pages load fast"; ""; "## Tasks"; "";
             "- [x] measure"; "- [ ] tune the cache"; "";
             "## Notes"; ""; "none"].
Proof. vm_compute. reflexivity. Qed.

(** ** The status of a story *)

(** [status_pattern] after its literal: [\s*(.+?)(?:\n|$)]. *)
Definition status_value : re :=
  Seq (Rep is_space 0 true) (Seq (Grp 1 (Rep not_nl 1 false)) nl_or_eos).

Lemma status_pattern_parts :
  status_pattern = Seq (Lit "**Status:**") status_value.
Proof. reflexivity. Qed.

Lemma exec_status_value (ws v tail : str) (st : mstate) :
  ms_rest st = ws ++ v ++ tail ->
  forallb is_space ws = true ->
  v <> [] -> stops is_space v = true -> forallb not_nl v = true ->
  line_end tail = true ->
  exists x, exec status_value st Some = Some x
            /\ ms_groups x = (1, v) :: ms_groups st.
Proof.
  intros Hst Hws Hne Hs Hnl Hend.
  set (st1 := ms_after ws (v ++ tail) st).
  assert (ms_rest st1 = v ++ tail) as Hst1 by apply ms_rest_after.
  set (st2 := ms_capture 1 st1 (ms_after v tail st1)).
  destruct (nl_or_eos_at_line_end tail st2) as (x & Ex);
    [unfold st2; rewrite capture_rest; apply ms_rest_after|exact Hend|].
  exists x. split.
  - unfold status_value. cbn [exec]. rewrite Hst.
    apply (rep_greedy_longest is_space 0 _ _ (v ++ tail)).
    + destruct v; [congruence|exact Hs].
    + exact Hst.
    + exact Hws.
    + lia.
    + fold st1. rewrite Hst1. apply rep_lazy_first.
      * exact Hst1.
      * exact Hnl.
      * destruct v; [congruence|simpl; lia].
      * intros u1 u2 E Hu2 _. destruct u2 as [|c u2]; [congruence|].
        apply (nl_or_eos_not_here c (u2 ++ tail)).
        -- rewrite capture_rest. apply ms_rest_after.
        -- rewrite E, forallb_app in Hnl. apply andb_true_iff in Hnl as [_ Hnl].
           simpl in Hnl. now apply andb_true_iff in Hnl as [Hc _].
      * exact Ex.
  - apply (exec_groupless nl_or_eos eq_refl) in Ex as (x' & [= ->] & G).
    rewrite G. unfold st2. rewrite capture_here by exact Hst1.
    unfold st1. now rewrite ms_groups_after.
Qed.

(** A status line: "**Status:**" at the offset [length pre] and not before,
    white space, the value [v] up to the end of its line. *)
Definition status_at (content pre ws v tail : str) : Prop :=
  content = pre ++ lit "**Status:**" ++ ws ++ v ++ tail
  /\ first_at (lit "**Status:**") content (length pre) = true
  /\ forallb is_space ws = true
  /\ nonempty v = true /\ stops is_space v = true /\ forallb not_nl v = true
  /\ line_end tail = true.

Lemma re_search_status (content pre ws v tail : str) :
  status_at content pre ws v tail ->
  exists m, re_search status_pattern content = Some m /\ group 1 m = v.
Proof.
  intros (Hc & Hfirst & Hws & Hne & Hs & Hnl & Hend).
  unfold re_search. rewrite status_pattern_parts. unfold Lit.
  destruct (search_from_first_at (lit "**Status:**") status_value
              (length pre) content None 0 Hfirst) as (prev' & E).
  change (0 + length pre) with (length pre) in E. rewrite E.
  assert (skipn (length pre) content
          = lit "**Status:**" ++ ws ++ v ++ tail) as ->.
  { rewrite Hc, skipn_app, skipn_all, Nat.sub_diag. reflexivity. }
  set (st0 := MState prev' (length pre)
                (lit "**Status:**" ++ ws ++ v ++ tail) []).
  destruct (exec_status_value ws v tail
              (ms_after (lit "**Status:**") (ws ++ v ++ tail) st0))
    as (x & Ex & Gx);
    [apply ms_rest_after|exact Hws|now destruct v|exact Hs|exact Hnl|exact Hend|].
  eexists. split.
  - apply search_from_hit. unfold match_at. fold st0.
    change (exec (Seq (Str_ ?p) ?r) ?s ?k)
      with (exec (Str_ p) s (fun st' => exec r st' k)).
    rewrite (exec_Str (lit "**Status:**") (ws ++ v ++ tail)) by reflexivity.
    rewrite Ex. reflexivity.
  - unfold group. cbn [m_groups]. rewrite Gx. cbn [assoc_nat Nat.eqb].
    reflexivity.
Qed.

Lemma EPIC_LABELS_not_done (key label : str) :
  In (key, label) EPIC_LABELS -> label <> lit "done".
Proof.
  intros H ->.
  assert (forallb (fun kl => negb (str_eqb (snd kl) (lit "done"))) EPIC_LABELS
          = true) as Hall by reflexivity.
  rewrite forallb_forall in Hall. specialize (Hall _ H). discriminate.
Qed.

(** X22.  A story file whose first "**Status:**" is followed by a value on
    the same or a later line gives the story that value, trimmed, as its
    status; the issue created for the story gets the label "done" exactly
    when that status is "done" in any case of letters. *)
Theorem parse_status_line (content pre ws v tail : str) (file_path : Path)
    (story : UserStory.t) :
  status_at content pre ws v tail ->
  parse_story_text content file_path = Ok (Some story) ->
  UserStory.status story = strip v
  /\ (In (lit "done") (create_labels story) <-> lower (strip v) = lit "done").
Proof.
  intros Hstatus Hparse.
  destruct (re_search_status _ _ _ _ _ Hstatus) as (m & Em & Gm).
  pose proof (parse_story_text_label_fields _ _ _ Hparse) as [Hepic _].
  assert (UserStory.status story = strip v) as Hs.
  { unfold parse_story_text in Hparse.
    destruct (re_match story_id_pattern (stem file_path)); [|discriminate].
    destruct (match re_search points_pattern content with
              | Some pm => py_int (group 1 pm) | None => Ok 0%Z end);
      [|discriminate].
    destruct (match re_search (section_pattern "Dependencies") content with
              | Some dm => _ | None => Ok [] end); [|discriminate].
    injection Hparse as <-. cbn [UserStory.status]. now rewrite Em, Gm. }
  split; [exact Hs|].
  unfold create_labels. rewrite List.filter_In, in_app_iff.
  unfold is_done. rewrite Hs. split.
  - intros [[[H|[H|[H|[]]]]|H] _].
    + destruct Hepic as [E|(key & Hin & _)].
      * rewrite E in H. discriminate.
      * now destruct (EPIC_LABELS_not_done _ _ Hin).
    + discriminate.
    + discriminate.
    + destruct (str_eqb (lower (strip v)) (lit "done")) eqn:E;
        [now apply str_eqb_eq|destruct H].
  - intros E. split; [|reflexivity]. right.
    apply str_eqb_eq in E. rewrite E. now left.
Qed.

Definition text_done : str :=
  unlines ["# US-004: Logs"; ""; "**Status:** DONE  "; ""; "## Tasks"].

Lemma parse_status_line_witness :
  exists story,
    parse_story_text text_done path_setup = Ok (Some story)
    /\ UserStory.status story = lit "DONE"
    /\ In (lit "done") (create_labels story).
Proof.
  destruct (parse_story_text text_done path_setup) as [[story|]|] eqn:E;
    [|vm_compute in E; discriminate..].
  exists story. split; [reflexivity|].
  assert (status_at text_done (unlines ["# US-004: Logs"; ""; ""]) (lit " ")
            (lit "DONE  ") (nl :: unlines [""; "## Tasks"])) as H
    by (repeat split).
  destruct (parse_status_line _ _ _ _ _ path_setup story H E) as [Hs Hd].
  split; [rewrite Hs; reflexivity|].
  apply Hd. reflexivity.
Defined.
